(** * ALAN-2022 compiler: scanner, symbol table, hash table and parser

    A shallow embedding of [scanner.c], [hashtable.c], [symboltable.c] and
    [alanc.c].  C [int] and [unsigned int] are 32 bits wide and are carried
    as [Z] with the wrap-around written out; a [char *] string is a
    [string]; the character variable [ch] of the scanner is an [int], so it
    is a [Z] with [EOF = -1].  Global variables of a unit become the fields
    of a state record that is passed explicitly.  A call that ends the
    process ([exit], [leprintf]) and a step with no defined meaning in C
    (a null or indeterminate pointer that is dereferenced, an index outside
    an array) are outcomes of their own. *)

From Stdlib Require Import ZArith List String Ascii Bool Lia QArith.
Import ListNotations.
Local Open Scope string_scope.
Local Open Scope list_scope.
Local Open Scope Z_scope.

Set Implicit Arguments.

(* ------------------------------------------------------------------------- *)
(** ** Machine integers *)

Module CInt.

Definition INT_MAX : Z := 2147483647.
Definition UINT_MOD : Z := 4294967296.

(** value of a 32-bit pattern read as [unsigned int] *)
Definition to_unsigned (x : Z) : Z := x mod UINT_MOD.

(** value of a 32-bit pattern read as [int] (two's complement) *)
Definition to_int (x : Z) : Z :=
  let u := x mod UINT_MOD in
  if u <=? INT_MAX then u else u - UINT_MOD.

(** a byte read through [char], which is signed on the target *)
Definition char_to_int (c : ascii) : Z :=
  let n := Z.of_N (N_of_ascii c) in
  if n <? 128 then n else n - 256.

(** an [int] stored into a [char] *)
Definition int_to_char (x : Z) : ascii := ascii_of_N (Z.to_N (x mod 256)).

End CInt.

(* ------------------------------------------------------------------------- *)
(** ** Outcomes of a run *)

Record SourcePos := mkPos { line : Z; col : Z }.

Inductive Outcome (A : Type) : Type :=
| Ret (a : A)
    (** the call returns *)
| Fatal (pos : SourcePos) (fmt : string) (args : list Z)
    (** [leprintf(fmt, args...)] with the global [position] equal to [pos] *)
| Exit (code : Z)
    (** [exit(code)] *)
| Undefined (why : string)
    (** no defined behaviour in C *)
| OutOfFuel.
    (** the fuel of a recursive definition ran out *)

Arguments Ret {A} a.
Arguments Fatal {A} pos fmt args.
Arguments Exit {A} code.
Arguments Undefined {A} why.
Arguments OutOfFuel {A}.

Definition bind {A B : Type} (m : Outcome A) (k : A -> Outcome B) : Outcome B :=
  match m with
  | Ret a => k a
  | Fatal p f a => Fatal p f a
  | Exit c => Exit c
  | Undefined w => Undefined w
  | OutOfFuel => OutOfFuel
  end.

Declare Scope outcome_scope.
Delimit Scope outcome_scope with outcome.
Notation "x <- m ;; k" := (bind m (fun x => k))
  (at level 61, m at next level, right associativity) : outcome_scope.
Notation "' p <- m ;; k" := (bind m (fun p => k))
  (at level 61, p pattern, m at next level, right associativity)
  : outcome_scope.
Local Open Scope outcome_scope.

(** Modelled from the spec: [leprintf] of error.c, which the scanner calls and
    whose source is absent.  The diagnostic sink "formats the message, prints
    <file>:<line>:<col>: <kind>, and terminates the process with a non-zero
    exit code"; it does not return. *)
Definition leprintf {A : Type} (position : SourcePos) (fmt : string)
    (args : list Z) : Outcome A :=
  Fatal position fmt args.

(** the exit status of a run that ended the process *)
Definition is_success {A : Type} (o : Outcome A) : bool :=
  match o with
  | Exit 0 => true
  | _ => false
  end.

(* ------------------------------------------------------------------------- *)
(** ** Value types and identifier properties *)

Module ValTypes.

Inductive BaseKind := KNone | KBoolean | KInteger.

(** Modelled from the spec: valtypes.h, whose source is absent.  A [ValType]
    is "a base kind in {INTEGER, BOOLEAN, NONE} and an is_array bit, plus a
    CALLABLE marker used only on symbol-table entries for functions and
    procedures". *)
Record ValType := mkType {
  base : BaseKind;
  is_array : bool;
  callable : bool
}.

Definition TYPE_NONE     : ValType := mkType KNone false false.
Definition TYPE_ARRAY    : ValType := mkType KNone true false.
Definition TYPE_BOOLEAN  : ValType := mkType KBoolean false false.
Definition TYPE_INTEGER  : ValType := mkType KInteger false false.
Definition TYPE_CALLABLE : ValType := mkType KNone false true.

Definition BaseKind_eqb (a b : BaseKind) : bool :=
  match a, b with
  | KNone, KNone | KBoolean, KBoolean | KInteger, KInteger => true
  | _, _ => false
  end.

Definition ValType_eqb (a b : ValType) : bool :=
  BaseKind_eqb (base a) (base b) && Bool.eqb (is_array a) (is_array b)
  && Bool.eqb (callable a) (callable b).

(** Modelled from the spec: the predicate [IS_CALLABLE_TYPE] of valtypes.h;
    a callable is an entry "whose ValType carries the CALLABLE marker". *)
Definition IS_CALLABLE_TYPE (t : ValType) : bool := callable t.

(** Modelled from the spec: the predicate [IS_PROCEDURE] of valtypes.h; "a
    procedure has NONE" as its return base. *)
Definition IS_PROCEDURE (t : ValType) : bool :=
  callable t && BaseKind_eqb (base t) KNone.

Record IDprop := mkIDprop {
  type : ValType;
  offset : Z;                  (* unsigned int *)
  nparams : Z;                 (* unsigned int *)
  params : list ValType
}.

End ValTypes.

Import ValTypes.

(* ------------------------------------------------------------------------- *)
(** ** hashtable.c: a generic hash table with chaining *)

Module HashTable.

Definition EXIT_SUCCESS : Z := 0.
Definition INITIAL_DELTA_INDEX : Z := 4.

(** the array of differences between a power of two and the largest prime
    less than that power of two *)
Definition delta : list Z :=
  [0; 0; 1; 1; 3; 1; 3; 1; 5; 3; 3; 9; 3; 1; 3; 19;
   15; 1; 5; 1; 3; 9; 3; 15; 3; 39; 5; 39; 57; 3; 35; 1].

Definition MAX_IDX : Z := Z.of_nat (List.length delta).

Section Table.

Variables K V : Type.

(** an entry; [next_ptr] is the tail of the chain the entry sits in *)
Record HTentry := mkEntry { key : K; value : V }.

Record HashTab := mkHashTab {
  table : list (list HTentry);  (* the underlying table, a chain a bucket *)
  size : Z;                     (* unsigned int *)
  num_entries : Z;              (* unsigned int *)
  max_loadfactor : Q;           (* float; 0.75f is exact, kept as a rational *)
  idx : Z;                      (* unsigned short, the index into [delta] *)
  hash : K -> Z -> Z;           (* a pointer to the hash function *)
  cmp : K -> K -> Z             (* a pointer to the comparison function *)
}.

Definition set_table (ht : HashTab) (t : list (list HTentry)) : HashTab :=
  mkHashTab t (size ht) (num_entries ht) (max_loadfactor ht) (idx ht)
            (hash ht) (cmp ht).
Definition set_size (ht : HashTab) (n : Z) : HashTab :=
  mkHashTab (table ht) n (num_entries ht) (max_loadfactor ht) (idx ht)
            (hash ht) (cmp ht).
Definition set_num_entries (ht : HashTab) (n : Z) : HashTab :=
  mkHashTab (table ht) (size ht) n (max_loadfactor ht) (idx ht)
            (hash ht) (cmp ht).
Definition set_idx (ht : HashTab) (i : Z) : HashTab :=
  mkHashTab (table ht) (size ht) (num_entries ht) (max_loadfactor ht) i
            (hash ht) (cmp ht).

(** [ht->table[k]] for an [int k] *)
Definition bucket (t : list (list HTentry)) (k : Z) : Outcome (list HTentry) :=
  if (0 <=? k) && (k <? Z.of_nat (List.length t)) then
    match nth_error t (Z.to_nat k) with
    | Some c => Ret c
    | None => Undefined "bucket index outside the table"
    end
  else Undefined "bucket index outside the table".

(** the chain of bucket [k] gets [p] linked behind its last entry *)
Definition bucket_append (t : list (list HTentry)) (k : Z) (p : HTentry)
  : Outcome (list (list HTentry)) :=
  c <- bucket t k ;;
  Ret (firstn (Z.to_nat k) t ++ (c ++ [p]) :: skipn (S (Z.to_nat k)) t).

(** [getsize]: the power loop doubles [result] in [int] arithmetic,
    [ht->idx] is advanced, and [delta[l]] is read *)
Definition getsize (ht : HashTab) : Outcome (Z * HashTab) :=
  let k := idx ht + 1 in
  let l := idx ht + 1 in
  let result := Nat.iter (Z.to_nat k) (fun r => CInt.to_int (r * 2)) 1 in
  let ht := set_idx ht l in
  match nth_error delta (Z.to_nat l) with
  | Some d => Ret (CInt.to_int (result - d), ht)
  | None => Undefined "index outside delta"
  end.

(** [ht_init]; allocation is taken to succeed *)
Definition ht_init (loadfactor : Q) (hash : K -> Z -> Z) (cmp : K -> K -> Z)
  : Outcome HashTab :=
  let ht := mkHashTab [] 0 0 loadfactor INITIAL_DELTA_INDEX hash cmp in
  '(n, ht) <- getsize ht ;;
  let ht := set_size ht (CInt.to_unsigned n) in
  Ret (set_table ht (repeat [] (Z.to_nat (size ht)))).

(** the inner loop of [rehash] for one chain of the old table *)
Fixpoint relocate (h : K -> Z -> Z) (new_size : Z) (c : list HTentry)
    (new_table : list (list HTentry)) : Outcome (list (list HTentry)) :=
  match c with
  | [] => Ret new_table
  | this :: rest =>
      let newidx := h (key this) new_size in
      t <- bucket_append new_table newidx this ;;
      relocate h new_size rest t
  end.

(** the loop of [rehash] over the buckets of the old table *)
Fixpoint relocate_all (h : K -> Z -> Z) (new_size : Z) (old : list (list HTentry))
    (new_table : list (list HTentry)) : Outcome (list (list HTentry)) :=
  match old with
  | [] => Ret new_table
  | c :: rest =>
      t <- relocate h new_size c new_table ;;
      relocate_all h new_size rest t
  end.

(** [rehash]; the old bucket array is empty by the time [ht_free] sees it,
    so no entry is released, but [ht_free] releases the bucket array and the
    container [ht] itself; the two assignments that follow, [ht->table] and
    [ht->size], write through the released container, which the caller goes
    on using *)
Definition rehash (ht : HashTab) : Outcome HashTab :=
  let old := table ht in
  '(n, ht) <- getsize ht ;;
  let new_size := CInt.to_unsigned n in
  let new_table := repeat [] (Z.to_nat new_size) in
  _ <- relocate_all (hash ht) new_size old new_table ;;
  Undefined "write through the container that ht_free has released".

(** [ht_insert]: the entry goes to the end of its chain, whether or not
    the key is there already; the result is always [EXIT_SUCCESS] *)
Definition ht_insert (ht : HashTab) (k : K) (v : V) : Outcome (Z * HashTab) :=
  let N := size ht in
  let p := mkEntry k v in
  let i := CInt.to_int (hash ht k (size ht)) in
  t <- bucket_append (table ht) i p ;;
  let ht := set_num_entries (set_table ht t)
              (CInt.to_unsigned (num_entries ht + 1)) in
  let ne := num_entries ht in
  let current_loadfactor := (inject_Z ne / inject_Z N)%Q in
  if negb (Qle_bool current_loadfactor (max_loadfactor ht)) then
    ht <- rehash ht ;; Ret (EXIT_SUCCESS, ht)
  else Ret (EXIT_SUCCESS, ht).

(** the loop of [ht_search] along one chain *)
Fixpoint chain_search (c : K -> K -> Z) (k : K) (p : list HTentry) : option V :=
  match p with
  | [] => None
  | e :: next_ptr =>
      if c k (key e) =? 0 then Some (value e) else chain_search c k next_ptr
  end.

(** [ht_search]: [Some v] is [TRUE] with [*value = v], [None] is [FALSE]
    with [*value] left as it was *)
Definition ht_search (ht : HashTab) (k : K) : Outcome (option V) :=
  let i := CInt.to_int (hash ht k (size ht)) in
  p <- bucket (table ht) i ;;
  Ret (chain_search (cmp ht) k p).

(** every entry of the table, bucket after bucket *)
Definition ht_entries (ht : HashTab) : list HTentry := List.concat (table ht).

End Table.

End HashTable.

(* ------------------------------------------------------------------------- *)
(** ** symboltable.c *)

Module SymbolTable.

Import HashTable.

Definition byte (c : ascii) : Z := Z.of_N (N_of_ascii c).

(** [strcmp]; only the sign of the result is specified, so it is -1, 0 or 1 *)
Fixpoint strcmp (s1 s2 : string) : Z :=
  match s1, s2 with
  | EmptyString, EmptyString => 0
  | EmptyString, String _ _ => -1
  | String _ _, EmptyString => 1
  | String c1 r1, String c2 r2 =>
      if byte c1 =? byte c2 then strcmp r1 r2
      else if byte c1 <? byte c2 then -1 else 1
  end.

Definition key_strcmp (val1 val2 : string) : Z := strcmp val1 val2.

(** [shift_hash]: [h] is an [int]; the shifts and the sum wrap to 32 bits and
    [>>] keeps the sign; [h % size] is taken in [unsigned int] *)
Definition shift_step (h : Z) (c : ascii) : Z :=
  let h := Z.lor (CInt.to_int (Z.shiftl h 5)) (Z.shiftr h 27) in
  CInt.to_int (h + CInt.char_to_int c).

Definition shift_hash (key : string) (size : Z) : Z :=
  let size := CInt.to_unsigned (size - 1) in
  let h := fold_left shift_step (list_ascii_of_string key) 0 in
  CInt.to_unsigned h mod size.

Definition Table := HashTab string IDprop.

(** the static variables of the unit; [None] is the null pointer *)
Record SymTab := mkSymTab {
  table : option Table;
  saved_table : option Table;
  curr_offset : Z
}.

Definition load_factor : Q := 3 # 4.

Definition init_symbol_table : Outcome SymTab :=
  t <- @ht_init string IDprop load_factor shift_hash key_strcmp ;;
  Ret (mkSymTab (Some t) None 1).

(** [open_subroutine]: both branches of the test return, so the statements
    after it (saving the table, making a new one) are never run *)
Definition open_subroutine (st : SymTab) (id : string) (prop : IDprop)
  : Outcome (bool * SymTab) :=
  match table st with
  | None => Undefined "ht_insert on a null table"
  | Some t =>
      '(r, t) <- ht_insert t id prop ;;
      let st := mkSymTab (Some t) (saved_table st) (curr_offset st) in
      if r =? 0 then Ret (true, st) else Ret (false, st)
  end.

(** [close_subroutine]: the current table is released and the saved one
    becomes current *)
Definition close_subroutine (st : SymTab) : Outcome SymTab :=
  match table st with
  | None => Undefined "ht_free on a null table"
  | Some _ => Ret (mkSymTab (saved_table st) (saved_table st) (curr_offset st))
  end.

(** [find_name]: [prop] is what [*prop] holds on entry ([None]: nothing
    determinate); the result is [found] and what [*prop] holds on return *)
Definition find_name (st : SymTab) (id : string) (prop : option IDprop)
  : Outcome (bool * option IDprop) :=
  match table st with
  | None => Undefined "ht_search on a null table"
  | Some t =>
      r <- ht_search t id ;;
      match r with
      | Some p => Ret (true, Some p)
      | None =>
          match saved_table st with
          | None => Ret (false, prop)
          | Some s =>
              r <- ht_search s id ;;
              match r with
              | Some p =>
                  if negb (IS_CALLABLE_TYPE (type p)) then Ret (false, Some p)
                  else Ret (true, Some p)
              | None => Ret (false, prop)
              end
          end
      end
  end.

(** [insert_name]: [find_name] is handed the address of the parameter
    [prop], so what is inserted is [*prop] as [find_name] left it *)
Definition insert_name (st : SymTab) (id : string) (prop : IDprop)
  : Outcome (bool * SymTab) :=
  '(found, prop') <- find_name st id (Some prop) ;;
  if negb found then
    match table st, prop' with
    | Some t, Some p =>
        '(r, t) <- ht_insert t id p ;;
        let st := mkSymTab (Some t) (saved_table st) (curr_offset st) in
        if r =? 0 then Ret (true, st) else Ret (false, st)
    | _, _ => Undefined "ht_insert on a null table"
    end
  else Ret (false, st).

Definition get_variables_width (st : SymTab) : Z := curr_offset st.

End SymbolTable.

(* ------------------------------------------------------------------------- *)
(** ** Tokens *)

Module Tok.

(** Modelled from the spec: token.h, whose source is absent; the token types
    are the ones scanner.c and alanc.c name. *)
Inductive TokenType :=
| TOKEN_EOF | TOKEN_ID | TOKEN_NUMBER | TOKEN_STRING
| TOKEN_ARRAY | TOKEN_BEGIN | TOKEN_BOOLEAN | TOKEN_CALL | TOKEN_DO
| TOKEN_ELSE | TOKEN_ELSIF | TOKEN_END | TOKEN_FALSE | TOKEN_FUNCTION
| TOKEN_GET | TOKEN_IF | TOKEN_INTEGER | TOKEN_LEAVE | TOKEN_NOT | TOKEN_PUT
| TOKEN_RELAX | TOKEN_SOURCE | TOKEN_THEN | TOKEN_TO | TOKEN_TRUE
| TOKEN_WHILE
| TOKEN_EQUAL | TOKEN_GREATER_EQUAL | TOKEN_GREATER_THAN | TOKEN_LESS_EQUAL
| TOKEN_LESS_THAN | TOKEN_NOT_EQUAL
| TOKEN_MINUS | TOKEN_OR | TOKEN_PLUS
| TOKEN_AND | TOKEN_DIVIDE | TOKEN_MULTIPLY | TOKEN_REMAINDER
| TOKEN_CLOSE_BRACKET | TOKEN_CLOSE_PARENTHESIS | TOKEN_COMMA
| TOKEN_CONCATENATE | TOKEN_GETS | TOKEN_OPEN_BRACKET
| TOKEN_OPEN_PARENTHESIS | TOKEN_SEMICOLON.

Definition TokenType_eq_dec (a b : TokenType) : {a = b} + {a <> b}.
Proof. decide equality. Defined.

Definition eqb (a b : TokenType) : bool :=
  if TokenType_eq_dec a b then true else false.

(** Modelled from the spec: identifiers have a "maximum length 72
    characters". *)
Definition MAX_ID_LENGTH : Z := 72.

(** the token; the payloads share storage in C and are read here only under
    the type that wrote them last, except where noted *)
Record Token := mkToken {
  type : TokenType;
  value : Z;             (* int, for TOKEN_NUMBER *)
  lexeme : string;       (* char[MAX_ID_LENGTH + 1], for TOKEN_ID *)
  str : string           (* char *string, for TOKEN_STRING *)
}.

Definition set_type (t : Token) (ty : TokenType) : Token :=
  mkToken ty (value t) (lexeme t) (str t).
Definition set_value (t : Token) (v : Z) : Token :=
  mkToken (type t) v (lexeme t) (str t).
Definition set_lexeme (t : Token) (l : string) : Token :=
  mkToken (type t) (value t) l (str t).
Definition set_str (t : Token) (s : string) : Token :=
  mkToken (type t) (value t) (lexeme t) s.

End Tok.

(* ------------------------------------------------------------------------- *)
(** ** scanner.c *)

Module Scanner.

Import Tok.

Definition EOF : Z := -1.

(** the code of a character constant *)
Definition C (a : ascii) : Z := Z.of_N (N_of_ascii a).
Arguments C a%_char.

Definition NEWLINE : Z := 10.
Definition DQUOTE : Z := 34.
Definition BACKSLASH : Z := 92.

(** ctype.h in the C locale, on an [int] that is a byte or [EOF] *)
Definition isspace (c : Z) : bool := (c =? 32) || ((9 <=? c) && (c <=? 13)).
Definition isdigit (c : Z) : bool := (C "0" <=? c) && (c <=? C "9").
Definition isupper (c : Z) : bool := (C "A" <=? c) && (c <=? C "Z").
Definition islower (c : Z) : bool := (C "a" <=? c) && (c <=? C "z").
Definition isalpha (c : Z) : bool := isupper c || islower c.
Definition isascii (c : Z) : bool := (0 <=? c) && (c <=? 127).
Definition isprint (c : Z) : bool := (32 <=? c) && (c <=? 126).

Record ReservedWord := mkReserved { word : string; rtype : TokenType }.

Definition reserved : list ReservedWord :=
  [ mkReserved "and" TOKEN_AND; mkReserved "array" TOKEN_ARRAY;
    mkReserved "begin" TOKEN_BEGIN; mkReserved "boolean" TOKEN_BOOLEAN;
    mkReserved "call" TOKEN_CALL; mkReserved "do" TOKEN_DO;
    mkReserved "else" TOKEN_ELSE; mkReserved "elsif" TOKEN_ELSIF;
    mkReserved "end" TOKEN_END; mkReserved "false" TOKEN_FALSE;
    mkReserved "function" TOKEN_FUNCTION; mkReserved "get" TOKEN_GET;
    mkReserved "if" TOKEN_IF; mkReserved "integer" TOKEN_INTEGER;
    mkReserved "leave" TOKEN_LEAVE; mkReserved "not" TOKEN_NOT;
    mkReserved "or" TOKEN_OR; mkReserved "put" TOKEN_PUT;
    mkReserved "relax" TOKEN_RELAX; mkReserved "rem" TOKEN_REMAINDER;
    mkReserved "source" TOKEN_SOURCE; mkReserved "then" TOKEN_THEN;
    mkReserved "to" TOKEN_TO; mkReserved "true" TOKEN_TRUE;
    mkReserved "while" TOKEN_WHILE ].

Definition NUM_RESERVED_WORDS : Z := Z.of_nat (List.length reserved).
Definition MAX_INITIAL_STRING_LEN : Z := 1024.

(** the static variables of the unit, the global [position] of error.h, and
    the static [last_read] of [next_char]; [src_file] is what [fgetc] has
    still to deliver *)
Record State := mkState {
  src_file : list Z;
  ch : Z;
  column_number : Z;
  position : SourcePos;
  last_read : Z
}.

Definition set_ch (s : State) (c : Z) : State :=
  mkState (src_file s) c (column_number s) (position s) (last_read s).
Definition set_column_number (s : State) (n : Z) : State :=
  mkState (src_file s) (ch s) n (position s) (last_read s).
Definition set_col (s : State) (c : Z) : State :=
  mkState (src_file s) (ch s) (column_number s)
          (mkPos (line (position s)) c) (last_read s).
Definition set_line (s : State) (l : Z) : State :=
  mkState (src_file s) (ch s) (column_number s)
          (mkPos l (col (position s))) (last_read s).
Definition set_last_read (s : State) (c : Z) : State :=
  mkState (src_file s) (ch s) (column_number s) (position s) c.

(** [fgetc]: the next byte, or [EOF] for good *)
Definition fgetc (s : State) : Z * State :=
  match src_file s with
  | [] => (EOF, s)
  | c :: rest =>
      (c, mkState rest (ch s) (column_number s) (position s) (last_read s))
  end.

Definition next_char (s : State) : State :=
  let s := set_col s (column_number s) in
  if ch s =? EOF then s
  else
    let '(c, s) := fgetc s in
    let s := set_ch s c in
    if ch s =? EOF then s
    else
      let s :=
        if last_read s =? NEWLINE then
          set_last_read
            (set_line (set_column_number s 0) (line (position s) + 1)) 0
        else s in
      let s := set_column_number s (column_number s + 1) in
      if ch s =? NEWLINE then set_last_read s NEWLINE else s.

(** [init_scanner]; the statics [ch] and [last_read] start as zero *)
Definition init_scanner (in_file : list Z) : State :=
  next_char (mkState in_file 0 0 (mkPos 1 0) 0).

(** a loop that reads a character in every round tests its condition at most
    this often: once for [ch], once for every byte left, once for [EOF] *)
Definition rounds (s : State) : nat := S (S (List.length (src_file s))).

(** *** Numbers *)

Definition number_overflows (number newnum : Z) : bool :=
  (Z.quot CInt.INT_MAX 10 <? number)
  || ((Z.quot CInt.INT_MAX 10 =? number) && (newnum >? Z.rem CInt.INT_MAX 10)).

(** the [while] loop of [process_number] *)
Fixpoint process_number_loop (fuel : nat) (k number : Z) (s : State)
  : Outcome (Z * State) :=
  match fuel with
  | O => OutOfFuel
  | S fuel =>
      if isdigit (ch s) then
        let s := next_char s in
        if negb (isdigit (ch s)) then Ret (number, s)
        else
          let newnum := ch s - C "0" in
          if number_overflows number newnum then
            leprintf (position (set_col s k)) "number too large" []
          else process_number_loop fuel k (10 * number + newnum) s
      else Ret (number, s)
  end.

Definition process_number (s : State) (token : Token)
  : Outcome (Token * State) :=
  let start_pos_col := column_number s in
  let k := column_number s in
  let number := ch s - C "0" in
  '(number, s) <- process_number_loop (rounds s) k number s ;;
  let token := set_value (set_type token TOKEN_NUMBER) number in
  Ret (token, set_col s start_pos_col).

(** *** Strings *)

(** [strncat(line, &add, 1)] into a buffer of [nstring] bytes whose content
    is a terminated string: nothing is copied for a zero byte, and the byte
    with its terminator must fit *)
Definition strncat1 (nstring : Z) (line : string) (add : ascii)
  : Outcome string :=
  if (N_of_ascii add =? 0)%N then Ret line
  else if Z.of_nat (String.length line) + 1 <? nstring then
    Ret (line ++ String add "")%string
  else Undefined "write past the end of the string buffer".

Definition is_escape (c : Z) : bool :=
  (c =? C "n") || (c =? C "t") || (c =? DQUOTE) || (c =? BACKSLASH).

(** the [while] loop of [process_string] *)
Fixpoint process_string_loop (fuel : nat) (k count nstring : Z)
    (line : string) (s : State) : Outcome (string * State) :=
  match fuel with
  | O => OutOfFuel
  | S fuel =>
      if ch s =? DQUOTE then Ret (line, s)
      else
        let add := CInt.int_to_char (ch s) in
        '(add, line, s) <-
          (if ch s =? BACKSLASH then
             line <- strncat1 nstring line add ;;
             let s := next_char s in
             if negb (is_escape (ch s)) then
               leprintf (position (set_col s (column_number s - 1)))
                        "illegal escape code '\%c' in string" [ch s]
             else Ret (CInt.int_to_char (ch s), line, s)
           else Ret (add, line, s)) ;;
        line <- strncat1 nstring line add ;;
        let s := next_char s in
        let count := count + 1 in
        if ch s =? EOF then
          leprintf (position (set_col s (k - 1))) "string not closed" []
        else if negb (isascii (ch s)) || (ch s =? NEWLINE)
                || negb (isprint (ch s)) then
          leprintf (position (set_col s (col (position s) + 1)))
                   "non-printable character (ASCII #%d) in string" [ch s]
        else
          let '(count, nstring) :=
            if count >? 1023 then (0, nstring * 2) else (count, nstring) in
          process_string_loop fuel k count nstring line s
  end.

(** [process_string]; the fresh buffer is taken to hold the empty string *)
Definition process_string (s : State) (token : Token)
  : Outcome (Token * State) :=
  let start_pos_col := column_number s in
  let k := column_number s in
  '(line, s) <-
    process_string_loop (rounds s) k 1 MAX_INITIAL_STRING_LEN "" s ;;
  let token := set_str (set_type token TOKEN_STRING) line in
  let s := next_char s in
  Ret (token, set_col s (start_pos_col - 1)).

(** *** Words *)

Definition is_word_char (c : Z) : bool :=
  isalpha c || (c =? C "_") || isdigit c.

(** the [while] loop of [process_word]; [strncat] appends to [lexeme], which
    has room for [MAX_ID_LENGTH] characters *)
Fixpoint process_word_loop (fuel : nat) (k i : Z) (lexeme : string)
    (s : State) : Outcome (string * State) :=
  match fuel with
  | O => OutOfFuel
  | S fuel =>
      if is_word_char (ch s) then
        let add := CInt.int_to_char (ch s) in
        let i := i + 1 in
        if i >? MAX_ID_LENGTH then
          leprintf (position (set_col s k)) "identifier too long" []
        else
          process_word_loop fuel k i (lexeme ++ String add "")%string
                            (next_char s)
      else Ret (lexeme, s)
  end.

(** [reserved[mid]] *)
Definition reserved_at (mid : Z) : Outcome ReservedWord :=
  if (0 <=? mid) && (mid <? NUM_RESERVED_WORDS) then
    match nth_error reserved (Z.to_nat mid) with
    | Some r => Ret r
    | None => Undefined "index outside reserved"
    end
  else Undefined "index outside reserved".

(** the [do ... while] loop of [process_word]: the result is the last [mid] *)
Fixpoint binary_search (fuel : nat) (lexeme : string) (low high : Z)
  : Outcome Z :=
  match fuel with
  | O => OutOfFuel
  | S fuel =>
      let mid := Z.quot (low + high) 2 in
      r <- reserved_at mid ;;
      let c := SymbolTable.strcmp lexeme (word r) in
      let high := if c <? 0 then mid - 1 else high in
      let low := if c <? 0 then low else if c >? 0 then mid + 1 else low in
      if negb (c =? 0) && (low <=? high) then
        binary_search fuel lexeme low high
      else Ret mid
  end.

Definition process_word (s : State) (token : Token)
  : Outcome (Token * State) :=
  let start_pos_col := column_number s in
  let k := column_number s in
  '(lexeme, s) <- process_word_loop (rounds s) k 0 "" s ;;
  let low := 0 in
  let high := NUM_RESERVED_WORDS - 1 in
  mid <- binary_search (List.length reserved) lexeme low high ;;
  r <- reserved_at mid ;;
  if SymbolTable.strcmp lexeme (word r) =? 0 then
    Ret (set_type token (rtype r), set_col s start_pos_col)
  else
    Ret (set_lexeme (set_type token TOKEN_ID) lexeme, set_col s start_pos_col).

(** *** Comments *)

(** [skip_comment] and its [while] loop; [temp1] and [temp2] are the column
    and the line the call started at.  The assignment to [start_pos.col]
    inside the loop is never read. *)
Fixpoint skip_comment (fuel : nat) (s : State) : Outcome State :=
  match fuel with
  | O => OutOfFuel
  | S fuel =>
      let start_pos_col := column_number s in
      let temp1 := column_number s in
      let temp2 := line (position s) in
      let s := next_char s in
      if ch s =? EOF then
        leprintf (position (set_col s start_pos_col)) "comment not closed" []
      else skip_comment_loop fuel temp1 temp2 s
  end
with skip_comment_loop (fuel : nat) (temp1 temp2 : Z) (s : State)
  : Outcome State :=
  match fuel with
  | O => OutOfFuel
  | S fuel =>
      if ch s =? C "}" then Ret (next_char s)
      else
        s <- (if ch s =? C "{" then skip_comment fuel s else Ret s) ;;
        if ch s =? C "}" then Ret (next_char s)
        else if ch s =? EOF then
          leprintf (position (set_line (set_col s temp1) temp2))
                   "comment not closed" []
        else skip_comment_loop fuel temp1 temp2 (next_char s)
  end.

(** *** Tokens *)

(** the [while (isspace(ch))] loop of [get_token] *)
Fixpoint skip_space (fuel : nat) (s : State) : Outcome State :=
  match fuel with
  | O => OutOfFuel
  | S fuel => if isspace (ch s) then skip_space fuel (next_char s) else Ret s
  end.

Definition illegal_character {A : Type} (s : State) (c : Z) : Outcome A :=
  leprintf (position s) "illegal character '%c' (ASCII #%d)" [c; c].

(** [get_token]; [token] is written in part only, so what it held before
    is an argument.  A character that no case of the [switch] names leaves
    the token and the scanner as they are. *)
Fixpoint get_token (fuel : nat) (s : State) (token : Token)
  : Outcome (Token * State) :=
  match fuel with
  | O => OutOfFuel
  | S fuel =>
      s <- skip_space (rounds s) s ;;
      let s := if ch s =? NEWLINE then next_char s else s in
      _ <- (if negb (isascii (ch s)) && negb (ch s =? EOF) then
              illegal_character (set_col s (column_number s)) (ch s)
            else Ret tt) ;;
      let s := set_col s (column_number s) in
      if negb (ch s =? EOF) then
        if isalpha (ch s) || (ch s =? C "_") then process_word s token
        else if isdigit (ch s) then process_number s token
        else if ch s =? DQUOTE then
          let s := set_col s (column_number s) in
          process_string (next_char s) token
        else if ch s =? C "{" then
          s <- skip_comment (2 * rounds s) s ;;
          get_token fuel s token
        else if ch s =? C "=" then Ret (set_type token TOKEN_EQUAL, next_char s)
        else if ch s =? C ">" then
          let s := next_char s in
          if ch s =? C "=" then
            let s := next_char s in
            Ret (set_type token TOKEN_GREATER_EQUAL,
                 set_col s (col (position s) - 1))
          else Ret (set_type token TOKEN_GREATER_THAN, s)
        else if ch s =? C "<" then
          let s := next_char s in
          if ch s =? C "=" then
            let s := next_char s in
            Ret (set_type token TOKEN_LESS_EQUAL,
                 set_col s (col (position s) - 1))
          else if ch s =? C ">" then
            let s := next_char s in
            Ret (set_type token TOKEN_NOT_EQUAL,
                 set_col s (col (position s) - 1))
          else Ret (set_type token TOKEN_LESS_THAN, s)
        else if ch s =? C "-" then Ret (set_type token TOKEN_MINUS, next_char s)
        else if ch s =? C "+" then Ret (set_type token TOKEN_PLUS, next_char s)
        else if ch s =? C "/" then Ret (set_type token TOKEN_DIVIDE, next_char s)
        else if ch s =? C "*" then
          Ret (set_type token TOKEN_MULTIPLY, next_char s)
        else if ch s =? C "]" then
          Ret (set_type token TOKEN_CLOSE_BRACKET, next_char s)
        else if ch s =? C ")" then
          Ret (set_type token TOKEN_CLOSE_PARENTHESIS, next_char s)
        else if ch s =? C "," then Ret (set_type token TOKEN_COMMA, next_char s)
        else if ch s =? C "." then
          Ret (set_type token TOKEN_CONCATENATE, next_char s)
        else if ch s =? C ":" then
          let temp := ch s in
          let s := next_char s in
          if ch s =? C "=" then
            let s := next_char s in
            Ret (set_type token TOKEN_GETS, set_col s (col (position s) - 1))
          else illegal_character s temp
        else if ch s =? C "[" then
          Ret (set_type token TOKEN_OPEN_BRACKET, next_char s)
        else if ch s =? C "(" then
          Ret (set_type token TOKEN_OPEN_PARENTHESIS, next_char s)
        else if ch s =? C ";" then
          Ret (set_type token TOKEN_SEMICOLON, next_char s)
        else if (ch s =? C "}") || (ch s =? C "!") || (ch s =? C "#")
                || (ch s =? C "$") || (ch s =? C "%") || (ch s =? C "&")
                || (ch s =? C "@") || (ch s =? C "|") || (ch s =? C "~")
                || (ch s =? C "`") then
          illegal_character s (ch s)
        else Ret (token, s)
      else Ret (set_type token TOKEN_EOF, s)
  end.

(** one call of [get_token] enters itself once for every comment it skips *)
Definition token_fuel (s : State) : nat := rounds s.

(** the bytes of a source text *)
Definition file_of_string (text : string) : list Z :=
  map C (list_ascii_of_string text).

End Scanner.

(* ------------------------------------------------------------------------- *)
(** ** alanc.c: the parser *)

Module Parser.

Import Tok.

(** Modelled from the spec: codegen.h and jvm.h, whose sources are absent.
    The emitter "accumulates stack-machine instructions" in buffers of its
    own; a call to it is recorded, in the order the calls are made. *)
Inductive Bytecode :=
| JVM_RETURN | JVM_ISTORE | JVM_ASTORE | JVM_ILOAD | JVM_ALOAD | JVM_LDC
| JVM_INEG | JVM_ISUB | JVM_IADD | JVM_IOR
| JVM_IMUL | JVM_IDIV | JVM_IREM | JVM_IAND
| JVM_IF_ICMPEQ | JVM_IF_ICMPGE | JVM_IF_ICMPGT | JVM_IF_ICMPLE
| JVM_IF_ICMPLT | JVM_IF_ICMPNE.

Inductive ArrayType := T_BOOLEAN | T_INT.

Inductive Emit :=
| init_code_generation
| set_class_name (class_name : string)
| init_subroutine_codegen (name : string) (p : IDprop)
| close_subroutine_codegen (varwidth : Z)
| gen_1 (opcode : Bytecode)
| gen_2 (opcode : Bytecode) (operand : Z)
| gen_call (fname : string) (p : option IDprop)
| gen_cmp (opcode : Bytecode)
| gen_newarray (atype : ArrayType)
| gen_print (t : ValType)
| gen_print_string (s : string).

(** the global variables of alanc.c and of the units it drives *)
Record Compiler := mkCompiler {
  scanner : Scanner.State;
  token : Token;                   (* the lookahead token *)
  symtab : SymbolTable.SymTab;
  return_type : ValType;
  off_counter : Z;                 (* unsigned int *)
  counters : Z;                    (* int *)
  code : list Emit                 (* the calls made to the emitter *)
}.

Definition M (A : Type) : Type := Compiler -> Outcome (A * Compiler).

Definition ret {A : Type} (a : A) : M A := fun c => Ret (a, c).

Definition bindM {A B : Type} (m : M A) (k : A -> M B) : M B :=
  fun c => bind (m c) (fun r => k (fst r) (snd r)).

Declare Scope parser_scope.
Delimit Scope parser_scope with parser.
Notation "x <- m ;; k" := (bindM m (fun x => k))
  (at level 61, m at next level, right associativity) : parser_scope.
Notation "m ;; k" := (bindM m (fun _ => k))
  (at level 61, right associativity) : parser_scope.
Local Open Scope parser_scope.

Definition out_of_fuel {A : Type} : M A := fun _ => OutOfFuel.
Definition undefined {A : Type} (why : string) : M A := fun _ => Undefined why.

(** [abort_compile]: the first statement is [exit(0)] *)
Definition abort_compile {A : Type} : M A := fun _ => Exit 0.

(** [check_types]: the first statement is [exit(0)]; nothing calls it *)
Definition check_types {A : Type} (found expected : ValType) : M A :=
  fun _ => Exit 0.

Definition emit (e : Emit) : M unit :=
  fun c => Ret (tt, mkCompiler (scanner c) (token c) (symtab c)
                      (return_type c) (off_counter c) (counters c)
                      (code c ++ [e])).

Definition get_return_type : M ValType := fun c => Ret (return_type c, c).
Definition set_return_type (t : ValType) : M unit :=
  fun c => Ret (tt, mkCompiler (scanner c) (token c) (symtab c) t
                      (off_counter c) (counters c) (code c)).
Definition get_counters : M Z := fun c => Ret (counters c, c).
Definition set_counters (n : Z) : M unit :=
  fun c => Ret (tt, mkCompiler (scanner c) (token c) (symtab c)
                      (return_type c) (off_counter c) n (code c)).
Definition get_off_counter : M Z := fun c => Ret (off_counter c, c).
Definition set_off_counter (n : Z) : M unit :=
  fun c => Ret (tt, mkCompiler (scanner c) (token c) (symtab c)
                      (return_type c) n (counters c) (code c)).
Definition get_position : M SourcePos :=
  fun c => Ret (Scanner.position (scanner c), c).

(** [token.type], [token.value], ... *)
Definition tok : M Token := fun c => Ret (token c, c).
Definition tok_type : M TokenType := fun c => Ret (type (token c), c).

(** [get_token(&token)] *)
Definition get_token : M unit :=
  fun c =>
    bind (Scanner.get_token (Scanner.token_fuel (scanner c)) (scanner c)
                            (token c))
         (fun r => Ret (tt, mkCompiler (snd r) (fst r) (symtab c)
                              (return_type c) (off_counter c) (counters c)
                              (code c))).

Definition lift_symtab {A : Type}
    (f : SymbolTable.SymTab -> Outcome (A * SymbolTable.SymTab)) : M A :=
  fun c =>
    bind (f (symtab c))
         (fun r => Ret (fst r, mkCompiler (scanner c) (token c) (snd r)
                                 (return_type c) (off_counter c) (counters c)
                                 (code c))).

Definition find_name (id : string) (prop : option IDprop)
  : M (bool * option IDprop) :=
  fun c => bind (SymbolTable.find_name (symtab c) id prop)
                (fun r => Ret (r, c)).
Definition insert_name (id : string) (prop : IDprop) : M bool :=
  lift_symtab (fun st => SymbolTable.insert_name st id prop).
Definition open_subroutine (id : string) (prop : IDprop) : M bool :=
  lift_symtab (fun st => SymbolTable.open_subroutine st id prop).
Definition close_subroutine : M unit :=
  lift_symtab (fun st => bind (SymbolTable.close_subroutine st)
                              (fun st => Ret (tt, st))).

(** [p->field] through a pointer that may hold nothing determinate *)
Definition deref {A : Type} (p : option IDprop) (field : IDprop -> A) : M A :=
  match p with
  | Some v => ret (field v)
  | None => undefined "read through an indeterminate pointer"
  end.

(** where a [ValType *type] argument points: at the global [return_type], or
    at a local of the caller, which no caller reads back *)
Inductive TypeRef := RefReturnType | RefLocal.

Definition assign_type (r : TypeRef) (t : ValType) : M unit :=
  match r with
  | RefReturnType => set_return_type t
  | RefLocal => ret tt
  end.

(** *** helper macros *)

Definition STARTS_FACTOR (t : TokenType) : bool :=
  eqb t TOKEN_ID || eqb t TOKEN_NUMBER || eqb t TOKEN_OPEN_PARENTHESIS
  || eqb t TOKEN_NOT || eqb t TOKEN_TRUE || eqb t TOKEN_FALSE.

Definition STARTS_EXPR (t : TokenType) : bool :=
  eqb t TOKEN_MINUS || STARTS_FACTOR t.

(** Modelled from the spec: [IS_ADDOP] is the range from [TOKEN_MINUS] to
    [TOKEN_PLUS] of the absent token.h; the additive operators are "+", "-"
    and "or". *)
Definition IS_ADDOP (t : TokenType) : bool :=
  eqb t TOKEN_MINUS || eqb t TOKEN_OR || eqb t TOKEN_PLUS.

Definition IS_MULOP (t : TokenType) : bool :=
  eqb t TOKEN_AND || eqb t TOKEN_DIVIDE || eqb t TOKEN_MULTIPLY
  || eqb t TOKEN_REMAINDER.

Definition IS_ORDOP (t : TokenType) : bool :=
  eqb t TOKEN_EQUAL || eqb t TOKEN_NOT_EQUAL.

Definition IS_RELOP (t : TokenType) : bool :=
  eqb t TOKEN_GREATER_EQUAL || eqb t TOKEN_GREATER_THAN
  || eqb t TOKEN_LESS_EQUAL || eqb t TOKEN_LESS_THAN.

Definition IS_TYPE_TOKEN (t : TokenType) : bool :=
  eqb t TOKEN_BOOLEAN || eqb t TOKEN_INTEGER.

(** *** helper routines *)

Definition expect (ty : TokenType) : M unit :=
  t <- tok_type ;;
  if eqb t ty then get_token else abort_compile.

Definition expect_id : M string :=
  t <- tok ;;
  if eqb (type t) TOKEN_ID then get_token ;; ret (lexeme t)
  else abort_compile.

Definition idprop (t : ValType) (offset nparams : Z) (params : list ValType)
  : IDprop := mkIDprop t offset nparams params.

Record Variable_s := variable {
  id : string;
  vtype : ValType;
  pos : SourcePos
}.

(** *** parser routines: expressions *)

Definition gen_relational (tempo : TokenType) : M unit :=
  match tempo with
  | TOKEN_EQUAL => emit (gen_cmp JVM_IF_ICMPEQ)
  | TOKEN_GREATER_EQUAL => emit (gen_cmp JVM_IF_ICMPGE)
  | TOKEN_GREATER_THAN => emit (gen_cmp JVM_IF_ICMPGT)
  | TOKEN_LESS_EQUAL => emit (gen_cmp JVM_IF_ICMPLE)
  | TOKEN_LESS_THAN => emit (gen_cmp JVM_IF_ICMPLT)
  | TOKEN_NOT_EQUAL => emit (gen_cmp JVM_IF_ICMPNE)
  | _ => ret tt
  end.

Definition gen_additive (store : Z) : M unit :=
  if store =? 1 then emit (gen_1 JVM_ISUB)
  else if store =? 2 then emit (gen_1 JVM_IADD)
  else if store =? 3 then emit (gen_1 JVM_IOR)
  else ret tt.

Definition gen_multiplicative (temp2 : Z) : M unit :=
  if temp2 =? 1 then emit (gen_1 JVM_IMUL)
  else if temp2 =? 2 then emit (gen_1 JVM_IDIV)
  else if temp2 =? 3 then emit (gen_1 JVM_IREM)
  else if temp2 =? 4 then emit (gen_1 JVM_IAND)
  else ret tt.

(** [parse_expr], [parse_simple], [parse_term] and [parse_factor], each
    [while] loop a function of its own; [store] and [temp2] keep their value
    from one round of a loop to the next *)
Fixpoint parse_expr (fuel : nat) (type : TypeRef) : M unit :=
  match fuel with
  | O => out_of_fuel
  | S fuel =>
      parse_simple fuel RefReturnType ;;
      t <- tok_type ;;
      if IS_RELOP t || IS_ORDOP t then
        let tempo := t in
        assign_type type TYPE_BOOLEAN ;;
        get_token ;;
        parse_simple fuel RefLocal ;;
        gen_relational tempo
      else
        rt <- get_return_type ;;
        assign_type type rt
  end
with parse_simple (fuel : nat) (type : TypeRef) : M unit :=
  match fuel with
  | O => out_of_fuel
  | S fuel =>
      t <- tok_type ;;
      let store1 := eqb t TOKEN_MINUS in
      (if store1 then expect TOKEN_MINUS else ret tt) ;;
      parse_term fuel RefReturnType ;;
      (if store1 then emit (gen_1 JVM_INEG) else ret tt) ;;
      rt <- get_return_type ;;
      assign_type type rt ;;
      parse_simple_loop fuel 0
  end
with parse_simple_loop (fuel : nat) (store : Z) : M unit :=
  match fuel with
  | O => out_of_fuel
  | S fuel =>
      t <- tok_type ;;
      if IS_ADDOP t then
        let store :=
          match t with
          | TOKEN_MINUS => 1
          | TOKEN_PLUS => 2
          | TOKEN_OR => 3
          | _ => store
          end in
        get_token ;;
        parse_term fuel RefReturnType ;;
        gen_additive store ;;
        parse_simple_loop fuel store
      else ret tt
  end
with parse_term (fuel : nat) (type : TypeRef) : M unit :=
  match fuel with
  | O => out_of_fuel
  | S fuel =>
      parse_factor fuel RefReturnType ;;
      rt <- get_return_type ;;
      assign_type type rt ;;
      parse_term_loop fuel 0
  end
with parse_term_loop (fuel : nat) (temp2 : Z) : M unit :=
  match fuel with
  | O => out_of_fuel
  | S fuel =>
      t <- tok_type ;;
      if IS_MULOP t then
        let temp2 :=
          match t with
          | TOKEN_MULTIPLY => 1
          | TOKEN_DIVIDE => 2
          | TOKEN_REMAINDER => 3
          | TOKEN_AND => 4
          | _ => temp2
          end in
        get_token ;;
        parse_factor fuel RefReturnType ;;
        gen_multiplicative temp2 ;;
        parse_term_loop fuel temp2
      else ret tt
  end
with parse_factor (fuel : nat) (type : TypeRef) : M unit :=
  match fuel with
  | O => out_of_fuel
  | S fuel =>
      t <- tok ;;
      match Tok.type t with
      | TOKEN_ID =>
          fname <- expect_id ;;
          r <- find_name fname None ;;
          let store := snd r in
          off <- deref store offset ;;
          emit (gen_2 JVM_ILOAD (CInt.to_int (off - 1))) ;;
          t <- tok_type ;;
          if eqb t TOKEN_OPEN_BRACKET then
            get_token ;;
            t <- tok ;;
            (* token.value, whatever the token is *)
            emit (gen_2 JVM_ALOAD (value t)) ;;
            parse_simple fuel RefReturnType ;;
            expect TOKEN_CLOSE_BRACKET ;;
            assign_type type TYPE_INTEGER
          else if eqb t TOKEN_OPEN_PARENTHESIS then
            get_token ;;
            t <- tok_type ;;
            (if STARTS_EXPR t then
               parse_expr fuel RefReturnType ;;
               parse_arguments fuel
             else ret tt) ;;
            expect TOKEN_CLOSE_PARENTHESIS
          else ret tt
      | TOKEN_NUMBER =>
          emit (gen_2 JVM_LDC (value t)) ;;
          get_token ;;
          set_return_type TYPE_INTEGER
      | TOKEN_OPEN_PARENTHESIS =>
          get_token ;;
          parse_expr fuel RefReturnType ;;
          rt <- get_return_type ;;
          assign_type type rt ;;
          expect TOKEN_CLOSE_PARENTHESIS
      | TOKEN_NOT =>
          get_token ;;
          parse_factor fuel RefReturnType ;;
          rt <- get_return_type ;;
          assign_type type rt
      | TOKEN_TRUE =>
          assign_type type TYPE_BOOLEAN ;;
          emit (gen_2 JVM_LDC 1) ;;
          get_token
      | TOKEN_FALSE =>
          assign_type type TYPE_BOOLEAN ;;
          emit (gen_2 JVM_LDC 0) ;;
          expect TOKEN_FALSE
      | _ => abort_compile
      end
  end
with parse_arguments (fuel : nat) : M unit :=
  (* while (token.type == TOKEN_COMMA) { get_token; parse_expr } *)
  match fuel with
  | O => out_of_fuel
  | S fuel =>
      t <- tok_type ;;
      if eqb t TOKEN_COMMA then
        get_token ;;
        parse_expr fuel RefReturnType ;;
        parse_arguments fuel
      else ret tt
  end.

(** *** parser routines: statements *)

Definition parse_type (type : TypeRef) : M unit :=
  t <- tok_type ;;
  if eqb t TOKEN_BOOLEAN then
    assign_type type TYPE_BOOLEAN ;;
    get_token ;;
    t <- tok_type ;;
    if eqb t TOKEN_ARRAY then get_token ;; emit (gen_newarray T_BOOLEAN)
    else ret tt
  else if eqb t TOKEN_INTEGER then
    assign_type type TYPE_INTEGER ;;
    expect TOKEN_INTEGER ;;
    t <- tok_type ;;
    if eqb t TOKEN_ARRAY then
      assign_type type TYPE_ARRAY ;;
      get_token ;;
      emit (gen_newarray T_INT)
    else ret tt
  else abort_compile.

(** the [while] loop of [parse_vardef] *)
Fixpoint parse_vardef_loop (fuel : nat) : M unit :=
  match fuel with
  | O => out_of_fuel
  | S fuel =>
      t <- tok_type ;;
      if eqb t TOKEN_COMMA then
        n <- get_off_counter ;;
        set_off_counter (CInt.to_unsigned (n + 1)) ;;
        get_token ;;
        vname <- expect_id ;;
        rt <- get_return_type ;;
        n <- get_off_counter ;;
        insert_name vname (idprop rt n 0 []) ;;
        parse_vardef_loop fuel
      else ret tt
  end.

Definition parse_vardef (fuel : nat) : M unit :=
  n <- get_off_counter ;;
  set_off_counter (CInt.to_unsigned (n + 1)) ;;
  parse_type RefReturnType ;;
  vname <- expect_id ;;
  rt <- get_return_type ;;
  n <- get_off_counter ;;
  insert_name vname (idprop rt n 0 []) ;;
  parse_vardef_loop fuel ;;
  expect TOKEN_SEMICOLON.

Definition parse_assign (fuel : nat) : M unit :=
  let tempo := 0 in
  aname <- expect_id ;;
  r <- find_name aname None ;;
  let temp := snd r in
  t <- tok_type ;;
  tempo <-
    (if eqb t TOKEN_OPEN_BRACKET then
       get_token ;;
       t <- tok ;;
       let tempo := if eqb (type t) TOKEN_INTEGER then value t else tempo in
       parse_simple fuel RefReturnType ;;
       expect TOKEN_CLOSE_BRACKET ;;
       ret tempo
     else ret tempo) ;;
  expect TOKEN_GETS ;;
  t <- tok_type ;;
  if STARTS_EXPR t then
    parse_expr fuel RefReturnType ;;
    n <- get_counters ;;
    emit (gen_2 JVM_ISTORE n) ;;
    ty <- deref temp ValTypes.type ;;
    (if ValType_eqb ty TYPE_ARRAY then emit (gen_2 JVM_ASTORE tempo)
     else ret tt) ;;
    n <- get_counters ;;
    set_counters (CInt.to_int (n + 1))
  else if eqb t TOKEN_ARRAY then
    expect TOKEN_ARRAY ;;
    parse_simple fuel RefReturnType
  else abort_compile.

Definition parse_call (fuel : nat) : M unit :=
  expect TOKEN_CALL ;;
  cname <- expect_id ;;
  r <- find_name cname None ;;
  let k := snd r in
  emit (gen_call cname k) ;;
  ty <- deref k ValTypes.type ;;
  (if negb (IS_PROCEDURE ty) then abort_compile else ret tt) ;;
  expect TOKEN_OPEN_PARENTHESIS ;;
  t <- tok_type ;;
  (if STARTS_EXPR t then
     parse_expr fuel RefReturnType ;;
     parse_arguments fuel
   else ret tt) ;;
  expect TOKEN_CLOSE_PARENTHESIS.

Definition parse_input (fuel : nat) : M unit :=
  expect TOKEN_GET ;;
  _ <- expect_id ;;
  t <- tok_type ;;
  if eqb t TOKEN_OPEN_BRACKET then
    get_token ;;
    parse_simple fuel RefReturnType ;;
    expect TOKEN_CLOSE_BRACKET
  else ret tt.

Definition parse_leave (fuel : nat) : M unit :=
  expect TOKEN_LEAVE ;;
  t <- tok_type ;;
  if STARTS_EXPR t then parse_expr fuel RefReturnType else ret tt.

(** the two [while] loops of [parse_output] have the same body *)
Fixpoint parse_output_loop (fuel : nat) : M unit :=
  match fuel with
  | O => out_of_fuel
  | S fuel =>
      t <- tok_type ;;
      if eqb t TOKEN_CONCATENATE then
        get_token ;;
        t <- tok ;;
        (if eqb (type t) TOKEN_STRING then
           emit (gen_print_string (str t)) ;;
           get_token
         else if STARTS_EXPR (type t) then
           parse_expr fuel RefReturnType ;;
           rt <- get_return_type ;;
           emit (gen_print rt)
         else abort_compile) ;;
        parse_output_loop fuel
      else ret tt
  end.

Definition parse_output (fuel : nat) : M unit :=
  expect TOKEN_PUT ;;
  t <- tok ;;
  if eqb (type t) TOKEN_STRING then
    emit (gen_print_string (str t)) ;;
    get_token ;;
    parse_output_loop fuel
  else if STARTS_EXPR (type t) then
    parse_expr fuel RefReturnType ;;
    rt <- get_return_type ;;
    emit (gen_print rt) ;;
    parse_output_loop fuel
  else abort_compile.

(** [parse_statements], [parse_statement], [parse_if] and [parse_while],
    with their [while] loops *)
Fixpoint parse_statements (fuel : nat) : M unit :=
  match fuel with
  | O => out_of_fuel
  | S fuel =>
      t <- tok_type ;;
      if eqb t TOKEN_RELAX then expect TOKEN_RELAX
      else
        parse_statement fuel ;;
        parse_statements_loop fuel
  end
with parse_statements_loop (fuel : nat) : M unit :=
  match fuel with
  | O => out_of_fuel
  | S fuel =>
      t <- tok_type ;;
      if eqb t TOKEN_SEMICOLON then
        get_token ;;
        parse_statement fuel ;;
        parse_statements_loop fuel
      else ret tt
  end
with parse_statement (fuel : nat) : M unit :=
  match fuel with
  | O => out_of_fuel
  | S fuel =>
      t <- tok_type ;;
      match t with
      | TOKEN_ID => parse_assign fuel
      | TOKEN_CALL => parse_call fuel
      | TOKEN_IF => parse_if fuel
      | TOKEN_GET => parse_input fuel
      | TOKEN_LEAVE => parse_leave fuel
      | TOKEN_PUT => parse_output fuel
      | TOKEN_WHILE => parse_while fuel
      | _ => abort_compile
      end
  end
with parse_if (fuel : nat) : M unit :=
  match fuel with
  | O => out_of_fuel
  | S fuel =>
      expect TOKEN_IF ;;
      parse_expr fuel RefReturnType ;;
      expect TOKEN_THEN ;;
      parse_statements fuel ;;
      parse_elsif_loop fuel ;;
      t <- tok_type ;;
      (if eqb t TOKEN_ELSE then get_token ;; parse_statements fuel
       else ret tt) ;;
      expect TOKEN_END
  end
with parse_while (fuel : nat) : M unit :=
  match fuel with
  | O => out_of_fuel
  | S fuel =>
      expect TOKEN_WHILE ;;
      parse_expr fuel RefLocal ;;
      expect TOKEN_DO ;;
      parse_statements fuel ;;
      expect TOKEN_END
  end
with parse_elsif_loop (fuel : nat) : M unit :=
  match fuel with
  | O => out_of_fuel
  | S fuel =>
      t <- tok_type ;;
      if eqb t TOKEN_ELSIF then
        get_token ;;
        parse_expr fuel RefReturnType ;;
        expect TOKEN_THEN ;;
        parse_statements fuel ;;
        parse_elsif_loop fuel
      else ret tt
  end.

(** *** parser routines: bodies, functions, the source *)

(** the [while] loop of [parse_body] *)
Fixpoint parse_vardefs (fuel : nat) : M unit :=
  match fuel with
  | O => out_of_fuel
  | S fuel =>
      t <- tok_type ;;
      if IS_TYPE_TOKEN t then parse_vardef fuel ;; parse_vardefs fuel
      else ret tt
  end.

Definition parse_body (fuel : nat) : M unit :=
  expect TOKEN_BEGIN ;;
  parse_vardefs fuel ;;
  parse_statements fuel ;;
  expect TOKEN_END.

(** [while (old->next != NULL) old = old->next;] on the list that starts at
    the node [old] points to *)
Definition advance_to_last (old : list Variable_s) : list Variable_s :=
  match old with
  | [] => []
  | v :: rest => [last rest v]
  end.

(** the [while] loop over the parameters of [parse_funcdef]; [old] is left
    pointing at the node before the one that was linked last *)
Fixpoint parse_params_loop (fuel : nat) (counter : Z)
    (old : list Variable_s) : M (Z * list Variable_s) :=
  match fuel with
  | O => out_of_fuel
  | S fuel =>
      t <- tok_type ;;
      if eqb t TOKEN_COMMA then
        get_token ;;
        parse_type RefReturnType ;;
        fname <- expect_id ;;
        let counter := CInt.to_int (counter + 1) in
        rt <- get_return_type ;;
        p <- get_position ;;
        let newer := variable fname rt p in
        let old := advance_to_last old ++ [newer] in
        parse_params_loop fuel counter old
      else ret (counter, old)
  end.

(** the [while (token.type == TOKEN_TO)] loop of [parse_funcdef] *)
Fixpoint parse_to_loop (fuel : nat) : M unit :=
  match fuel with
  | O => out_of_fuel
  | S fuel =>
      t <- tok_type ;;
      if eqb t TOKEN_TO then
        get_token ;;
        parse_type RefReturnType ;;
        parse_to_loop fuel
      else ret tt
  end.

(** [parse_funcdef]; [params] holds the types copied from [old] on *)
Definition parse_funcdef (fuel : nat) : M unit :=
  let counter := 0 in
  expect TOKEN_FUNCTION ;;
  fname <- expect_id ;;
  let save_fname := fname in
  expect TOKEN_OPEN_PARENTHESIS ;;
  t <- tok_type ;;
  r <-
    (if IS_TYPE_TOKEN t then
       let counter := counter + 1 in
       parse_type RefReturnType ;;
       fname <- expect_id ;;
       rt <- get_return_type ;;
       p <- get_position ;;
       let old := [variable fname rt p] in
       parse_params_loop fuel counter old
     else ret (counter, [])) ;;
  let counter := fst r in
  let params := map vtype (snd r) in
  expect TOKEN_CLOSE_PARENTHESIS ;;
  parse_to_loop fuel ;;
  let r := idprop TYPE_CALLABLE 1 counter params in
  _ <- open_subroutine save_fname r ;;
  emit (init_subroutine_codegen save_fname r) ;;
  parse_body fuel ;;
  close_subroutine ;;
  emit (close_subroutine_codegen counter).

(** the [while] loop of [parse_source] *)
Fixpoint parse_funcdefs (fuel : nat) : M unit :=
  match fuel with
  | O => out_of_fuel
  | S fuel =>
      t <- tok_type ;;
      if eqb t TOKEN_FUNCTION then parse_funcdef fuel ;; parse_funcdefs fuel
      else ret tt
  end.

Definition parse_source (fuel : nat) : M unit :=
  let main_name := "main" in
  expect TOKEN_SOURCE ;;
  class_name <- expect_id ;;
  emit init_code_generation ;;
  emit (set_class_name class_name) ;;
  parse_funcdefs fuel ;;
  let p := idprop TYPE_NONE 0 1 [] in
  emit (init_subroutine_codegen main_name p) ;;
  parse_body fuel ;;
  emit (gen_1 JVM_RETURN) ;;
  n <- get_counters ;;
  emit (close_subroutine_codegen (n + 1)).

(** the depth the routines above can reach on a source of this many bytes *)
Definition parse_fuel (text : list Z) : nat := 16 + 8 * List.length text.

Definition EXIT_SUCCESS : Z := 0.

(** the globals as the program starts: zero, and [token.type] the first
    token type *)
Definition initial (in_file : list Z) : Outcome Compiler :=
  bind SymbolTable.init_symbol_table
       (fun st => Ret (mkCompiler (Scanner.init_scanner in_file)
                                  (mkToken TOKEN_EOF 0 "" "") st
                                  TYPE_NONE 0 0 [])).

(** [main] for a command line with one file name that can be opened and
    holds [text], with JASMIN_JAR set.  [make_code_file] and [assemble]
    belong to the emitter and to the external assembler; they are taken to
    return.  The result is the value [main] returns. *)
Definition main (text : list Z) : Outcome (Z * Compiler) :=
  bind (initial text)
       ((get_token ;;
         parse_source (parse_fuel text) ;;
         ret EXIT_SUCCESS)).

End Parser.

(* ========================================================================= *)
(** * Definitions used to state the properties *)

Module Spec.

Import HashTable SymbolTable.

(** the sizes [getsize] can return from the initial index on *)
Definition sizes_from (i : Z) (n : nat) : list (Outcome Z) :=
  map (fun j =>
         bind (@getsize string IDprop
                 (mkHashTab [] 0 0 load_factor (i + Z.of_nat j)
                            shift_hash key_strcmp))
              (fun r => Ret (fst r)))
      (seq 0 n).

Definition prime_size (o : Outcome Z) : bool :=
  match o with
  | Ret n => (31 <=? n) && (n <=? CInt.INT_MAX)
  | _ => false
  end.


(** *** Tables of the symbol table *)

(** every entry of bucket [i] hashes to [i]; [placed_from] counts the
    buckets from index [o] *)
Fixpoint placed_from (o : nat) (t : list (list (HTentry string IDprop))) (size : Z)
  : bool :=
  match t with
  | [] => true
  | c :: rest =>
      forallb (fun e => CInt.to_int (shift_hash (key e) size) =? Z.of_nat o) c
      && placed_from (S o) rest size
  end.

Definition placed (t : list (list (HTentry string IDprop))) (size : Z) : bool :=
  placed_from 0 t size.

(** what [ht_init] sets up and [ht_insert] maintains for a table of the
    symbol table *)
Record wf (ht : Table) : Prop := mkWf {
  wf_hash : hash ht = shift_hash;
  wf_cmp : cmp ht = key_strcmp;
  wf_length : Z.of_nat (List.length (HashTable.table ht)) = size ht;
  wf_size : 31 <= size ht <= CInt.INT_MAX;
  wf_idx : INITIAL_DELTA_INDEX <= idx ht;
  wf_placed : placed (HashTable.table ht) (size ht) = true
}.

(** the entry a scope holds for [id]: the first one, should there be more *)
Definition lookup (id : string) (ht : Table) : option IDprop :=
  chain_search key_strcmp id (ht_entries ht).

(** a current scope with nothing in it, and a saved outer scope that holds
    the callable [f] and the variable [v] *)
Definition callable_prop : IDprop := mkIDprop TYPE_CALLABLE 1 0 [].
Definition variable_prop : IDprop := mkIDprop TYPE_INTEGER 1 0 [].

Definition empty_table : Table :=
  mkHashTab (repeat [] 31) 31 0 load_factor 5 shift_hash key_strcmp.

Definition outer_table : Table :=
  mkHashTab (repeat [] 12 ++ [[mkEntry "f" callable_prop]] ++
             repeat [] 15 ++ [[mkEntry "v" variable_prop]] ++ repeat [] 2)
            31 2 load_factor 5 shift_hash key_strcmp.

Definition nested_state : SymTab :=
  mkSymTab (Some empty_table) (Some outer_table) 1.


(** [find_name] finds the name: the current scope holds it, or it does not
    and the saved outer scope holds it as a callable *)
Definition visible (id : string) (st : SymTab) : bool :=
  match SymbolTable.table st with
  | None => false
  | Some inner =>
      match lookup id inner with
      | Some _ => true
      | None =>
          match saved_table st with
          | Some outer =>
              match lookup id outer with
              | Some p => IS_CALLABLE_TYPE (type p)
              | None => false
              end
          | None => false
          end
      end
  end.


(** *** Source texts *)

(** a value [fgetc] can deliver for a byte of the file *)
Definition is_byte (c : Z) : Prop := 0 <= c <= 255.

(** the scanner has [text] ahead of it: its first byte is in [ch], the rest
    is still in the file; past the last byte [ch] is [EOF] *)
Definition reads (s : Scanner.State) (text : list Z) : Prop :=
  match text with
  | [] => Scanner.ch s = Scanner.EOF /\ Scanner.src_file s = []
  | c :: rest => Scanner.ch s = c /\ Scanner.src_file s = rest
  end.

(** [text] does not go on with a character for which [p] holds *)
Definition stops (p : Z -> bool) (text : list Z) : Prop :=
  match text with
  | [] => True
  | c :: _ => p c = false
  end.

(** the number a sequence of digit characters denotes in base ten *)
Definition decimal_from (acc : Z) (digits : list Z) : Z :=
  fold_left (fun n c => 10 * n + (c - 48)) digits acc.

Definition decimal (digits : list Z) : Z := decimal_from 0 digits.


(** the token variable before the first call of [get_token] *)
Definition no_token : Tok.Token := Tok.mkToken Tok.TOKEN_EOF 0 "" "".

(** the scanner at the start of a source text *)
Definition scanner_on (text : string) : Scanner.State :=
  Scanner.init_scanner (Scanner.file_of_string text).


(** the word in entry [i] of the table of reserved words *)
Definition nth_word (i : Z) : string :=
  Scanner.word (nth (Z.to_nat i) Scanner.reserved
                    (Scanner.mkReserved "" Tok.TOKEN_EOF)).

(** the table of reserved words grows strictly from each entry to those
    after it *)
Definition reserved_sorted : bool :=
  forallb
    (fun i =>
       forallb
         (fun j =>
            if (i <? j)%nat then
              SymbolTable.strcmp (nth_word (Z.of_nat i)) (nth_word (Z.of_nat j))
              <? 0
            else true)
         (seq 0 (List.length Scanner.reserved)))
    (seq 0 (List.length Scanner.reserved)).


(** *** String literals *)

(** what stands between the quotes of a string literal: characters that
    stand for themselves, and escape sequences, a backslash and a letter *)
Inductive Item :=
| Plain (c : ascii)
| Escape (c : ascii).

Definition backslash : ascii := "092"%char.

Definition raw_item (i : Item) : list ascii :=
  match i with
  | Plain c => [c]
  | Escape c => [backslash; c]
  end.

(** the characters of the literal as the source has them *)
Definition raw (body : list Item) : list ascii := flat_map raw_item body.

(** the character an escape sequence denotes *)
Definition denoted (c : ascii) : ascii :=
  if (Scanner.C c =? Scanner.C "n") then "010"%char
  else if (Scanner.C c =? Scanner.C "t") then "009"%char
  else c.

Definition decode_item (i : Item) : ascii :=
  match i with
  | Plain c => c
  | Escape c => denoted c
  end.

(** the characters the literal denotes *)
Definition decoded (body : list Item) : list ascii := map decode_item body.

(** a printable character other than the quote and the backslash; one of the
    four escape letters *)
Definition item_ok (i : Item) : Prop :=
  match i with
  | Plain c =>
      Scanner.isprint (Scanner.C c) = true /\
      Scanner.C c <> Scanner.DQUOTE /\ Scanner.C c <> Scanner.BACKSLASH
  | Escape c => Scanner.is_escape (Scanner.C c) = true
  end.

(** [text] goes on with a printable character *)
Definition printable_next (text : list Z) : Prop :=
  match text with
  | [] => False
  | c :: _ => Scanner.isprint c = true
  end.

(** the copy of [body] stays inside the string buffer, which holds [used]
    characters in [nstring] bytes while the counter of the loop is [count]:
    every character goes in with room left for the terminator, and the
    buffer doubles when the counter passes 1023 *)
Fixpoint fits (count nstring used : Z) (body : list Item) : bool :=
  match body with
  | [] => true
  | i :: rest =>
      let used := used + Z.of_nat (List.length (raw_item i)) in
      (used <? nstring)
      && (if count + 1 >? 1023 then fits 0 (nstring * 2) used rest
          else fits (count + 1) nstring used rest)
  end.


(** *** Positions and comments *)

(** the position of the character after [c], for [c] at position [p] *)
Definition next_pos (p : SourcePos) (c : Z) : SourcePos :=
  if c =? Scanner.NEWLINE then mkPos (line p + 1) 1
  else mkPos (line p) (col p + 1).

(** the scanner is on a character at position [p] *)
Definition coherent (s : Scanner.State) (p : SourcePos) : Prop :=
  Scanner.column_number s = col p /\
  line (Scanner.position s) = line p /\
  Scanner.last_read s
  = (if Scanner.ch s =? Scanner.NEWLINE then Scanner.NEWLINE else 0).

(** the comments that are open, innermost first, as the positions of their
    opening braces, while [text] is read from position [p] on: the opening
    brace of the innermost comment still open at the end of the text, or
    nothing when the outermost comment is closed before the end *)
Fixpoint unclosed (stack : list SourcePos) (p : SourcePos) (text : list Z)
  : option SourcePos :=
  match text with
  | [] => hd_error stack
  | c :: rest =>
      match stack with
      | [] => None
      | _ :: below =>
          if c =? Scanner.C "{" then unclosed (p :: stack) (next_pos p c) rest
          else if c =? Scanner.C "}" then unclosed below (next_pos p c) rest
          else unclosed stack (next_pos p c) rest
      end
  end.

(** no closing brace of [text] has an opening brace right behind it *)
Fixpoint separated (text : list Z) : bool :=
  match text with
  | [] => true
  | c :: rest =>
      match rest with
      | [] => true
      | d :: _ =>
          negb ((c =? Scanner.C "}") && (d =? Scanner.C "{"))
          && separated rest
      end
  end.

(** how one level of [skip_comment] ends on [text] read from [p] on, for a
    comment opened at [q]: with the error at the brace the text leaves open,
    or behind the closing brace of the comment *)
Definition level_ends (o : Outcome Scanner.State) (q p : SourcePos)
    (text : list Z) : Prop :=
  (exists q',
     o = Fatal q' "comment not closed" [] /\
     forall below, unclosed (q :: below) p text = Some q')
  \/
  (exists s' p' text',
     o = Ret s' /\ reads s' text' /\ (text' <> [] -> coherent s' p') /\
     (List.length text' < List.length text)%nat /\
     Forall is_byte text' /\ separated text' = true /\
     stops (fun c => c =? Scanner.C "{") text' /\
     forall below, unclosed (q :: below) p text = unclosed below p' text').


(** the loop of [skip_comment] ends a level as [level_ends] says, on every
    text of at most [n] characters *)
Definition loop_levels (n : nat) : Prop :=
  forall text, (List.length text <= n)%nat ->
  forall (fuel : nat) (s : Scanner.State) (p q : SourcePos),
    (2 * List.length text + 1 <= fuel)%nat ->
    reads s text -> (text <> [] -> coherent s p) ->
    Forall is_byte text -> separated text = true ->
    level_ends (Scanner.skip_comment_loop fuel (col q) (line q) s) q p text.


(** *** Runs of the compiler *)

(** what a run of [main] shows: the value it returns and the calls it made
    to the emitter *)
Definition verdict (o : Outcome (Z * Parser.Compiler))
  : Outcome (Z * list Parser.Emit) :=
  bind o (fun r => Ret (fst r, Parser.code (snd r))).

(** the source that has no [source] header *)
Definition headless_source : string := "begin".

(** the source that assigns a number to a boolean variable *)
Definition ill_typed_source : string := "source P begin boolean b; b := 1 end".


(** *** Insertions and searches *)

(** the test of [ht_insert] on the load comes out false: with the entry
    counted the load is within the factor, and [rehash] is not called (the
    quotient is exact here, where the code rounds it to a [float]) *)
Definition within_load (K V : Type) (ht : HashTab K V) : bool :=
  Qle_bool (inject_Z (CInt.to_unsigned (num_entries ht + 1))
            / inject_Z (size ht))
           (max_loadfactor ht).

(** the index the hash function gives for [k] is one of the bucket array *)
Definition hashes_inside (K V : Type) (ht : HashTab K V) (k : K) : Prop :=
  0 <= CInt.to_int (hash ht k (size ht))
    < Z.of_nat (List.length (HashTable.table ht)).

(** the entries of [l] whose key compares equal to [id], in the order of [l] *)
Definition matching (id : string) (l : list (HTentry string IDprop))
  : list (HTentry string IDprop) :=
  filter (fun e => key_strcmp id (key e) =? 0) l.

(** [num_entries], an [unsigned int], counts the entries of the table *)
Definition counted (ht : Table) : Prop :=
  num_entries ht = CInt.to_unsigned (Z.of_nat (List.length (ht_entries ht))).

(** a table with the callable [f] in it, and room for more *)
Definition one_entry_table : Table :=
  mkHashTab (repeat [] 12 ++ [[mkEntry "f" callable_prop]] ++ repeat [] 18)
            31 1 load_factor 5 shift_hash key_strcmp.

(** *** Calls of the interface of the symbol table *)

Inductive Call :=
| CallOpen (id : string) (prop : IDprop)
| CallClose
| CallInsert (id : string) (prop : IDprop)
| CallFind (id : string).

(** one call, made in the state [st] of the unit *)
Definition call (st : SymTab) (c : Call) : Outcome SymTab :=
  match c with
  | CallOpen id prop => r <- open_subroutine st id prop ;; Ret (snd r)
  | CallClose => close_subroutine st
  | CallInsert id prop => r <- insert_name st id prop ;; Ret (snd r)
  | CallFind id => _ <- find_name st id None ;; Ret st
  end.

(** the calls of [cs], one after the other *)
Fixpoint calls (st : SymTab) (cs : list Call) : Outcome SymTab :=
  match cs with
  | [] => Ret st
  | c :: rest => st <- call st c ;; calls st rest
  end.

(** the calls of [cs] after [init_symbol_table] *)
Definition session (cs : list Call) : Outcome SymTab :=
  st <- init_symbol_table ;; calls st cs.

(** the unit after [init_symbol_table] and [open_subroutine] for the
    callable [f] *)
Definition opened_state : SymTab := mkSymTab (Some one_entry_table) None 1.

(** 23 names, as many as a table of 31 buckets takes within its load factor,
    and the calls that declare them as variables *)
Definition crowd : list string :=
  ["a"; "b"; "c"; "d"; "e"; "f"; "g"; "h"; "i"; "j"; "k"; "l";
   "m"; "n"; "o"; "p"; "q"; "r"; "s"; "t"; "u"; "v"; "w"].

Definition declare_crowd : list Call :=
  map (fun id => CallInsert id variable_prop) crowd.

(** the buckets of the table after [init_symbol_table] and these calls *)
Definition crowded_buckets : list (list (HTentry string IDprop)) := Eval cbv in
  match session declare_crowd with
  | Ret (mkSymTab (Some t) _ _) => HashTable.table t
  | _ => []
  end.

(** the table and the unit after these calls *)
Definition crowded_table : Table :=
  mkHashTab crowded_buckets 31 23 load_factor 5 shift_hash key_strcmp.

Definition crowded_state : SymTab := mkSymTab (Some crowded_table) None 1.

(** the properties [insert_name] hands to [ht_insert] for a name that
    [find_name] did not find: those of the caller, unless the search of the
    saved table has overwritten the parameter *)
Definition inserted (st : SymTab) (id : string) (prop : IDprop) : IDprop :=
  match saved_table st with
  | Some outer =>
      match lookup id outer with
      | Some p => p
      | None => prop
      end
  | None => prop
  end.

(** *** The scanner along a text *)

(** the position of the character behind [pre], in a text whose first
    character is at [p] *)
Definition pos_after (p : SourcePos) (pre : list Z) : SourcePos :=
  fold_left next_pos pre p.

(** the scanner after [n] calls of [next_char] *)
Definition advance (n : nat) (s : Scanner.State) : Scanner.State :=
  Nat.iter n Scanner.next_char s.

(** 73 characters that can go on a word *)
Definition long_tail : string :=
  "hile_this_name_goes_on_and_on_for_more_than_seventy_two_characters_in_all".

(** the characters that are fatal in [get_token] by a case of their own *)
Definition illegal (c : Z) : bool :=
  existsb (Z.eqb c)
    [Scanner.C "}"; Scanner.C "!"; Scanner.C "#"; Scanner.C "$";
     Scanner.C "%"; Scanner.C "&"; Scanner.C "@"; Scanner.C "|";
     Scanner.C "~"; Scanner.C "`"].

(** the characters [get_token] does something for: white space, the
    characters of words and numbers, and those the [switch] has a case for *)
Definition has_case (c : Z) : bool :=
  Scanner.isspace c || Scanner.isalpha c || (c =? Scanner.C "_")
  || Scanner.isdigit c
  || existsb (Z.eqb c)
       [Scanner.DQUOTE; Scanner.C "{"; Scanner.C "="; Scanner.C ">";
        Scanner.C "<"; Scanner.C "-"; Scanner.C "+"; Scanner.C "/";
        Scanner.C "*"; Scanner.C "]"; Scanner.C ")"; Scanner.C ",";
        Scanner.C "."; Scanner.C ":"; Scanner.C "["; Scanner.C "(";
        Scanner.C ";"]
  || illegal c.

(** what is left of [text] behind the brace that closes the comment [text]
    starts in, when [depth] comments are open inside that one *)
Fixpoint comment_rest (depth : nat) (text : list Z) : option (list Z) :=
  match text with
  | [] => None
  | c :: rest =>
      if c =? Scanner.C "}" then
        match depth with
        | O => Some rest
        | S d => comment_rest d rest
        end
      else if c =? Scanner.C "{" then comment_rest (S depth) rest
      else comment_rest depth rest
  end.

(** *** What the parser keeps *)

(** a routine keeps [I]: when [I] holds of the globals before a call that
    returns, it holds of them after *)
Definition keeps (I : Parser.Compiler -> Prop) (A : Type) (m : Parser.M A)
  : Prop :=
  forall c a c', I c -> m c = Ret (a, c') -> I c'.

(** [I] does not depend on the scanner, the token, the return type and the
    two counters, and it survives a call of the emitter and the calls of
    the symbol table that change its state *)
Record stable (I : Parser.Compiler -> Prop) : Prop := mkStable {
  stable_scanner : forall c sc tk,
    I c -> I (Parser.mkCompiler sc tk (Parser.symtab c) (Parser.return_type c)
                (Parser.off_counter c) (Parser.counters c) (Parser.code c));
  stable_return_type : forall c t,
    I c -> I (Parser.mkCompiler (Parser.scanner c) (Parser.token c)
                (Parser.symtab c) t (Parser.off_counter c)
                (Parser.counters c) (Parser.code c));
  stable_off_counter : forall c n,
    I c -> I (Parser.mkCompiler (Parser.scanner c) (Parser.token c)
                (Parser.symtab c) (Parser.return_type c) n
                (Parser.counters c) (Parser.code c));
  stable_counters : forall c n,
    I c -> I (Parser.mkCompiler (Parser.scanner c) (Parser.token c)
                (Parser.symtab c) (Parser.return_type c)
                (Parser.off_counter c) n (Parser.code c));
  stable_emit : forall c e,
    I c -> I (Parser.mkCompiler (Parser.scanner c) (Parser.token c)
                (Parser.symtab c) (Parser.return_type c)
                (Parser.off_counter c) (Parser.counters c)
                (Parser.code c ++ [e]));
  stable_insert_name : forall id p, keeps I (Parser.insert_name id p);
  stable_open_subroutine : forall id p,
    keeps I (Parser.open_subroutine id p);
  stable_close_subroutine : keeps I Parser.close_subroutine
}.

(** no table is saved, and the offset is the one [init_symbol_table] set *)
Definition flat (c : Parser.Compiler) : Prop :=
  saved_table (Parser.symtab c) = None /\
  curr_offset (Parser.symtab c) = 1.

(** the globals before the first token of [text] is read *)
Definition ready (text : string) : Outcome Parser.Compiler :=
  Parser.initial (Scanner.file_of_string text).

(** a routine leads from [I] to [Q]: when [I] holds of the globals before a
    call that returns, [Q] holds of them after *)
Definition leads (I Q : Parser.Compiler -> Prop) (A : Type) (m : Parser.M A)
  : Prop :=
  forall c a c', I c -> m c = Ret (a, c') -> Q c'.

(** globals to fall back on where a run did not return *)
Definition blank : Parser.Compiler :=
  Parser.mkCompiler (Scanner.init_scanner []) no_token (mkSymTab None None 0)
                    TYPE_NONE 0 0 [].

Definition result_or (A : Type) (d : A) (o : Outcome A) : A :=
  match o with
  | Ret a => a
  | _ => d
  end.

(** a function without parameters and with nothing to do *)
Definition funcdef_source : string := "function f() begin relax end".

(** the globals with the first token of [funcdef_source] read, and after
    [parse_funcdef] has run on it *)
Definition funcdef_start : Parser.Compiler :=
  result_or blank
    (bind (ready funcdef_source)
          (fun c => bind (Parser.get_token c) (fun r => Ret (snd r)))).

Definition funcdef_end : Parser.Compiler :=
  snd (result_or (tt, blank) (Parser.parse_funcdef 40 funcdef_start)).

(** the globals when [main] returns on [text] *)
Definition compiled (text : string) : Parser.Compiler :=
  snd (result_or (0, blank) (Parser.main (Scanner.file_of_string text))).

(** the calls of [l] are the first ones made to the emitter *)
Definition starts (l : list Parser.Emit) (c : Parser.Compiler) : Prop :=
  exists l', Parser.code c = l ++ l'.

(** a source with one function and a body that does nothing *)
Definition framed_source : string :=
  "source Q function f() begin relax end begin relax end".

(** the first two tokens of a source text, as [get_token] delivers them
    from the start of the file *)
Definition first_tokens (text : list Z) : Outcome (Tok.Token * Tok.Token) :=
  let s := Scanner.init_scanner text in
  r1 <- Scanner.get_token (Scanner.token_fuel s) s no_token ;;
  r2 <- Scanner.get_token (Scanner.token_fuel (snd r1)) (snd r1) (fst r1) ;;
  Ret (fst r1, fst r2).

(** the run of the routine [m] from the globals [c] returns with the globals
    [c'], and the calls it has made to the emitter are those of [l] *)
Definition emits (m : Parser.M unit) (c c' : Parser.Compiler)
    (l : list Parser.Emit) : Prop :=
  m c = Ret (tt, c') /\ Parser.code c' = Parser.code c ++ l.

(** the run returned *)
Definition returns (A : Type) (o : Outcome A) : bool :=
  match o with
  | Ret _ => true
  | _ => false
  end.

End Spec.

(* ========================================================================= *)
(** * Properties *)

Unset Implicit Arguments.

(** ** The outcome monad *)

Lemma bind_Ret {A B : Type} (m : Outcome A) (k : A -> Outcome B) (b : B) :
  bind m k = Ret b -> exists a, m = Ret a /\ k a = Ret b.
Proof.
  destruct m; simpl; intros H; try discriminate.
  eexists; split; [reflexivity | exact H].
Qed.

(** ** Machine integers *)

Lemma to_unsigned_small (x : Z) :
  0 <= x < CInt.UINT_MOD -> CInt.to_unsigned x = x.
Proof. intros H. unfold CInt.to_unsigned. now apply Z.mod_small. Qed.

Lemma to_int_small (x : Z) : 0 <= x <= CInt.INT_MAX -> CInt.to_int x = x.
Proof.
  intros H. unfold CInt.to_int.
  rewrite Z.mod_small by (unfold CInt.UINT_MOD, CInt.INT_MAX in *; lia).
  destruct (Z.leb_spec x CInt.INT_MAX); [reflexivity | lia].
Qed.

Lemma to_unsigned_range (x : Z) : 0 <= CInt.to_unsigned x < CInt.UINT_MOD.
Proof. unfold CInt.to_unsigned. apply Z.mod_pos_bound. reflexivity. Qed.

(** ** The hash function and the sizes of the table *)

Section HashBounds.

Import HashTable SymbolTable Spec.

(** [shift_hash] reduces modulo [size - 1] *)
Lemma shift_hash_bound (key : string) (size : Z) :
  2 <= size < CInt.UINT_MOD ->
  0 <= shift_hash key size < size - 1.
Proof.
  intros H. unfold shift_hash.
  rewrite (to_unsigned_small (size - 1)) by lia.
  apply Z.mod_pos_bound. lia.
Qed.

Lemma getsize_depends_on_idx (K V : Type) (ht : HashTab K V) :
  bind (getsize ht) (fun r => Ret (fst r)) =
  bind (@getsize string IDprop
          (mkHashTab [] 0 0 load_factor (idx ht) shift_hash key_strcmp))
       (fun r => Ret (fst r)).
Proof.
  unfold getsize. simpl.
  destruct (nth_error delta (Z.to_nat (idx ht + 1))); reflexivity.
Qed.

Lemma sizes_are_primes_below_powers :
  forallb prime_size (sizes_from INITIAL_DELTA_INDEX 27) = true.
Proof. vm_compute. reflexivity. Qed.

Lemma getsize_idx_range (K V : Type) (ht ht' : HashTab K V) (n : Z) :
  INITIAL_DELTA_INDEX <= idx ht -> getsize ht = Ret (n, ht') ->
  idx ht <= 30 /\ idx ht' = idx ht + 1.
Proof.
  unfold getsize, INITIAL_DELTA_INDEX. intros Hi H.
  destruct (nth_error delta (Z.to_nat (idx ht + 1))) eqn:E; [| discriminate].
  injection H as _ H. subst ht'. simpl. split; [| reflexivity].
  assert (Hlt : (Z.to_nat (idx ht + 1) < List.length delta)%nat).
  { apply nth_error_Some. congruence. }
  simpl in Hlt. lia.
Qed.

Lemma getsize_range (K V : Type) (ht ht' : HashTab K V) (n : Z) :
  INITIAL_DELTA_INDEX <= idx ht -> getsize ht = Ret (n, ht') ->
  31 <= n <= CInt.INT_MAX.
Proof.
  intros Hi H.
  destruct (getsize_idx_range K V ht ht' n Hi H) as [Hle _].
  pose proof (getsize_depends_on_idx K V ht) as Hd. rewrite H in Hd. simpl in Hd.
  pose proof sizes_are_primes_below_powers as Hall.
  rewrite forallb_forall in Hall.
  specialize (Hall (Ret n)).
  assert (Hin : In (Ret n) (sizes_from INITIAL_DELTA_INDEX 27)).
  { unfold sizes_from. apply in_map_iff.
    exists (Z.to_nat (idx ht - INITIAL_DELTA_INDEX)). split.
    - replace (INITIAL_DELTA_INDEX +
               Z.of_nat (Z.to_nat (idx ht - INITIAL_DELTA_INDEX)))
        with (idx ht) by lia.
      symmetry. exact Hd.
    - apply in_seq. unfold INITIAL_DELTA_INDEX in *. lia. }
  specialize (Hall Hin). simpl in Hall.
  apply andb_true_iff in Hall. destruct Hall as [H1 H2].
  apply Z.leb_le in H1, H2. lia.
Qed.

End HashBounds.

(** ** Strings *)

Section Strcmp.

Import SymbolTable.

Lemma byte_inj (a b : ascii) : byte a = byte b -> a = b.
Proof.
  unfold byte. intros H. apply N2Z.inj in H.
  rewrite <- (ascii_N_embedding a), <- (ascii_N_embedding b). now rewrite H.
Qed.

Lemma strcmp_refl (s : string) : strcmp s s = 0.
Proof. induction s as [| c s IH]; simpl; [reflexivity |]. now rewrite Z.eqb_refl. Qed.

Lemma strcmp_eq (s1 s2 : string) : strcmp s1 s2 = 0 -> s1 = s2.
Proof.
  revert s2. induction s1 as [| c1 r1 IH]; intros [| c2 r2]; simpl;
    try discriminate; [reflexivity |].
  destruct (Z.eqb_spec (byte c1) (byte c2)) as [E | E].
  - intros H. f_equal; [now apply byte_inj | now apply IH].
  - destruct (byte c1 <? byte c2); discriminate.
Qed.

Lemma strcmp_antisym (s1 s2 : string) : strcmp s2 s1 = - strcmp s1 s2.
Proof.
  revert s2. induction s1 as [| c1 r1 IH]; intros [| c2 r2]; simpl;
    try reflexivity.
  destruct (Z.eqb_spec (byte c1) (byte c2)) as [E | E].
  - rewrite E, Z.eqb_refl. apply IH.
  - destruct (Z.eqb_spec (byte c2) (byte c1)) as [E' | E']; [congruence |].
    destruct (Z.ltb_spec (byte c1) (byte c2)), (Z.ltb_spec (byte c2) (byte c1));
      try reflexivity; lia.
Qed.

Lemma strcmp_values (s1 s2 : string) :
  strcmp s1 s2 = -1 \/ strcmp s1 s2 = 0 \/ strcmp s1 s2 = 1.
Proof.
  revert s2. induction s1 as [| c1 r1 IH]; intros [| c2 r2]; simpl; auto.
  destruct (byte c1 =? byte c2); [apply IH |].
  destruct (byte c1 <? byte c2); auto.
Qed.

Lemma strcmp_trans (s1 s2 s3 : string) :
  strcmp s1 s2 < 0 -> strcmp s2 s3 < 0 -> strcmp s1 s3 < 0.
Proof.
  revert s2 s3.
  induction s1 as [| c1 r1 IH]; intros [| c2 r2] [| c3 r3]; simpl;
    try lia.
  destruct (Z.eqb_spec (byte c1) (byte c2)) as [E12 | E12];
    destruct (Z.eqb_spec (byte c2) (byte c3)) as [E23 | E23];
    destruct (Z.eqb_spec (byte c1) (byte c3)) as [E13 | E13];
    try congruence.
  - apply IH.
  - rewrite E12. tauto.
  - rewrite <- E23. tauto.
  - destruct (Z.ltb_spec (byte c1) (byte c2)); [| lia].
    destruct (Z.ltb_spec (byte c2) (byte c3)); lia.
  - destruct (Z.ltb_spec (byte c1) (byte c2)); [| lia].
    destruct (Z.ltb_spec (byte c2) (byte c3)); [| lia].
    destruct (Z.ltb_spec (byte c1) (byte c3)); lia.
Qed.

End Strcmp.

(** ** Searching a table of the symbol table *)

Section Lookup.

Import HashTable SymbolTable Spec.

Lemma chain_search_app (K V : Type) (c : K -> K -> Z) (k : K)
    (l1 l2 : list (HTentry K V)) :
  chain_search c k (l1 ++ l2) =
  match chain_search c k l1 with
  | Some v => Some v
  | None => chain_search c k l2
  end.
Proof.
  induction l1 as [| e l1 IH]; simpl; [reflexivity |].
  destruct (c k (key e) =? 0); [reflexivity | exact IH].
Qed.

Lemma chain_search_none (K V : Type) (c : K -> K -> Z) (k : K)
    (l : list (HTentry K V)) :
  (forall e, In e l -> c k (key e) <> 0) -> chain_search c k l = None.
Proof.
  induction l as [| e l IH]; simpl; intros H; [reflexivity |].
  destruct (Z.eqb_spec (c k (key e)) 0) as [E | E].
  - exfalso. apply (H e); auto.
  - apply IH. intros e' He'. apply H. auto.
Qed.

Lemma bucket_in_range (K V : Type) (t : list (list (HTentry K V))) (k : Z) :
  0 <= k < Z.of_nat (List.length t) ->
  exists c, nth_error t (Z.to_nat k) = Some c /\ bucket t k = Ret c.
Proof.
  intros H. unfold bucket.
  destruct (Z.leb_spec 0 k); [| lia].
  destruct (Z.ltb_spec k (Z.of_nat (List.length t))); [| lia]. simpl.
  destruct (nth_error t (Z.to_nat k)) as [c |] eqn:E.
  - exists c. split; reflexivity.
  - apply nth_error_None in E. lia.
Qed.

Lemma placed_from_spec (t : list (list (HTentry string IDprop))) (size : Z) (o : nat) :
  placed_from o t size = true ->
  forall i c e, nth_error t i = Some c -> In e c ->
                CInt.to_int (shift_hash (key e) size) = Z.of_nat (o + i).
Proof.
  revert o. induction t as [| b t IH]; intros o H i c e Hn He.
  - destruct i; discriminate.
  - simpl in H. apply andb_true_iff in H. destruct H as [Hb Ht].
    destruct i as [| i]; simpl in Hn.
    + injection Hn as ->. rewrite forallb_forall in Hb.
      rewrite Nat.add_0_r. apply Z.eqb_eq. now apply Hb.
    + replace (o + S i)%nat with (S o + i)%nat by lia.
      now apply (IH (S o) Ht i c e).
Qed.

Lemma placed_spec (t : list (list (HTentry string IDprop))) (size : Z) :
  placed t size = true ->
  forall i c e, nth_error t i = Some c -> In e c ->
                CInt.to_int (shift_hash (key e) size) = Z.of_nat i.
Proof. intros H i c e Hn He. apply (placed_from_spec t size 0 H i c e Hn He). Qed.

Lemma in_concat_nth (A : Type) (t : list (list A)) (x : A) :
  In x (List.concat t) -> exists i c, nth_error t i = Some c /\ In x c.
Proof.
  intros H. apply in_concat in H. destruct H as [c [Hc Hx]].
  apply In_nth_error in Hc. destruct Hc as [i Hi]. eauto.
Qed.

Lemma hash_index (ht : Table) (id : string) :
  wf ht ->
  let i := CInt.to_int (hash ht id (size ht)) in
  i = shift_hash id (size ht) /\ 0 <= i < size ht - 1.
Proof.
  intros [Hh _ _ Hs _ _]. simpl. rewrite Hh.
  assert (Hb : 0 <= shift_hash id (size ht) < size ht - 1).
  { apply shift_hash_bound. unfold CInt.INT_MAX, CInt.UINT_MOD in *. lia. }
  rewrite to_int_small by lia. split; [reflexivity | exact Hb].
Qed.

(** [ht_search] finds the first entry the table holds for the key *)
Lemma ht_search_lookup (ht : Table) (id : string) :
  wf ht -> ht_search ht id = Ret (lookup id ht).
Proof.
  intros Hwf. pose proof (hash_index ht id Hwf) as [Hi Hr]. simpl in Hi, Hr.
  destruct Hwf as [Hh Hc Hl Hs Hx Hp].
  unfold ht_search, lookup, ht_entries.
  set (i := CInt.to_int (hash ht id (size ht))) in *.
  destruct (@bucket_in_range string IDprop (HashTable.table ht) i)
    as [c [Hn Hb]]; [lia |].
  rewrite Hb. simpl. f_equal. rewrite Hc.
  pose proof (placed_spec _ _ Hp) as Hplaced.
  assert (Hsplit : HashTable.table ht =
                   firstn (Z.to_nat i) (HashTable.table ht) ++
                   c :: skipn (S (Z.to_nat i)) (HashTable.table ht)).
  { rewrite <- (firstn_skipn (Z.to_nat i) (HashTable.table ht)) at 1.
    f_equal. clear - Hn. revert Hn.
    generalize (Z.to_nat i) as n. generalize (HashTable.table ht) as t.
    induction t as [| b t IH]; intros [| n] H; simpl in *; try discriminate.
    - congruence.
    - now apply IH. }
  assert (Hother : forall j c' e, nth_error (HashTable.table ht) j = Some c' ->
                     In e c' -> j <> Z.to_nat i ->
                     key_strcmp id (key e) <> 0).
  { intros j c' e Hj He Hne Hz. apply strcmp_eq in Hz. subst id.
    specialize (Hplaced j c' e Hj He). rewrite <- Hh in Hplaced. lia. }
  assert (Hbefore : chain_search key_strcmp id
                      (List.concat (firstn (Z.to_nat i) (HashTable.table ht)))
                    = None).
  { apply chain_search_none.
    intros e He. apply in_concat_nth in He. destruct He as [j [c' [Hj He]]].
    assert (Hlt : (j < Z.to_nat i)%nat).
    { assert (Hj' : (j < List.length (firstn (Z.to_nat i) (HashTable.table ht)))%nat)
        by (apply nth_error_Some; congruence).
      rewrite length_firstn in Hj'. lia. }
    apply (Hother j c' e); [| exact He | lia].
    rewrite nth_error_firstn in Hj.
    destruct (Nat.ltb_spec j (Z.to_nat i)); [exact Hj | lia]. }
  assert (Hafter : chain_search key_strcmp id
                     (List.concat (skipn (S (Z.to_nat i)) (HashTable.table ht)))
                   = None).
  { apply chain_search_none.
    intros e He. apply in_concat_nth in He. destruct He as [j [c' [Hj He]]].
    apply (Hother (S (Z.to_nat i) + j)%nat c' e); [| exact He | lia].
    now rewrite <- nth_error_skipn. }
  rewrite Hsplit at 1. rewrite concat_app, concat_cons.
  rewrite !chain_search_app, Hbefore, Hafter.
  destruct (chain_search key_strcmp id c); reflexivity.
Qed.

End Lookup.

(** ** Inserting into a table of the symbol table *)

Section Insert.

Import HashTable SymbolTable Spec.

Lemma nth_error_replace (A : Type) (t : list A) (k i : nat) (c x : A) :
  nth_error t k = Some c ->
  nth_error (firstn k t ++ x :: skipn (S k) t) i =
  if Nat.eqb i k then Some x else nth_error t i.
Proof.
  revert k i. induction t as [| b t IH]; intros [| k] [| i] H; simpl in *;
    try discriminate; try reflexivity.
  apply IH. exact H.
Qed.

Lemma length_replace (A : Type) (t : list A) (k : nat) (c x : A) :
  nth_error t k = Some c ->
  List.length (firstn k t ++ x :: skipn (S k) t) = List.length t.
Proof.
  revert k. induction t as [| b t IH]; intros [| k] H; simpl in *;
    try discriminate; try reflexivity.
  f_equal. now apply IH.
Qed.

Lemma concat_replace_in (A : Type) (t : list (list A)) (k : nat)
    (c : list A) (p e : A) :
  nth_error t k = Some c ->
  (In e (List.concat (firstn k t ++ (c ++ [p]) :: skipn (S k) t)) <->
   In e (List.concat t) \/ e = p).
Proof.
  revert k. induction t as [| b t IH]; intros [| k] H; simpl in *;
    try discriminate.
  - injection H as ->. rewrite !in_app_iff. simpl. intuition auto.
  - rewrite !in_app_iff, (IH k H). intuition auto.
Qed.

Lemma placed_from_intro (t : list (list (HTentry string IDprop))) (size : Z)
    (o : nat) :
  (forall i c e, nth_error t i = Some c -> In e c ->
                 CInt.to_int (shift_hash (key e) size) = Z.of_nat (o + i)) ->
  placed_from o t size = true.
Proof.
  revert o. induction t as [| b t IH]; intros o H; simpl; [reflexivity |].
  apply andb_true_iff. split.
  - apply forallb_forall. intros e He. apply Z.eqb_eq.
    rewrite (H 0%nat b e eq_refl He). f_equal. lia.
  - apply IH. intros i c e Hn He.
    rewrite (H (S i) c e Hn He). f_equal. lia.
Qed.

Lemma placed_intro (t : list (list (HTentry string IDprop))) (size : Z) :
  (forall i c e, nth_error t i = Some c -> In e c ->
                 CInt.to_int (shift_hash (key e) size) = Z.of_nat i) ->
  placed t size = true.
Proof. intros H. apply placed_from_intro. exact H. Qed.

Lemma placed_repeat (n : nat) (size : Z) : placed (repeat [] n) size = true.
Proof.
  apply placed_intro. intros i c e Hn He.
  apply nth_error_In, repeat_spec in Hn. subst c. destruct He.
Qed.

(** linking an entry into the bucket of a valid index *)
Lemma bucket_append_Ret (K V : Type) (t : list (list (HTentry K V))) (k : Z)
    (p : HTentry K V) :
  0 <= k < Z.of_nat (List.length t) ->
  exists c, nth_error t (Z.to_nat k) = Some c /\
            bucket_append t k p =
            Ret (firstn (Z.to_nat k) t ++ (c ++ [p]) :: skipn (S (Z.to_nat k)) t).
Proof.
  intros H. destruct (bucket_in_range K V t k H) as [c [Hn Hb]].
  exists c. split; [exact Hn |]. unfold bucket_append. now rewrite Hb.
Qed.

(** what the table looks like after [bucket_append] at the hash of the key *)
Lemma bucket_append_wf (t : list (list (HTentry string IDprop))) (size : Z)
    (p : HTentry string IDprop) :
  31 <= size <= CInt.INT_MAX ->
  Z.of_nat (List.length t) = size ->
  placed t size = true ->
  exists t',
    bucket_append t (shift_hash (key p) size) p = Ret t' /\
    Z.of_nat (List.length t') = size /\
    placed t' size = true /\
    (forall e, In e (List.concat t') <-> In e (List.concat t) \/ e = p).
Proof.
  intros Hs Hl Hp.
  assert (Hb : 0 <= shift_hash (key p) size < size - 1).
  { apply shift_hash_bound. unfold CInt.INT_MAX, CInt.UINT_MOD in *. lia. }
  destruct (bucket_append_Ret string IDprop t (shift_hash (key p) size) p)
    as [c [Hn Ha]]; [lia |].
  eexists. split; [exact Ha |].
  split; [| split].
  - rewrite (length_replace _ t _ c _ Hn). exact Hl.
  - apply placed_intro. intros i c' e Hi He.
    rewrite (nth_error_replace _ t _ i c _ Hn) in Hi.
    destruct (Nat.eqb_spec i (Z.to_nat (shift_hash (key p) size))) as [E | E].
    + injection Hi as <-. apply in_app_iff in He. destruct He as [He | He].
      * subst i. apply (placed_spec t size Hp _ c e Hn He).
      * destruct He as [<- | []]. rewrite to_int_small by lia. lia.
    + apply (placed_spec t size Hp i c' e Hi He).
  - intros e. apply concat_replace_in. exact Hn.
Qed.

Lemma relocate_wf (size : Z) (c : list (HTentry string IDprop))
    (t : list (list (HTentry string IDprop))) :
  31 <= size <= CInt.INT_MAX ->
  Z.of_nat (List.length t) = size ->
  placed t size = true ->
  exists t',
    relocate shift_hash size c t = Ret t' /\
    Z.of_nat (List.length t') = size /\
    placed t' size = true /\
    (forall e, In e (List.concat t') <-> In e (List.concat t) \/ In e c).
Proof.
  intros Hs. revert t. induction c as [| this rest IH]; intros t Hl Hp; simpl.
  - exists t. repeat split; auto; tauto.
  - destruct (bucket_append_wf t size this Hs Hl Hp)
      as [t1 [Ha [Hl1 [Hp1 Hin1]]]].
    rewrite Ha. simpl.
    destruct (IH t1 Hl1 Hp1) as [t' [Hr [Hl' [Hp' Hin']]]].
    exists t'. repeat split; auto.
    + intros H. apply Hin' in H. rewrite Hin1 in H. intuition auto.
    + intros H. apply Hin'. rewrite Hin1. intuition auto.
Qed.

Lemma relocate_all_wf (size : Z) (old t : list (list (HTentry string IDprop))) :
  31 <= size <= CInt.INT_MAX ->
  Z.of_nat (List.length t) = size ->
  placed t size = true ->
  exists t',
    relocate_all shift_hash size old t = Ret t' /\
    Z.of_nat (List.length t') = size /\
    placed t' size = true /\
    (forall e, In e (List.concat t') <->
               In e (List.concat t) \/ In e (List.concat old)).
Proof.
  intros Hs. revert t. induction old as [| c rest IH]; intros t Hl Hp; simpl.
  - exists t. repeat split; auto; tauto.
  - destruct (relocate_wf size c t Hs Hl Hp) as [t1 [Ha [Hl1 [Hp1 Hin1]]]].
    rewrite Ha. simpl.
    destruct (IH t1 Hl1 Hp1) as [t' [Hr [Hl' [Hp' Hin']]]].
    exists t'. repeat split; auto.
    + intros H. apply Hin' in H. rewrite Hin1 in H.
      rewrite in_app_iff. intuition auto.
    + intros H. apply Hin'. rewrite Hin1.
      rewrite in_app_iff in H. intuition auto.
Qed.

Lemma getsize_Ret (K V : Type) (ht : HashTab K V) :
  INITIAL_DELTA_INDEX <= idx ht <= 30 ->
  exists n, getsize ht = Ret (n, set_idx ht (idx ht + 1)).
Proof.
  intros H. unfold getsize.
  destruct (nth_error delta (Z.to_nat (idx ht + 1))) as [d |] eqn:E.
  - eexists. reflexivity.
  - apply nth_error_None in E. simpl in E. unfold INITIAL_DELTA_INDEX in H. lia.
Qed.

(** the two loops of [rehash] return, or they reach outside the new table *)
Lemma relocate_outcome (K V : Type) (h : K -> Z -> Z) (n : Z)
    (c : list (HTentry K V)) (t : list (list (HTentry K V))) :
  (exists t', relocate h n c t = Ret t') \/
  (exists why, relocate h n c t = Undefined why).
Proof.
  revert t. induction c as [| this rest IH]; intros t; cbn [relocate].
  - left. now exists t.
  - unfold bucket_append, bucket.
    destruct ((0 <=? h (key this) n)
              && (h (key this) n <? Z.of_nat (List.length t)));
      [| right; eexists; reflexivity].
    destruct (nth_error t (Z.to_nat (h (key this) n)));
      [| right; eexists; reflexivity].
    cbn [bind]. apply IH.
Qed.

Lemma relocate_all_outcome (K V : Type) (h : K -> Z -> Z) (n : Z)
    (old t : list (list (HTentry K V))) :
  (exists t', relocate_all h n old t = Ret t') \/
  (exists why, relocate_all h n old t = Undefined why).
Proof.
  revert t. induction old as [| c rest IH]; intros t; cbn [relocate_all].
  - left. now exists t.
  - destruct (relocate_outcome K V h n c t) as [[t' H] | [why H]]; rewrite H;
      cbn [bind]; [apply IH | right; now exists why].
Qed.

(** [rehash] has no defined result, whatever the table is *)
Lemma rehash_undefined (K V : Type) (ht : HashTab K V) :
  exists why, rehash ht = Undefined why.
Proof.
  unfold rehash, getsize.
  destruct (nth_error delta (Z.to_nat (idx ht + 1)));
    [| eexists; reflexivity].
  cbn [bind].
  match goal with
  | |- context [relocate_all ?h ?n ?old ?t] =>
      destruct (relocate_all_outcome K V h n old t) as [[t' H] | [why H]];
      rewrite H
  end; cbn [bind]; eexists; reflexivity.
Qed.

(** on a table of the symbol table [rehash] moves every entry to the bucket
    of its hash in the new table, and then writes through the container
    that [ht_free] has released *)
Lemma rehash_writes_released (ht : Table) :
  hash ht = shift_hash ->
  INITIAL_DELTA_INDEX <= idx ht <= 30 ->
  rehash ht =
  Undefined "write through the container that ht_free has released".
Proof.
  intros Hh Hi. unfold rehash.
  destruct (getsize_Ret string IDprop ht Hi) as [n Hg]. rewrite Hg. simpl.
  assert (Hn : 31 <= n <= CInt.INT_MAX).
  { apply (getsize_range string IDprop ht (set_idx ht (idx ht + 1)) n);
      [lia | exact Hg]. }
  rewrite (to_unsigned_small n)
    by (unfold CInt.INT_MAX, CInt.UINT_MOD in *; lia).
  rewrite Hh.
  destruct (relocate_all_wf n (HashTable.table ht) (repeat [] (Z.to_nat n)) Hn)
    as [t' [Hr _]].
  { rewrite repeat_length. lia. }
  { apply placed_repeat. }
  rewrite Hr. reflexivity.
Qed.

Lemma ht_insert_result (K V : Type) (ht ht' : HashTab K V) (k : K) (v : V)
    (r : Z) :
  ht_insert ht k v = Ret (r, ht') -> r = EXIT_SUCCESS.
Proof.
  unfold ht_insert. intros H.
  apply bind_Ret in H. destruct H as [t [_ H]].
  match type of H with
  | (if ?b then _ else _) = _ => destruct b
  end.
  - apply bind_Ret in H. destruct H as [h [_ H]]. now injection H as <- _.
  - now injection H as <- _.
Qed.


(** past the load factor [ht_insert] calls [rehash], and has no defined
    result *)
Lemma ht_insert_past_load (ht : Table) (k : string) (v : IDprop) :
  wf ht -> within_load ht = false ->
  exists why, ht_insert ht k v = Undefined why.
Proof.
  intros Hwf Hload. pose proof (hash_index ht k Hwf) as [Hk Hr].
  simpl in Hk, Hr.
  destruct Hwf as [Hh Hc Hl Hs Hx Hp].
  unfold ht_insert. rewrite Hk.
  destruct (bucket_append_wf (HashTable.table ht) (size ht) (mkEntry k v)
              Hs Hl Hp) as [t1 [Ha _]].
  simpl in Ha. rewrite Ha.
  unfold within_load in Hload.
  cbn [bind set_table set_num_entries num_entries max_loadfactor size].
  rewrite Hload. cbn [negb].
  match goal with
  | |- context [rehash ?h] =>
      destruct (rehash_undefined string IDprop h) as [why Hre]; rewrite Hre
  end.
  exists why. reflexivity.
Qed.

Lemma ht_init_wf :
  exists ht, @ht_init string IDprop load_factor shift_hash key_strcmp = Ret ht /\ wf ht /\
             ht_entries ht = [] /\ idx ht = 5.
Proof.
  exists empty_table. split; [reflexivity |]. split; [| split; reflexivity].
  constructor; try reflexivity.
  - unfold empty_table, CInt.INT_MAX. simpl. lia.
  - unfold empty_table, INITIAL_DELTA_INDEX. simpl. lia.
Qed.


Lemma chain_search_in (l : list (HTentry string IDprop)) (id : string)
    (p : IDprop) :
  chain_search key_strcmp id l = Some p -> In (mkEntry id p) l.
Proof.
  induction l as [| b l IH]; simpl; [discriminate |].
  destruct (Z.eqb_spec (key_strcmp id (key b)) 0) as [E | E].
  - intros H. injection H as <-. left. apply strcmp_eq in E. subst id.
    now destruct b.
  - intros H. right. now apply IH.
Qed.

End Insert.

(** ** The symbol table *)

Section Scopes.

Import HashTable SymbolTable Spec.

Lemma wf_empty_table : wf empty_table.
Proof.
  constructor; try reflexivity.
  - unfold empty_table, CInt.INT_MAX. simpl. lia.
  - unfold empty_table, INITIAL_DELTA_INDEX. simpl. lia.
Qed.

Lemma wf_outer_table : wf outer_table.
Proof.
  constructor; try reflexivity.
  - unfold outer_table, CInt.INT_MAX. simpl. lia.
  - unfold outer_table, INITIAL_DELTA_INDEX. simpl. lia.
Qed.

Lemma wf_one_entry_table : wf one_entry_table.
Proof.
  constructor; try reflexivity.
  - unfold one_entry_table, CInt.INT_MAX. simpl. lia.
  - unfold one_entry_table, INITIAL_DELTA_INDEX. simpl. lia.
Qed.

Lemma wf_crowded_table : wf crowded_table.
Proof.
  constructor; try reflexivity.
  - unfold CInt.INT_MAX. split; vm_compute; discriminate.
  - vm_compute. discriminate.
Qed.

(** [open_subroutine] returns before it saves the table, whatever the
    table and the name *)
Lemma open_subroutine_saves_nothing (st st' : SymTab) (id : string)
    (prop : IDprop) (b : bool) :
  open_subroutine st id prop = Ret (b, st') ->
  saved_table st' = saved_table st /\ b = true /\
  exists t t', SymbolTable.table st = Some t /\
               SymbolTable.table st' = Some t' /\
               ht_insert t id prop = Ret (EXIT_SUCCESS, t').
Proof.
  unfold open_subroutine. intros H.
  destruct (SymbolTable.table st) as [t |]; [| discriminate].
  apply bind_Ret in H. destruct H as [[r t'] [Hi H]].
  pose proof (ht_insert_result string IDprop t t' id prop r Hi) as Hr.
  subst r. simpl in H. injection H as <- <-. simpl.
  repeat split. exists t, t'. auto.
Qed.

(** C3 (the code departs from the claim).  On the table [init_symbol_table]
    makes, [open_subroutine] with the unused name [f] links [f] into the
    current table and returns [TRUE] at once: no table is saved
    ([saved_table] stays null) and the current table is still the one that
    holds [f].  [close_subroutine] then releases that table and makes the
    null [saved_table] current, so the global scope with the callable in it
    is gone. *)
Theorem open_close_subroutine_drops_global_scope :
  exists st0 st1 st2,
    init_symbol_table = Ret st0 /\
    open_subroutine st0 "f" callable_prop = Ret (true, st1) /\
    saved_table st1 = None /\
    option_map (@ht_entries string IDprop) (SymbolTable.table st1)
      = Some [mkEntry "f" callable_prop] /\
    close_subroutine st1 = Ret st2 /\
    SymbolTable.table st2 = None.
Proof.
  do 3 eexists.
  split; [reflexivity |].
  split; [reflexivity |].
  split; [reflexivity |].
  split; [reflexivity |].
  split; reflexivity.
Qed.

(** what [find_name] returns when there is a saved table *)
Lemma find_name_two_tables (st : SymTab) (inner outer : Table) (id : string)
    (prop : option IDprop) :
  SymbolTable.table st = Some inner ->
  saved_table st = Some outer ->
  wf inner -> wf outer ->
  find_name st id prop =
  Ret (match lookup id inner with
       | Some p => (true, Some p)
       | None =>
           match lookup id outer with
           | Some p => (IS_CALLABLE_TYPE (type p), Some p)
           | None => (false, prop)
           end
       end).
Proof.
  intros Ht Hs Hi Ho. unfold find_name. rewrite Ht, Hs.
  rewrite (ht_search_lookup inner id Hi). simpl.
  destruct (lookup id inner) as [p |]; [reflexivity |].
  rewrite (ht_search_lookup outer id Ho). simpl.
  destruct (lookup id outer) as [p |]; [| reflexivity].
  destruct (IS_CALLABLE_TYPE (type p)); reflexivity.
Qed.



(** without a saved table only the current one is searched *)
Lemma find_name_global (st : SymTab) (t : Table) (id : string)
    (prop : option IDprop) :
  SymbolTable.table st = Some t -> saved_table st = None -> wf t ->
  find_name st id prop =
  Ret (match lookup id t with
       | Some p => (true, Some p)
       | None => (false, prop)
       end).
Proof.
  intros Ht Hs Hw. unfold find_name. rewrite Ht, Hs.
  rewrite (ht_search_lookup t id Hw). simpl.
  destruct (lookup id t); reflexivity.
Qed.

(** what [find_name] answers for a name, from the entries of the two scopes *)
Lemma find_name_found (st : SymTab) (inner : Table) (id : string)
    (prop : IDprop) :
  SymbolTable.table st = Some inner -> wf inner ->
  (forall outer, saved_table st = Some outer -> wf outer) ->
  exists p, find_name st id (Some prop) = Ret (visible id st, Some p).
Proof.
  intros Ht Hi Ho. unfold visible. rewrite Ht.
  destruct (saved_table st) as [outer |] eqn:Hs.
  - rewrite (find_name_two_tables st inner outer id (Some prop) Ht Hs Hi
               (Ho outer eq_refl)).
    destruct (lookup id inner) as [p |]; [now exists p |].
    destruct (lookup id outer) as [p |]; [now exists p | now exists prop].
  - rewrite (find_name_global st inner id (Some prop) Ht Hs Hi).
    destruct (lookup id inner) as [p |]; [now exists p | now exists prop].
Qed.




(** C10.  For a table whose size [getsize] returned, from the initial index
    of [delta] on, the index [shift_hash] computes for a key is below the
    size; so [ht_search] reaches a bucket of the table and returns, and the
    bucket [ht_insert] links the entry into is one of the table. *)
Theorem shift_hash_within_table (key : string) (v : IDprop)
    (ht0 ht0' tab : Table) (n : Z) :
  INITIAL_DELTA_INDEX <= idx ht0 ->
  getsize ht0 = Ret (n, ht0') ->
  hash tab = shift_hash ->
  size tab = CInt.to_unsigned n ->
  Z.of_nat (List.length (HashTable.table tab)) = size tab ->
  0 <= shift_hash key (size tab) < size tab /\
  (exists r, ht_search tab key = Ret r) /\
  (exists t, bucket_append (HashTable.table tab)
                           (CInt.to_int (hash tab key (size tab)))
                           (mkEntry key v) = Ret t).
Proof.
  intros Hi Hg Hh Hs Hl.
  pose proof (getsize_range string IDprop ht0 ht0' n Hi Hg) as Hn.
  rewrite (to_unsigned_small n) in Hs
    by (unfold CInt.INT_MAX, CInt.UINT_MOD in *; lia).
  assert (Hb : 0 <= shift_hash key (size tab) < size tab - 1).
  { apply shift_hash_bound. unfold CInt.INT_MAX, CInt.UINT_MOD in *. lia. }
  split; [lia |].
  assert (Hk : CInt.to_int (hash tab key (size tab))
               = shift_hash key (size tab)).
  { rewrite Hh. apply to_int_small. lia. }
  split.
  - unfold ht_search. rewrite Hk.
    destruct (bucket_in_range string IDprop (HashTable.table tab)
                (shift_hash key (size tab))) as [c [_ Hc]]; [lia |].
    rewrite Hc. simpl. eexists. reflexivity.
  - rewrite Hk.
    destruct (bucket_append_Ret string IDprop (HashTable.table tab)
                (shift_hash key (size tab)) (mkEntry key v))
      as [c [_ Hc]]; [lia |].
    rewrite Hc. eexists. reflexivity.
Qed.

Lemma shift_hash_within_table_witness :
  0 <= shift_hash "f" 31 < 31 /\
  (exists r, ht_search empty_table "f" = Ret r) /\
  (exists t, bucket_append (HashTable.table empty_table)
                           (CInt.to_int (shift_hash "f" 31))
                           (mkEntry "f" callable_prop) = Ret t).
Proof.
  exact (shift_hash_within_table "f" callable_prop
           (mkHashTab [] 0 0 load_factor INITIAL_DELTA_INDEX shift_hash
                      key_strcmp)
           (mkHashTab [] 0 0 load_factor 5 shift_hash key_strcmp)
           empty_table 31
           ltac:(unfold INITIAL_DELTA_INDEX; simpl; lia)
           eq_refl eq_refl eq_refl eq_refl).
Defined.

End Scopes.

(** ** Reading characters *)

#[local] Arguments Z.mul : simpl never.
#[local] Arguments Z.add : simpl never.
#[local] Arguments Z.sub : simpl never.
#[local] Arguments Z.leb : simpl never.
#[local] Arguments Z.ltb : simpl never.
#[local] Arguments Z.gtb : simpl never.
#[local] Arguments Z.eqb : simpl never.

Section Reading.

Import Tok Scanner Spec.

Lemma next_char_reads (s : State) (c : Z) (text : list Z) :
  reads s (c :: text) -> is_byte c -> Forall is_byte text ->
  reads (next_char s) text.
Proof.
  destruct s as [src c0 cn pos lr]. unfold reads at 1. simpl.
  intros [-> ->] Hb Ht. unfold next_char, fgetc. simpl.
  assert (Hne : (c =? EOF) = false).
  { apply Z.eqb_neq. unfold is_byte, EOF in *. lia. }
  rewrite Hne.
  destruct text as [| d text]; simpl.
  - split; reflexivity.
  - assert (Hd : (d =? EOF) = false).
    { apply Z.eqb_neq. inversion Ht; subst. unfold is_byte, EOF in *. lia. }
    rewrite Hd.
    destruct (lr =? NEWLINE); simpl;
      destruct (d =? NEWLINE); simpl; split; reflexivity.
Qed.

Lemma reads_rounds (s : State) (c : Z) (text : list Z) :
  reads s (c :: text) -> rounds s = S (S (List.length text)).
Proof. intros [_ Hs]. unfold rounds. now rewrite Hs. Qed.

Lemma isdigit_range (c : Z) : isdigit c = true <-> 48 <= c <= 57.
Proof.
  unfold isdigit. change (C "0") with 48. change (C "9") with 57.
  rewrite andb_true_iff, !Z.leb_le. tauto.
Qed.

Lemma isdigit_EOF : isdigit EOF = false.
Proof. reflexivity. Qed.

Lemma stops_ch (p : Z -> bool) (s : State) (text : list Z) :
  p EOF = false -> reads s text -> stops p text -> p (ch s) = false.
Proof.
  intros He Hr Hs. destruct text as [| c text]; simpl in *.
  - destruct Hr as [-> _]. exact He.
  - destruct Hr as [-> _]. exact Hs.
Qed.

End Reading.

(** ** Numbers *)

Section Numbers.

Import Tok Scanner Spec.

Lemma number_overflows_spec (number newnum : Z) :
  0 <= number -> 0 <= newnum <= 9 ->
  number_overflows number newnum = true <->
  10 * number + newnum > CInt.INT_MAX.
Proof.
  intros Hn Hd. unfold number_overflows.
  change (Z.quot CInt.INT_MAX 10) with 214748364.
  change (Z.rem CInt.INT_MAX 10) with 7.
  unfold CInt.INT_MAX.
  rewrite orb_true_iff, andb_true_iff, Z.ltb_lt, Z.eqb_eq, Z.gtb_gt. lia.
Qed.

Lemma decimal_from_grows (digits : list Z) (acc : Z) :
  0 <= acc -> Forall (fun c => isdigit c = true) digits ->
  acc <= decimal_from acc digits.
Proof.
  revert acc. induction digits as [| c digits IH]; intros acc Ha Hd.
  - unfold decimal_from. simpl. lia.
  - pose proof (Forall_inv Hd) as Hc. pose proof (Forall_inv_tail Hd) as Hds.
    simpl in Hc. apply isdigit_range in Hc.
    assert (Hacc : 0 <= 10 * acc + (c - 48)) by lia.
    specialize (IH (10 * acc + (c - 48)) Hacc Hds).
    change (decimal_from acc (c :: digits))
      with (decimal_from (10 * acc + (c - 48)) digits).
    lia.
Qed.

(** the loop of [process_number], entered on a digit with the value of the
    digits up to it in [number] *)
Lemma process_number_loop_decimal (ds rest : list Z) :
  Forall (fun c => isdigit c = true) ds ->
  Forall is_byte rest -> stops isdigit rest ->
  forall (fuel : nat) (k number d : Z) (s : State),
    (List.length ds + 2 <= fuel)%nat ->
    reads s (d :: ds ++ rest) -> isdigit d = true ->
    0 <= number <= CInt.INT_MAX ->
    if decimal_from number ds <=? CInt.INT_MAX then
      exists s',
        process_number_loop fuel k number s
        = Ret (decimal_from number ds, s') /\ reads s' rest
    else
      exists p,
        process_number_loop fuel k number s = Fatal p "number too large" []
        /\ col p = k.
Proof.
  intros Hds Hrest Hstop.
  induction Hds as [| d' ds Hd' Hds IH];
    intros fuel k number d s Hfuel Hr Hd Hn.
  - simpl in *. destruct fuel as [| fuel]; [lia |].
    destruct (Z.leb_spec number CInt.INT_MAX); [| lia].
    simpl. destruct Hr as [Hc Hs]. rewrite Hc, Hd.
    assert (Hr' : reads (next_char s) rest).
    { apply (next_char_reads s d rest); [split; assumption | | assumption].
      apply isdigit_range in Hd. unfold is_byte. lia. }
    rewrite (stops_ch isdigit (next_char s) rest isdigit_EOF Hr' Hstop).
    simpl. eexists. split; [reflexivity | exact Hr'].
  - destruct fuel as [| fuel]; [simpl in Hfuel; lia |].
    assert (Hbytes : Forall is_byte ((d' :: ds) ++ rest)).
    { apply Forall_app. split; [| assumption].
      constructor.
      - apply isdigit_range in Hd'. unfold is_byte. lia.
      - eapply Forall_impl; [| exact Hds].
        intros a Ha. apply isdigit_range in Ha. unfold is_byte. lia. }
    assert (Hr' : reads (next_char s) (d' :: ds ++ rest)).
    { apply (next_char_reads s d ((d' :: ds) ++ rest)); auto.
      apply isdigit_range in Hd. unfold is_byte. lia. }
    pose proof Hd' as Hrange. apply isdigit_range in Hrange.
    simpl. destruct Hr as [Hc Hs]. rewrite Hc, Hd.
    pose proof Hr' as [Hc' Hs']. rewrite Hc', Hd'. simpl.
    change (C "0") with 48.
    destruct (number_overflows number (d' - 48)) eqn:Hov.
    + apply number_overflows_spec in Hov; [| lia | lia].
      pose proof (decimal_from_grows ds (10 * number + (d' - 48))
                    ltac:(lia) Hds) as Hg.
      change (decimal_from number (d' :: ds))
        with (decimal_from (10 * number + (d' - 48)) ds).
      destruct (Z.leb_spec (decimal_from (10 * number + (d' - 48)) ds)
                           CInt.INT_MAX); [lia |].
      eexists. split; [reflexivity | reflexivity].
    + assert (Hle : 10 * number + (d' - 48) <= CInt.INT_MAX).
      { destruct (Z.le_gt_cases (10 * number + (d' - 48)) CInt.INT_MAX)
          as [Hle | Hgt]; [exact Hle |].
        assert (Ht : number_overflows number (d' - 48) = true)
          by (apply number_overflows_spec; lia).
        congruence. }
      change (decimal_from number (d' :: ds))
        with (decimal_from (10 * number + (d' - 48)) ds).
      apply (IH fuel k (10 * number + (d' - 48)) d' (next_char s)).
      * simpl in Hfuel. lia.
      * exact Hr'.
      * exact Hd'.
      * lia.
Qed.

End Numbers.

(** ** Dispatch in [get_token] *)

(** decide the comparisons of a goal on character codes from the arithmetic
    of the context *)
Ltac split_comparison :=
  let H := fresh "Hcmp" in
  match goal with
  | |- context [(?x <=? ?y)] => destruct (Z.leb_spec0 x y) as [H | H]
  | |- context [(?x =? ?y)] => destruct (Z.eqb_spec x y) as [H | H]
  | |- context [(?x <? ?y)] => destruct (Z.ltb_spec0 x y) as [H | H]
  end.

Ltac compare_chars :=
  unfold Scanner.isspace, Scanner.isdigit, Scanner.isalpha, Scanner.isupper,
    Scanner.islower, Scanner.isascii, Scanner.isprint, Scanner.is_word_char,
    Scanner.is_escape, Scanner.C, Scanner.EOF, Scanner.NEWLINE,
    Scanner.DQUOTE, Scanner.BACKSLASH, Spec.is_byte in *;
  simpl N_of_ascii in *; simpl Z.of_N in *;
  repeat split_comparison;
  simpl; try reflexivity; try lia.

Section Dispatch.

Import Tok Scanner Spec.

Lemma reads_set_col (s : State) (c : Z) (text : list Z) :
  reads s text -> reads (set_col s c) text.
Proof. destruct text; exact (fun H => H). Qed.

Lemma skip_space_none (s : State) :
  isspace (ch s) = false -> skip_space (rounds s) s = Ret s.
Proof. intros H. unfold rounds. simpl. now rewrite H. Qed.

(** on a digit, [get_token] is [process_number] *)
Lemma get_token_on_digit (fuel : nat) (s : State) (token : Token) :
  isdigit (ch s) = true ->
  get_token (S fuel) s token
  = process_number (set_col s (column_number s)) token.
Proof.
  intros H. apply isdigit_range in H.
  assert (Hsp : isspace (ch s) = false) by compare_chars.
  cbn [get_token]. rewrite (skip_space_none s Hsp). cbn [bind].
  assert (H1 : (ch s =? NEWLINE) = false) by compare_chars.
  rewrite H1.
  assert (H2 : isascii (ch s) = true) by compare_chars.
  rewrite H2. cbn [negb andb bind].
  assert (H3 : (ch (set_col s (column_number s)) =? EOF) = false)
    by (simpl ch; compare_chars).
  rewrite H3. cbn [negb].
  assert (H4 : isalpha (ch (set_col s (column_number s)))
               || (ch (set_col s (column_number s)) =? C "_") = false)
    by (simpl ch; compare_chars).
  rewrite H4.
  assert (H5 : isdigit (ch (set_col s (column_number s))) = true)
    by (simpl ch; compare_chars).
  rewrite H5. reflexivity.
Qed.

(** C6.  On a maximal sequence of digits the scanner returns a number token
    with the decimal value of the digits when that value is at most
    [INT_MAX], and stops with "number too large" when it is more. *)
Theorem scanner_number_value (fuel : nat) (s : State) (token : Token)
    (d : Z) (ds rest : list Z) :
  reads s (d :: ds ++ rest) ->
  Forall (fun c => isdigit c = true) (d :: ds) ->
  Forall is_byte rest -> stops isdigit rest ->
  if decimal (d :: ds) <=? CInt.INT_MAX then
    exists s',
      get_token (S fuel) s token
      = Ret (set_value (set_type token TOKEN_NUMBER) (decimal (d :: ds)), s')
      /\ reads s' rest
  else
    exists p,
      get_token (S fuel) s token = Fatal p "number too large" [].
Proof.
  intros Hr Hd Hb Hs.
  pose proof (Forall_inv Hd) as Hd0. pose proof (Forall_inv_tail Hd) as Hds.
  simpl in Hd0.
  assert (Hch : ch s = d) by (destruct Hr; assumption).
  rewrite (get_token_on_digit fuel s token) by (rewrite Hch; exact Hd0).
  unfold process_number.
  set (s0 := set_col s (column_number s)).
  assert (Hr0 : reads s0 (d :: ds ++ rest)) by (apply reads_set_col; exact Hr).
  assert (Hdec : decimal (d :: ds) = decimal_from (ch s0 - C "0") ds).
  { unfold decimal, decimal_from. simpl fold_left. simpl ch. rewrite Hch.
    change (C "0") with 48.
    replace (10 * 0 + (d - 48)) with (d - 48) by lia. reflexivity. }
  rewrite Hdec.
  pose proof Hd0 as Hrange. apply isdigit_range in Hrange.
  pose proof (process_number_loop_decimal ds rest Hds Hb Hs (rounds s0)
                (column_number s0) (ch s0 - C "0") d s0) as Hloop.
  assert (Hfuel : (List.length ds + 2 <= rounds s0)%nat).
  { rewrite (reads_rounds s0 d (ds ++ rest) Hr0), length_app. lia. }
  specialize (Hloop Hfuel Hr0 Hd0).
  assert (Hn : 0 <= ch s0 - C "0" <= CInt.INT_MAX).
  { simpl ch. rewrite Hch. change (C "0") with 48. unfold CInt.INT_MAX. lia. }
  specialize (Hloop Hn).
  destruct (decimal_from (ch s0 - C "0") ds <=? CInt.INT_MAX).
  - destruct Hloop as [s' [Hl Hr']]. rewrite Hl. cbn [bind].
    eexists. split; [reflexivity |]. apply reads_set_col. exact Hr'.
  - destruct Hloop as [p [Hl _]]. rewrite Hl. cbn [bind].
    eexists. reflexivity.
Qed.

Lemma scanner_number_value_witness :
  (exists s',
     get_token 1 (scanner_on "2147483647;") no_token
     = Ret (set_value (set_type no_token TOKEN_NUMBER) 2147483647, s')
     /\ reads s' [59]) /\
  (exists p,
     get_token 1 (scanner_on "2147483648") no_token
     = Fatal p "number too large" []).
Proof.
  split.
  - apply (scanner_number_value 0 (scanner_on "2147483647;") no_token
             50 [49; 52; 55; 52; 56; 51; 54; 52; 55] [59]).
    + split; reflexivity.
    + repeat constructor.
    + repeat constructor; unfold is_byte; lia.
    + reflexivity.
  - apply (scanner_number_value 0 (scanner_on "2147483648") no_token
             50 [49; 52; 55; 52; 56; 51; 54; 52; 56] []).
    + split; reflexivity.
    + repeat constructor.
    + constructor.
    + exact I.
Defined.

End Dispatch.

(** ** Words *)

Section Words.

Import Tok Scanner Spec.

Lemma C_is_byte (a : ascii) : is_byte (C a).
Proof.
  unfold is_byte, C. pose proof (N_ascii_bounded a). lia.
Qed.

Lemma int_to_char_C (a : ascii) : CInt.int_to_char (C a) = a.
Proof.
  unfold CInt.int_to_char. pose proof (C_is_byte a) as H. unfold is_byte in H.
  rewrite Z.mod_small by lia. unfold C. rewrite N2Z.id.
  apply ascii_N_embedding.
Qed.

Lemma append_nil_r (s : string) : (s ++ "")%string = s.
Proof. induction s as [| c s IH]; simpl; [reflexivity | now rewrite IH]. Qed.

Lemma append_char (s t : string) (a : ascii) :
  ((s ++ String a "") ++ t)%string = (s ++ String a t)%string.
Proof. induction s as [| c s IH]; simpl; [reflexivity | now rewrite IH]. Qed.

Lemma is_word_char_EOF : is_word_char EOF = false.
Proof. reflexivity. Qed.

(** the loop of [process_word] collects the characters of the word *)
Lemma process_word_loop_lexeme (l : list ascii) (rest : list Z) :
  Forall (fun a => is_word_char (C a) = true) l ->
  Forall is_byte rest -> stops is_word_char rest ->
  forall (fuel : nat) (k i : Z) (acc : string) (s : State),
    (List.length l + 1 <= fuel)%nat ->
    reads s (map C l ++ rest) ->
    i + Z.of_nat (List.length l) <= MAX_ID_LENGTH ->
    exists s',
      process_word_loop fuel k i acc s
      = Ret ((acc ++ string_of_list_ascii l)%string, s') /\ reads s' rest.
Proof.
  intros Hl Hb Hs.
  induction Hl as [| a l Ha Hl IH]; intros fuel k i acc s Hfuel Hr Hi.
  - destruct fuel as [| fuel]; [simpl in Hfuel; lia |].
    simpl in Hr. cbn [process_word_loop].
    rewrite (stops_ch is_word_char s rest is_word_char_EOF Hr Hs).
    simpl. rewrite append_nil_r. exists s. split; [reflexivity | exact Hr].
  - destruct fuel as [| fuel]; [simpl in Hfuel; lia |].
    cbn [process_word_loop].
    assert (Hch : ch s = C a) by (destruct Hr; assumption).
    rewrite Hch, Ha.
    assert (Hlen : (i + 1 >? MAX_ID_LENGTH) = false).
    { rewrite Z.gtb_ltb. apply Z.ltb_ge.
      change (List.length (a :: l)) with (S (List.length l)) in Hi. lia. }
    rewrite Hlen, int_to_char_C.
    assert (Hr' : reads (next_char s) (map C l ++ rest)).
    { apply (next_char_reads s (C a) (map C l ++ rest) Hr (C_is_byte a)).
      apply Forall_app. split; [| exact Hb].
      apply Forall_map. apply Forall_forall. intros x _. apply C_is_byte. }
    destruct (IH fuel k (i + 1) (acc ++ String a "")%string (next_char s))
      as [s' [He Hr'']].
    + simpl in Hfuel. lia.
    + exact Hr'.
    + change (List.length (a :: l)) with (S (List.length l)) in Hi. lia.
    + exists s'. split; [| exact Hr''].
      rewrite He. simpl string_of_list_ascii. now rewrite append_char.
Qed.

Lemma reserved_is_sorted : reserved_sorted = true.
Proof. vm_compute. reflexivity. Qed.

Lemma nth_word_increasing (i j : Z) :
  0 <= i -> i < j -> j < NUM_RESERVED_WORDS ->
  SymbolTable.strcmp (nth_word i) (nth_word j) < 0.
Proof.
  intros Hi Hij Hj. pose proof reserved_is_sorted as H.
  unfold reserved_sorted in H. rewrite forallb_forall in H.
  unfold NUM_RESERVED_WORDS in Hj.
  specialize (H (Z.to_nat i)). rewrite forallb_forall in H.
  assert (Hin : forall n, 0 <= n < Z.of_nat (List.length reserved) ->
                  In (Z.to_nat n) (seq 0 (List.length reserved))).
  { intros n Hn. apply in_seq. lia. }
  specialize (H (Hin i ltac:(lia)) (Z.to_nat j) (Hin j ltac:(lia))).
  destruct (Nat.ltb_spec (Z.to_nat i) (Z.to_nat j)); [| lia].
  rewrite !Z2Nat.id in H by lia. apply Z.ltb_lt. exact H.
Qed.

Lemma reserved_at_Ret (mid : Z) :
  0 <= mid < NUM_RESERVED_WORDS ->
  exists r, reserved_at mid = Ret r /\ word r = nth_word mid /\ In r reserved.
Proof.
  intros H. unfold reserved_at.
  destruct (Z.leb_spec 0 mid); [| lia].
  destruct (Z.ltb_spec mid NUM_RESERVED_WORDS); [| lia]. simpl.
  destruct (nth_error reserved (Z.to_nat mid)) as [r |] eqn:E.
  - exists r. split; [reflexivity |]. split.
    + unfold nth_word. now rewrite (nth_error_nth _ _ _ E).
    + apply (nth_error_In _ _ E).
  - apply nth_error_None in E. unfold NUM_RESERVED_WORDS in *. lia.
Qed.

Lemma in_reserved_nth (r : ReservedWord) :
  In r reserved ->
  exists j, 0 <= j < NUM_RESERVED_WORDS /\ nth_word j = word r.
Proof.
  intros H. apply (In_nth _ _ (mkReserved "" TOKEN_EOF)) in H.
  destruct H as [n [Hn He]]. exists (Z.of_nat n). split.
  - unfold NUM_RESERVED_WORDS. lia.
  - unfold nth_word. now rewrite Nat2Z.id, He.
Qed.

(** the loop of [process_word] over the table ends on the entry that holds
    the word when one does *)
Lemma binary_search_finds (lexeme : string) (fuel : nat) :
  forall low high : Z,
    0 <= low -> low <= high -> high < NUM_RESERVED_WORDS ->
    high - low < Z.of_nat fuel ->
    (forall j, 0 <= j < NUM_RESERVED_WORDS -> nth_word j = lexeme ->
               low <= j <= high) ->
    exists mid,
      binary_search fuel lexeme low high = Ret mid /\
      0 <= mid < NUM_RESERVED_WORDS /\
      (nth_word mid = lexeme \/
       forall j, 0 <= j < NUM_RESERVED_WORDS -> nth_word j <> lexeme).
Proof.
  induction fuel as [| fuel IH]; intros low high Hlow Hlh Hhigh Hfuel Hinv;
    [simpl in Hfuel; lia |].
  cbn [binary_search].
  assert (Hq : Z.quot (low + high) 2 = (low + high) / 2)
    by (apply Z.quot_div_nonneg; lia).
  rewrite Hq.
  set (mid := (low + high) / 2).
  assert (Hmid : low <= mid <= high).
  { unfold mid. split.
    - apply Z.div_le_lower_bound; lia.
    - apply Z.div_le_upper_bound; lia. }
  destruct (reserved_at_Ret mid) as [r [Hr [Hw _]]]; [lia |].
  rewrite Hr. cbn [bind]. rewrite Hw.
  pose proof (strcmp_values lexeme (nth_word mid)) as Hv.
  assert (Hbelow : forall j, mid < j < NUM_RESERVED_WORDS ->
                     nth_word j = lexeme ->
                     SymbolTable.strcmp lexeme (nth_word mid) = 1).
  { intros j Hj He.
    pose proof (nth_word_increasing mid j ltac:(lia) ltac:(lia) ltac:(lia))
      as Hlt.
    rewrite He in Hlt. rewrite (strcmp_antisym (nth_word mid) lexeme).
    destruct (strcmp_values (nth_word mid) lexeme)
      as [E | [E | E]]; rewrite E in *; lia. }
  assert (Habove : forall j, 0 <= j < mid -> nth_word j = lexeme ->
                     SymbolTable.strcmp lexeme (nth_word mid) = -1).
  { intros j Hj He.
    pose proof (nth_word_increasing j mid ltac:(lia) ltac:(lia) ltac:(lia))
      as Hlt.
    rewrite He in Hlt.
    destruct Hv as [E | [E | E]]; rewrite E in *; lia. }
  destruct Hv as [E | [E | E]]; rewrite E; simpl.
  - (* the word is before [mid] *)
    assert (Hinv' : forall j, 0 <= j < NUM_RESERVED_WORDS ->
                      nth_word j = lexeme -> low <= j <= mid - 1).
    { intros j Hj He. specialize (Hinv j Hj He).
      destruct (Z.lt_trichotomy j mid) as [Hlt | [Heq | Hgt]]; [lia | |].
      - subst j. rewrite He, strcmp_refl in E. discriminate.
      - rewrite (Hbelow j ltac:(lia) He) in E. discriminate. }
    destruct (Z.leb_spec low (mid - 1)).
    + apply IH; try lia. exact Hinv'.
    + exists mid. split; [reflexivity |]. split; [lia |]. right.
      intros j Hj He. specialize (Hinv' j Hj He). lia.
  - (* the word is at [mid] *)
    exists mid. split; [reflexivity |]. split; [lia |]. left.
    symmetry. now apply strcmp_eq.
  - (* the word is after [mid] *)
    assert (Hinv' : forall j, 0 <= j < NUM_RESERVED_WORDS ->
                      nth_word j = lexeme -> mid + 1 <= j <= high).
    { intros j Hj He. specialize (Hinv j Hj He).
      destruct (Z.lt_trichotomy j mid) as [Hlt | [Heq | Hgt]]; [| | lia].
      - rewrite (Habove j ltac:(lia) He) in E. discriminate.
      - subst j. rewrite He, strcmp_refl in E. discriminate. }
    destruct (Z.leb_spec (mid + 1) high).
    + apply IH; try lia. exact Hinv'.
    + exists mid. split; [reflexivity |]. split; [lia |]. right.
      intros j Hj He. specialize (Hinv' j Hj He). lia.
Qed.

(** on a letter or an underscore, [get_token] is [process_word] *)
Lemma get_token_on_word (fuel : nat) (s : State) (token : Token) :
  isalpha (ch s) || (ch s =? C "_") = true ->
  get_token (S fuel) s token
  = process_word (set_col s (column_number s)) token.
Proof.
  intros H.
  assert (Hrange : 65 <= ch s <= 90 \/ 97 <= ch s <= 122 \/ ch s = 95).
  { revert H. compare_chars; intros; try discriminate; lia. }
  assert (Hsp : isspace (ch s) = false) by compare_chars.
  cbn [get_token]. rewrite (skip_space_none s Hsp). cbn [bind].
  assert (H1 : (ch s =? NEWLINE) = false) by compare_chars.
  rewrite H1.
  assert (H2 : isascii (ch s) = true) by compare_chars.
  rewrite H2. cbn [negb andb bind].
  assert (H3 : (ch (set_col s (column_number s)) =? EOF) = false)
    by (simpl ch; compare_chars).
  rewrite H3. cbn [negb].
  simpl ch. rewrite H. reflexivity.
Qed.

(** C9.  A word within the length limit is returned as the reserved word of
    the table entry that holds it verbatim, when there is such an entry,
    and otherwise as an identifier that carries the word. *)
Theorem scanner_word_reserved_or_id (fuel : nat) (s : State) (token : Token)
    (a : ascii) (tail : string) (rest : list Z) :
  isalpha (C a) || (C a =? C "_") = true ->
  Forall (fun c => is_word_char (C c) = true) (list_ascii_of_string tail) ->
  Z.of_nat (String.length (String a tail)) <= MAX_ID_LENGTH ->
  reads s (file_of_string (String a tail) ++ rest) ->
  Forall is_byte rest -> stops is_word_char rest ->
  exists tok s',
    get_token (S fuel) s token = Ret (tok, s') /\ reads s' rest /\
    ((exists r, In r reserved /\ word r = String a tail /\
                tok = set_type token (rtype r))
     \/
     ((forall r, In r reserved -> word r <> String a tail) /\
      tok = set_lexeme (set_type token TOKEN_ID) (String a tail))).
Proof.
  intros Ha Htail Hlen Hr Hb Hs.
  set (lexeme := String a tail) in *.
  assert (Hch : ch s = C a) by (destruct Hr; assumption).
  rewrite (get_token_on_word fuel s token) by (rewrite Hch; exact Ha).
  unfold process_word.
  set (s0 := set_col s (column_number s)).
  assert (Hr0 : reads s0 (map C (list_ascii_of_string lexeme) ++ rest))
    by (apply reads_set_col; exact Hr).
  assert (Hword : Forall (fun c => is_word_char (C c) = true)
                         (list_ascii_of_string lexeme)).
  { simpl. constructor; [| exact Htail].
    unfold is_word_char. apply orb_true_iff. left. exact Ha. }
  assert (Hlen' : List.length (list_ascii_of_string lexeme)
                  = String.length lexeme).
  { clear. induction lexeme as [| c l IH]; simpl; [reflexivity | now rewrite IH]. }
  destruct (process_word_loop_lexeme (list_ascii_of_string lexeme) rest
              Hword Hb Hs (rounds s0) (column_number s0) 0 "" s0)
    as [s1 [Hloop Hr1]].
  - unfold rounds. destruct Hr0 as [_ Hsrc]. rewrite Hsrc.
    simpl. rewrite length_app, length_map. lia.
  - exact Hr0.
  - rewrite Hlen'. lia.
  - rewrite Hloop. cbn [bind fst snd].
    rewrite string_of_list_ascii_of_string. simpl append.
    destruct (binary_search_finds lexeme (List.length reserved) 0
                (NUM_RESERVED_WORDS - 1))
      as [mid [Hsearch [Hmid Hfound]]].
    + lia.
    + unfold NUM_RESERVED_WORDS. simpl. lia.
    + lia.
    + unfold NUM_RESERVED_WORDS. lia.
    + intros j Hj _. lia.
    + rewrite Hsearch. cbn [bind].
      destruct (reserved_at_Ret mid Hmid) as [r [Hat [Hw Hin]]].
      rewrite Hat. cbn [bind].
      destruct Hfound as [Hyes | Hno].
      * rewrite Hw, Hyes, strcmp_refl. simpl.
        eexists. eexists. split; [reflexivity |].
        split; [apply reads_set_col; exact Hr1 |].
        left. exists r. split; [exact Hin |]. split; [congruence | reflexivity].
      * destruct (Z.eqb_spec (SymbolTable.strcmp lexeme (word r)) 0) as [E | E].
        -- exfalso. apply strcmp_eq in E. apply (Hno mid Hmid). congruence.
        -- eexists. eexists. split; [reflexivity |].
           split; [apply reads_set_col; exact Hr1 |].
           right. split; [| reflexivity].
           intros r' Hin' He. destruct (in_reserved_nth r' Hin') as [j [Hj Hwj]].
           apply (Hno j Hj). congruence.
Qed.

Lemma scanner_word_reserved_or_id_witness :
  (exists tok s',
     get_token 1 (scanner_on "while(") no_token = Ret (tok, s') /\
     reads s' [40] /\
     ((exists r, In r reserved /\ word r = "while" /\
                 tok = set_type no_token (rtype r))
      \/
      ((forall r, In r reserved -> word r <> "while") /\
       tok = set_lexeme (set_type no_token TOKEN_ID) "while"))).
Proof.
  apply (scanner_word_reserved_or_id 0 (scanner_on "while(") no_token
           "w" "hile" [40]).
  - reflexivity.
  - repeat constructor.
  - unfold MAX_ID_LENGTH. simpl. lia.
  - split; reflexivity.
  - repeat constructor; unfold is_byte; lia.
  - reflexivity.
Defined.

End Words.

(** ** String literals *)

Section Strings.

Import Tok Scanner Spec.

Lemma length_append (s t : string) :
  String.length (s ++ t)%string = (String.length s + String.length t)%nat.
Proof. induction s as [| c s IH]; simpl; [reflexivity | now rewrite IH]. Qed.

Lemma append_assoc (s t u : string) :
  ((s ++ t) ++ u)%string = (s ++ (t ++ u))%string.
Proof. induction s as [| c s IH]; simpl; [reflexivity | now rewrite IH]. Qed.

(** a character that is not zero is added when the buffer has room *)
Lemma strncat1_fits (nstring : Z) (line : string) (c : ascii) :
  C c <> 0 -> Z.of_nat (String.length line) + 1 < nstring ->
  strncat1 nstring line c = Ret (line ++ String c "")%string.
Proof.
  intros Hc Hn. unfold strncat1.
  destruct (N.eqb_spec (N_of_ascii c) 0) as [E | E].
  - exfalso. apply Hc. unfold C. now rewrite E.
  - destruct (Z.ltb_spec (Z.of_nat (String.length line) + 1) nstring);
      [reflexivity | lia].
Qed.

Lemma printable_next_checks (s : State) (text : list Z) :
  reads s text -> printable_next text ->
  (ch s =? EOF) = false /\
  negb (isascii (ch s)) || (ch s =? NEWLINE) || negb (isprint (ch s)) = false.
Proof.
  intros Hr Hp. destruct text as [| c text]; [destruct Hp |].
  destruct Hr as [-> _]. simpl in Hp.
  assert (Hrange : 32 <= c <= 126) by (revert Hp; compare_chars; discriminate).
  split; compare_chars.
Qed.

Lemma printable_next_raw (body : list Item) (tail : list Z) :
  Forall item_ok body -> printable_next tail ->
  printable_next (map C (raw body) ++ tail).
Proof.
  intros Hb Ht. destruct body as [| [c | c] body]; simpl; [exact Ht | |].
  - apply Forall_inv in Hb. destruct Hb as [Hp _]. exact Hp.
  - reflexivity.
Qed.

Lemma raw_bytes (body : list Item) (tail : list Z) :
  Forall is_byte tail -> Forall is_byte (map C (raw body) ++ tail).
Proof.
  intros H. apply Forall_app. split; [| exact H].
  apply Forall_map, Forall_forall. intros x _. apply C_is_byte.
Qed.

(** a literal of at most 1023 characters fits the first buffer *)
Lemma fits_short (body : list Item) (count nstring used : Z) :
  1024 <= nstring ->
  used + Z.of_nat (List.length (raw body)) <= 1023 ->
  fits count nstring used body = true.
Proof.
  revert count nstring used.
  induction body as [| i body IH]; intros count nstring used Hn Hu;
    [reflexivity |].
  cbn [fits]. simpl raw in Hu. rewrite length_app in Hu.
  apply andb_true_iff. split.
  - apply Z.ltb_lt. lia.
  - destruct (count + 1 >? 1023); apply IH; lia.
Qed.

(** a literal without escape sequences fits, however long: the buffer
    doubles in time *)
Lemma fits_plain (body : list Item) (count nstring used : Z) :
  Forall (fun i => exists c, i = Plain c) body ->
  1024 <= nstring -> 0 <= count <= 1023 ->
  used + (1024 - count) < nstring ->
  fits count nstring used body = true.
Proof.
  intros Hb. revert count nstring used.
  induction Hb as [| i body [c ->] Hb IH]; intros count nstring used Hn Hc Hu;
    [reflexivity |].
  cbn [fits]. change (Z.of_nat (List.length (raw_item (Plain c)))) with 1.
  apply andb_true_iff. split.
  - apply Z.ltb_lt. lia.
  - destruct (Z.gtb_spec (count + 1) 1023); apply IH; lia.
Qed.

(** the loop of [process_string] copies the characters of the items it
    passes, escape sequences as they stand, and goes on behind them *)
Lemma process_string_loop_items (body more : list Item) (tail : list Z) :
  Forall item_ok body -> Forall is_byte tail -> printable_next tail ->
  forall (fuel : nat) (k count nstring : Z) (line : string) (s : State),
    reads s (map C (raw body) ++ tail) ->
    fits count nstring (Z.of_nat (String.length line)) (body ++ more) = true ->
    exists count' nstring' s',
      fits count' nstring'
           (Z.of_nat (String.length
                        (line ++ string_of_list_ascii (raw body))%string))
           more = true /\
      reads s' tail /\
      process_string_loop (List.length body + fuel) k count nstring line s
      = process_string_loop fuel k count' nstring'
          (line ++ string_of_list_ascii (raw body))%string s'.
Proof.
  intros Hbody Htail Hnext.
  induction Hbody as [| i body Hi Hbody IH];
    intros fuel k count nstring line s Hr Hfits.
  - simpl. rewrite append_nil_r. exists count, nstring, s. auto.
  - assert (Hnext' : printable_next (map C (raw body) ++ tail))
      by (apply printable_next_raw; assumption).
    assert (Hbytes : Forall is_byte (map C (raw body) ++ tail))
      by (apply raw_bytes; assumption).
    change (List.length (i :: body) + fuel)%nat
      with (S (List.length body + fuel)).
    change ((i :: body) ++ more) with (i :: (body ++ more)) in Hfits.
    cbn [fits] in Hfits. apply andb_true_iff in Hfits.
    destruct Hfits as [Hroom Hfits]. apply Z.ltb_lt in Hroom.
    cbn [process_string_loop].
    destruct i as [c | c]; simpl in Hi.
    + (* a character that stands for itself *)
      destruct Hi as [Hp [Hq Hb]].
      change (Z.of_nat (List.length (raw_item (Plain c)))) with 1
        in Hroom, Hfits.
      simpl raw in Hr |- *. simpl map in Hr. simpl app in Hr.
      assert (Hch : ch s = C c) by (destruct Hr; assumption).
      rewrite Hch.
      destruct (Z.eqb_spec (C c) DQUOTE) as [E | _]; [contradiction |].
      destruct (Z.eqb_spec (C c) BACKSLASH) as [E | _]; [contradiction |].
      cbn [bind]. rewrite int_to_char_C.
      rewrite strncat1_fits;
        [| revert Hp; compare_chars; intros; try discriminate; lia | lia].
      cbn [bind].
      assert (Hr' : reads (next_char s) (map C (raw body) ++ tail))
        by (apply (next_char_reads s (C c)); auto using C_is_byte).
      destruct (printable_next_checks (next_char s) _ Hr' Hnext') as [H1 H2].
      rewrite H1, H2.
      assert (Hused : Z.of_nat (String.length (line ++ String c "")%string)
                      = Z.of_nat (String.length line) + 1)
        by (rewrite length_append; simpl; lia).
      rewrite <- Hused in Hfits.
      destruct (count + 1 >? 1023).
      * destruct (IH fuel k 0 (nstring * 2) (line ++ String c "")%string
                    (next_char s) Hr' Hfits)
          as [count' [nstring' [s' [Hf' [Hr'' He]]]]].
        exists count', nstring', s'.
        simpl string_of_list_ascii.
        rewrite append_char in Hf', He.
        split; [exact Hf' |]. split; [exact Hr'' | exact He].
      * destruct (IH fuel k (count + 1) nstring (line ++ String c "")%string
                    (next_char s) Hr' Hfits)
          as [count' [nstring' [s' [Hf' [Hr'' He]]]]].
        exists count', nstring', s'.
        simpl string_of_list_ascii.
        rewrite append_char in Hf', He.
        split; [exact Hf' |]. split; [exact Hr'' | exact He].
    + (* an escape sequence *)
      change (Z.of_nat (List.length (raw_item (Escape c)))) with 2
        in Hroom, Hfits.
      simpl raw in Hr |- *. simpl map in Hr. simpl app in Hr.
      assert (Hch : ch s = BACKSLASH) by (destruct Hr; assumption).
      rewrite Hch.
      change (BACKSLASH =? DQUOTE) with false.
      change (BACKSLASH =? BACKSLASH) with true. cbn iota.
      change (CInt.int_to_char BACKSLASH) with backslash.
      rewrite strncat1_fits; [| discriminate | lia].
      cbn [bind].
      assert (Hr1 : reads (next_char s) (C c :: map C (raw body) ++ tail)).
      { apply (next_char_reads s BACKSLASH); auto.
        - unfold is_byte, BACKSLASH. lia.
        - constructor; [apply C_is_byte | exact Hbytes]. }
      assert (Hch1 : ch (next_char s) = C c) by (destruct Hr1; assumption).
      rewrite Hch1, Hi. cbn [negb bind]. rewrite int_to_char_C.
      rewrite strncat1_fits;
        [| revert Hi; compare_chars; intros; try discriminate; lia
         | rewrite length_append; simpl; lia].
      cbn [bind].
      assert (Hr' : reads (next_char (next_char s)) (map C (raw body) ++ tail))
        by (apply (next_char_reads (next_char s) (C c)); auto using C_is_byte).
      destruct (printable_next_checks _ _ Hr' Hnext') as [H1 H2].
      rewrite H1, H2.
      assert (Hused : Z.of_nat (String.length
                        ((line ++ String backslash "") ++ String c "")%string)
                      = Z.of_nat (String.length line) + 2)
        by (rewrite !length_append; simpl; lia).
      rewrite <- Hused in Hfits.
      assert (Happ : (((line ++ String backslash "") ++ String c "")
                        ++ string_of_list_ascii (raw body))%string
                     = (line ++ String backslash
                                  (String c (string_of_list_ascii (raw body))))
                       %string).
      { rewrite (append_char (line ++ String backslash "")
                             (string_of_list_ascii (raw body)) c).
        apply append_char. }
      destruct (count + 1 >? 1023).
      * destruct (IH fuel k 0 (nstring * 2)
                    ((line ++ String backslash "") ++ String c "")%string
                    (next_char (next_char s)) Hr' Hfits)
          as [count' [nstring' [s' [Hf' [Hr'' He]]]]].
        exists count', nstring', s'.
        simpl string_of_list_ascii.
        rewrite Happ in Hf', He.
        split; [exact Hf' |]. split; [exact Hr'' | exact He].
      * destruct (IH fuel k (count + 1) nstring
                    ((line ++ String backslash "") ++ String c "")%string
                    (next_char (next_char s)) Hr' Hfits)
          as [count' [nstring' [s' [Hf' [Hr'' He]]]]].
        exists count', nstring', s'.
        simpl string_of_list_ascii.
        rewrite Happ in Hf', He.
        split; [exact Hf' |]. split; [exact Hr'' | exact He].
Qed.

Lemma length_body_raw (body : list Item) :
  (List.length body <= List.length (raw body))%nat.
Proof.
  induction body as [| [c | c] body IH]; simpl; lia.
Qed.

(** the loop has rounds for every item of the literal and one more *)
Lemma rounds_for_body (s : State) (body : list Item) (c : Z) (rest : list Z) :
  reads s (map C (raw body) ++ c :: rest) ->
  exists f, rounds s = (List.length body + S f)%nat.
Proof.
  intros Hr. exists (rounds s - List.length body - 1)%nat.
  pose proof (length_body_raw body) as Hb. unfold rounds.
  assert (Hsrc : (List.length (raw body) <= List.length (src_file s))%nat).
  { destruct (map C (raw body) ++ c :: rest) as [| d t] eqn:E.
    - destruct (map C (raw body)); discriminate.
    - destruct Hr as [_ ->].
      assert (Hl : List.length (map C (raw body) ++ c :: rest)
                   = S (List.length t)) by (now rewrite E).
      rewrite length_app, length_map in Hl. simpl in Hl. lia. }
  lia.
Qed.

(** on a quote, [get_token] reads on and is [process_string] *)
Lemma get_token_on_quote (fuel : nat) (s : State) (token : Token) :
  ch s = DQUOTE ->
  get_token (S fuel) s token
  = process_string
      (next_char (set_col (set_col s (column_number s)) (column_number s)))
      token.
Proof.
  intros H.
  assert (Hsp : isspace (ch s) = false) by (rewrite H; reflexivity).
  cbn [get_token]. rewrite (skip_space_none s Hsp). cbn [bind].
  assert (H1 : (ch s =? NEWLINE) = false) by (rewrite H; reflexivity).
  rewrite H1.
  assert (H2 : isascii (ch s) = true) by (rewrite H; reflexivity).
  rewrite H2. cbn [negb andb bind].
  simpl ch. rewrite H. reflexivity.
Qed.

(** C7 (amended).  A string literal whose characters are printable and
    whose escape sequences are among the four allowed ones, and whose copy
    stays inside the string buffer, is returned as a string token that holds
    the characters between the quotes as the source has them, each escape
    sequence as its backslash and its letter; a backslash before any other
    character stops the scanner with "illegal escape code". *)
Theorem scanner_string_verbatim (fuel : nat) (s : State) (token : Token)
    (body : list Item) (rest : list Z) :
  Forall item_ok body -> Forall is_byte rest ->
  (fits 1 MAX_INITIAL_STRING_LEN 0 body = true ->
   reads s (DQUOTE :: map C (raw body) ++ DQUOTE :: rest) ->
   exists s',
     get_token (S fuel) s token
     = Ret (set_str (set_type token TOKEN_STRING)
                    (string_of_list_ascii (raw body)), s')
     /\ reads s' rest)
  /\
  (forall x,
     fits 1 MAX_INITIAL_STRING_LEN 0 (body ++ [Plain backslash]) = true ->
     is_byte x -> is_escape x = false ->
     reads s (DQUOTE :: map C (raw body) ++ BACKSLASH :: x :: rest) ->
     exists p,
       get_token (S fuel) s token
       = Fatal p "illegal escape code '\%c' in string" [x]).
Proof.
  intros Hbody Hrest. split.
  - intros Hfits Hr.
    assert (Hch : ch s = DQUOTE) by (destruct Hr; assumption).
    rewrite (get_token_on_quote fuel s token Hch).
    set (s1 := next_char (set_col (set_col s (column_number s))
                                  (column_number s))).
    assert (Htail : Forall is_byte (DQUOTE :: rest))
      by (constructor; [unfold is_byte, DQUOTE; lia | exact Hrest]).
    assert (Hr1 : reads s1 (map C (raw body) ++ DQUOTE :: rest)).
    { apply (next_char_reads _ DQUOTE).
      - do 2 apply reads_set_col. exact Hr.
      - unfold is_byte, DQUOTE. lia.
      - apply raw_bytes. exact Htail. }
    unfold process_string.
    destruct (rounds_for_body s1 body DQUOTE rest Hr1) as [f Hf]. rewrite Hf.
    rewrite <- (app_nil_r body) in Hfits.
    destruct (process_string_loop_items body [] (DQUOTE :: rest) Hbody Htail
                eq_refl (S f) (column_number s1) 1 MAX_INITIAL_STRING_LEN ""
                s1 Hr1 Hfits)
      as [count' [nstring' [s' [_ [Hr' He]]]]].
    rewrite He. cbn [process_string_loop].
    destruct Hr' as [Hc' Hs'].
    rewrite Hc'. change (DQUOTE =? DQUOTE) with true. cbn iota. cbn [bind].
    simpl append. eexists. split; [reflexivity |].
    apply reads_set_col. apply (next_char_reads s' DQUOTE).
    + split; assumption.
    + unfold is_byte, DQUOTE. lia.
    + exact Hrest.
  - intros x Hfits Hx Hesc Hr.
    assert (Hch : ch s = DQUOTE) by (destruct Hr; assumption).
    rewrite (get_token_on_quote fuel s token Hch).
    set (s1 := next_char (set_col (set_col s (column_number s))
                                  (column_number s))).
    assert (Htail : Forall is_byte (BACKSLASH :: x :: rest)).
    { constructor; [unfold is_byte, BACKSLASH; lia |].
      constructor; assumption. }
    assert (Hr1 : reads s1 (map C (raw body) ++ BACKSLASH :: x :: rest)).
    { apply (next_char_reads _ DQUOTE).
      - do 2 apply reads_set_col. exact Hr.
      - unfold is_byte, DQUOTE. lia.
      - apply raw_bytes. exact Htail. }
    unfold process_string.
    destruct (rounds_for_body s1 body BACKSLASH (x :: rest) Hr1) as [f Hf].
    rewrite Hf.
    destruct (process_string_loop_items body [Plain backslash]
                (BACKSLASH :: x :: rest) Hbody Htail eq_refl (S f)
                (column_number s1) 1 MAX_INITIAL_STRING_LEN "" s1 Hr1 Hfits)
      as [count' [nstring' [s' [Hf' [Hr' He]]]]].
    rewrite He. cbn [process_string_loop].
    assert (Hc' : ch s' = BACKSLASH) by (destruct Hr'; assumption).
    rewrite Hc'. change (BACKSLASH =? DQUOTE) with false.
    change (BACKSLASH =? BACKSLASH) with true. cbn iota.
    cbn [fits] in Hf'. apply andb_true_iff in Hf'. destruct Hf' as [Hroom _].
    apply Z.ltb_lt in Hroom.
    change (Z.of_nat (List.length (raw_item (Plain backslash)))) with 1
      in Hroom.
    rewrite strncat1_fits; [| discriminate | exact Hroom].
    cbn [bind].
    assert (Hr2 : reads (next_char s') (x :: rest)).
    { apply (next_char_reads s' BACKSLASH (x :: rest) Hr');
        [unfold is_byte, BACKSLASH; lia | constructor; assumption]. }
    destruct Hr2 as [Hc2 _]. rewrite Hc2, Hesc. cbn [negb bind].
    eexists. reflexivity.
Qed.

Lemma scanner_string_verbatim_witness :
  (exists s',
     get_token 1 (init_scanner [34; 97; 92; 110; 34; 59]) no_token
     = Ret (set_str (set_type no_token TOKEN_STRING)
                    (String "a" (String backslash (String "n" ""))), s')
     /\ reads s' [59]) /\
  (exists p,
     get_token 1 (init_scanner [34; 97; 92; 113; 34; 59]) no_token
     = Fatal p "illegal escape code '\%c' in string" [113]).
Proof.
  split.
  - apply (proj1 (scanner_string_verbatim 0
                    (init_scanner [34; 97; 92; 110; 34; 59])
                    no_token [Plain "a"; Escape "n"] [59]
                    ltac:(repeat constructor; discriminate)
                    ltac:(repeat constructor; unfold is_byte; lia))).
    + reflexivity.
    + split; reflexivity.
  - apply (proj2 (scanner_string_verbatim 0
                    (init_scanner [34; 97; 92; 113; 34; 59])
                    no_token [Plain "a"] [34; 59]
                    ltac:(repeat constructor; discriminate)
                    ltac:(repeat constructor; unfold is_byte; lia)) 113).
    + reflexivity.
    + unfold is_byte. lia.
    + reflexivity.
    + split; reflexivity.
Defined.

(** C7 (counterexample).  For the literal made of a quote, a backslash, the
    letter n and a quote, the string of the token is the backslash and the
    letter, two characters, and not the line feed they denote. *)
Lemma scanner_string_keeps_escape :
  exists tok s',
    get_token 1 (init_scanner [34; 92; 110; 34]) no_token = Ret (tok, s') /\
    str tok = string_of_list_ascii (raw [Escape "n"]) /\
    str tok <> string_of_list_ascii (decoded [Escape "n"]).
Proof.
  exists (set_str (set_type no_token TOKEN_STRING)
                  (String backslash (String "n" ""))).
  exists (mkState [] EOF 4 (mkPos 1 1) 0).
  split; [vm_compute; reflexivity |].
  split; [reflexivity | discriminate].
Qed.

End Strings.

(** ** Comments *)

Section Comments.

Import Tok Scanner Spec.

Lemma next_char_coherent (s : State) (p : SourcePos) (c d : Z)
    (text : list Z) :
  reads s (c :: d :: text) -> coherent s p -> is_byte c -> is_byte d ->
  coherent (next_char s) (next_pos p c).
Proof.
  destruct s as [src c0 cn pos lr]. unfold reads, coherent. simpl.
  intros [-> ->] [Hcol [Hline Hlr]] Hc Hd. subst cn lr.
  unfold next_char, fgetc, next_pos. simpl.
  assert (Hne : (c =? EOF) = false)
    by (apply Z.eqb_neq; unfold is_byte, EOF in *; lia).
  assert (Hde : (d =? EOF) = false)
    by (apply Z.eqb_neq; unfold is_byte, EOF in *; lia).
  rewrite Hne, Hde.
  destruct (Z.eqb_spec c NEWLINE) as [E | E]; simpl.
  - change (NEWLINE =? NEWLINE) with true. simpl.
    destruct (d =? NEWLINE) eqn:Ed; simpl; rewrite ?Ed; repeat split;
      auto; lia.
  - change (0 =? NEWLINE) with false. simpl.
    destruct (d =? NEWLINE) eqn:Ed; simpl; rewrite ?Ed; repeat split;
      auto; lia.
Qed.

(** the scanner starts on the first character, in line 1 and column 1 *)
Lemma init_scanner_coherent (c : Z) (text : list Z) :
  is_byte c -> Forall is_byte text ->
  reads (init_scanner (c :: text)) (c :: text) /\
  coherent (init_scanner (c :: text)) (mkPos 1 1).
Proof.
  intros Hc Ht. unfold init_scanner, next_char, fgetc. simpl.
  change (0 =? EOF) with false. cbn iota.
  assert (Hne : (c =? EOF) = false)
    by (apply Z.eqb_neq; unfold is_byte, EOF in *; lia).
  rewrite Hne. change (0 =? NEWLINE) with false. cbn iota.
  unfold coherent, reads.
  destruct (c =? NEWLINE) eqn:E; cbn; rewrite ?E; repeat split; reflexivity.
Qed.

Lemma next_char_line_at_end (s : State) (c : Z) :
  reads s [c] -> is_byte c ->
  line (position (next_char s)) = line (position s).
Proof.
  destruct s as [src c0 cn pos lr]. unfold reads. simpl.
  intros [-> ->] Hc. unfold next_char, fgetc. simpl.
  assert (Hne : (c =? EOF) = false)
    by (apply Z.eqb_neq; unfold is_byte, EOF in *; lia).
  rewrite Hne. reflexivity.
Qed.

(** the scanner behind a character of the text *)
Lemma next_char_step (s : State) (p : SourcePos) (c : Z) (text : list Z) :
  reads s (c :: text) -> coherent s p -> Forall is_byte (c :: text) ->
  reads (next_char s) text /\
  (text <> [] -> coherent (next_char s) (next_pos p c)).
Proof.
  intros Hr Hc Hb.
  pose proof (Forall_inv Hb) as Hbc. pose proof (Forall_inv_tail Hb) as Hbt.
  split.
  - apply (next_char_reads s c text Hr Hbc Hbt).
  - intros Hne. destruct text as [| d text]; [contradiction |].
    apply (next_char_coherent s p c d text Hr Hc Hbc (Forall_inv Hbt)).
Qed.

Lemma separated_tail (c : Z) (text : list Z) :
  separated (c :: text) = true -> separated text = true.
Proof.
  destruct text as [| d text]; [reflexivity |].
  cbn [separated]. intros H. apply andb_true_iff in H. apply H.
Qed.

Lemma separated_close (text : list Z) :
  separated (C "}" :: text) = true -> stops (fun c => c =? C "{") text.
Proof.
  destruct text as [| d text]; [exact (fun _ => I) |].
  cbn [separated stops]. intros H. apply andb_true_iff in H.
  destruct H as [H _]. change (C "}" =? C "}") with true in H.
  simpl in H. now apply negb_true_iff in H.
Qed.

Lemma pos_eta (q : SourcePos) : mkPos (line q) (col q) = q.
Proof. now destruct q. Qed.

Lemma level_ends_at_eof (s : State) (q p : SourcePos) (fuel : nat) :
  reads s [] ->
  level_ends (skip_comment_loop (S fuel) (col q) (line q) s) q p [].
Proof.
  intros [Hc Hs]. left. exists q. split; [| reflexivity].
  cbn [skip_comment_loop]. rewrite Hc.
  change (EOF =? C "}") with false. change (EOF =? C "{") with false.
  cbn iota. cbn [bind]. rewrite Hc.
  change (EOF =? C "}") with false. change (EOF =? EOF) with true.
  cbn iota. unfold leprintf. simpl. now rewrite pos_eta.
Qed.

Lemma unclosed_open (q p : SourcePos) (below : list SourcePos)
    (text : list Z) :
  unclosed (q :: below) p (C "{" :: text)
  = unclosed (p :: q :: below) (next_pos p (C "{")) text.
Proof. reflexivity. Qed.

Lemma unclosed_close (q p : SourcePos) (below : list SourcePos)
    (text : list Z) :
  unclosed (q :: below) p (C "}" :: text)
  = unclosed below (next_pos p (C "}")) text.
Proof. reflexivity. Qed.

Lemma unclosed_other (q p : SourcePos) (below : list SourcePos) (c : Z)
    (text : list Z) :
  c <> C "{" -> c <> C "}" ->
  unclosed (q :: below) p (c :: text)
  = unclosed (q :: below) (next_pos p c) text.
Proof.
  intros H1 H2. cbn [unclosed].
  destruct (Z.eqb_spec c (C "{")); [contradiction |].
  destruct (Z.eqb_spec c (C "}")); [contradiction | reflexivity].
Qed.

Lemma byte_not_EOF (c : Z) : is_byte c -> (c =? EOF) = false.
Proof. intros H. apply Z.eqb_neq. unfold is_byte, EOF in *. lia. Qed.

(** [skip_comment], called on the opening brace at [p] *)
Lemma skip_comment_level (n : nat) (text : list Z) (fuel : nat) (s : State)
    (p : SourcePos) :
  loop_levels n -> (List.length text <= n)%nat ->
  (2 * List.length text + 2 <= fuel)%nat ->
  reads s (C "{" :: text) -> coherent s p ->
  Forall is_byte text -> separated text = true ->
  level_ends (skip_comment fuel s) p (next_pos p (C "{")) text.
Proof.
  intros IH Hlen Hfuel Hr Hc Hb Hsep.
  destruct fuel as [| fuel]; [lia |].
  assert (Hbytes : Forall is_byte (C "{" :: text))
    by (constructor; [apply C_is_byte | exact Hb]).
  destruct (next_char_step s p (C "{") text Hr Hc Hbytes) as [Hr1 Hc1].
  destruct Hc as [Hcol [Hline _]].
  cbn [skip_comment]. rewrite Hcol, Hline.
  destruct text as [| d text].
  - destruct Hr1 as [Hch1 _]. rewrite Hch1.
    change (EOF =? EOF) with true. cbn iota.
    left. exists p. split; [| reflexivity].
    unfold leprintf. simpl.
    rewrite (next_char_line_at_end s (C "{") Hr (C_is_byte "{")), Hline.
    now rewrite pos_eta.
  - assert (Hch1 : ch (next_char s) = d) by (destruct Hr1; assumption).
    rewrite Hch1, (byte_not_EOF d (Forall_inv Hb)).
    apply (IH (d :: text) Hlen fuel (next_char s) (next_pos p (C "{")) p);
      auto.
    lia.
Qed.

(** every level of [skip_comment] ends as the braces of the text say *)
Lemma skip_comment_loop_levels (n : nat) : loop_levels n.
Proof.
  induction n as [| n IH]; intros text Hlen fuel s p q Hfuel Hr Hc Hb Hsep.
  - destruct text; [| simpl in Hlen; lia].
    destruct fuel as [| fuel]; [simpl in Hfuel; lia |].
    now apply level_ends_at_eof.
  - destruct text as [| c r].
    { destruct fuel as [| fuel]; [simpl in Hfuel; lia |].
      now apply level_ends_at_eof. }
    destruct fuel as [| fuel]; [simpl in Hfuel; lia |].
    assert (Hc0 : coherent s p) by (apply Hc; discriminate).
    destruct (next_char_step s p c r Hr Hc0 Hb) as [Hr1 Hc1].
    assert (Hch : ch s = c) by (destruct Hr; assumption).
    pose proof (Forall_inv Hb) as Hbc.
    pose proof (Forall_inv_tail Hb) as Hbr.
    pose proof (separated_tail c r Hsep) as Hsepr.
    simpl in Hlen, Hfuel.
    cbn [skip_comment_loop]. rewrite Hch.
    destruct (Z.eqb_spec c (C "}")) as [-> | Hnc].
    + (* the closing brace of this level *)
      right. exists (next_char s), (next_pos p (C "}")), r.
      split; [reflexivity |]. split; [exact Hr1 |]. split; [exact Hc1 |].
      split; [simpl; lia |]. split; [exact Hbr |]. split; [exact Hsepr |].
      split; [apply separated_close; exact Hsep |].
      intros below. apply unclosed_close.
    + destruct (Z.eqb_spec c (C "{")) as [-> | Hno].
      * (* a nested comment *)
        assert (Hin : level_ends (skip_comment fuel s) p
                                 (next_pos p (C "{")) r).
        { apply (skip_comment_level n r fuel s p IH); auto; lia. }
        destruct Hin as [[q' [He Hq']] | [s' [p' [text' Hin]]]].
        -- rewrite He. cbn [bind]. left. exists q'. split; [reflexivity |].
           intros below. rewrite unclosed_open. apply Hq'.
        -- destruct Hin as [He [Hr' [Hc' [Hl' [Hb' [Hsep' [Hst' Hu']]]]]]].
           rewrite He. cbn [bind].
           destruct text' as [| c' r'].
           ++ destruct Hr' as [Hch' _]. rewrite Hch'.
              change (EOF =? C "}") with false.
              change (EOF =? EOF) with true. cbn iota.
              left. exists q. split.
              ** unfold leprintf. simpl. now rewrite pos_eta.
              ** intros below. rewrite unclosed_open, Hu'. reflexivity.
           ++ assert (Hch' : ch s' = c') by (destruct Hr'; assumption).
              assert (Hc0' : coherent s' p') by (apply Hc'; discriminate).
              destruct (next_char_step s' p' c' r' Hr' Hc0' Hb')
                as [Hr1' Hc1'].
              rewrite Hch'.
              destruct (Z.eqb_spec c' (C "}")) as [-> | Hnc'].
              ** right. exists (next_char s'), (next_pos p' (C "}")), r'.
                 split; [reflexivity |]. split; [exact Hr1' |].
                 split; [exact Hc1' |]. split; [simpl in *; lia |].
                 split; [exact (Forall_inv_tail Hb') |].
                 split; [exact (separated_tail _ _ Hsep') |].
                 split; [apply separated_close; exact Hsep' |].
                 intros below. rewrite unclosed_open, Hu'.
                 apply unclosed_close.
              ** rewrite (byte_not_EOF c' (Forall_inv Hb')).
                 assert (Hno' : c' <> C "{")
                   by (simpl in Hst'; now apply Z.eqb_neq).
                 assert (Hnext : level_ends
                           (skip_comment_loop fuel (col q) (line q)
                                              (next_char s'))
                           q (next_pos p' c') r').
                 { apply (IH r'); auto.
                   - simpl in Hl'. lia.
                   - simpl in Hl'. lia.
                   - exact (Forall_inv_tail Hb').
                   - exact (separated_tail _ _ Hsep'). }
                 destruct Hnext as [[q' [He' Hq']] | [s2 [p2 [t2 Hn]]]].
                 --- left. exists q'. split; [exact He' |].
                     intros below. rewrite unclosed_open, Hu'.
                     rewrite (unclosed_other q p' below c' r' Hno' Hnc').
                     apply Hq'.
                 --- destruct Hn as [E2 [R2 [C2 [L2 [B2 [S2 [T2 U2]]]]]]].
                     right. exists s2, p2, t2.
                     split; [exact E2 |]. split; [exact R2 |].
                     split; [exact C2 |]. split; [simpl in *; lia |].
                     split; [exact B2 |]. split; [exact S2 |].
                     split; [exact T2 |].
                     intros below. rewrite unclosed_open, Hu'.
                     rewrite (unclosed_other q p' below c' r' Hno' Hnc').
                     apply U2.
      * (* any other character *)
        cbn [bind]. rewrite Hch.
        destruct (Z.eqb_spec c (C "}")) as [E | _]; [contradiction |].
        rewrite (byte_not_EOF c Hbc).
        assert (Hnext : level_ends
                  (skip_comment_loop fuel (col q) (line q) (next_char s))
                  q (next_pos p c) r).
        { apply (IH r); auto; lia. }
        destruct Hnext as [[q' [He' Hq']] | [s2 [p2 [t2 Hn]]]].
        -- left. exists q'. split; [exact He' |].
           intros below. rewrite (unclosed_other q p below c r Hno Hnc).
           apply Hq'.
        -- destruct Hn as [E2 [R2 [C2 [L2 [B2 [S2 [T2 U2]]]]]]].
           right. exists s2, p2, t2.
           split; [exact E2 |]. split; [exact R2 |].
           split; [exact C2 |]. split; [simpl; lia |].
           split; [exact B2 |]. split; [exact S2 |].
           split; [exact T2 |].
           intros below. rewrite (unclosed_other q p below c r Hno Hnc).
           apply U2.
Qed.

Lemma unclosed_nothing (p : SourcePos) (text : list Z) :
  unclosed [] p text = None.
Proof. destruct text; reflexivity. Qed.

(** on an opening brace, [get_token] skips the comment and starts again *)
Lemma get_token_on_brace (fuel : nat) (s : State) (token : Token) :
  ch s = C "{" ->
  get_token (S fuel) s token
  = bind (skip_comment (2 * rounds (set_col s (column_number s)))
                       (set_col s (column_number s)))
         (fun s' => get_token fuel s' token).
Proof.
  intros H.
  assert (Hsp : isspace (ch s) = false) by (rewrite H; reflexivity).
  cbn [get_token]. rewrite (skip_space_none s Hsp). cbn [bind].
  assert (H1 : (ch s =? NEWLINE) = false) by (rewrite H; reflexivity).
  rewrite H1.
  assert (H2 : isascii (ch s) = true) by (rewrite H; reflexivity).
  rewrite H2. cbn [negb andb bind].
  simpl ch. rewrite H. reflexivity.
Qed.

(** C8 (amended).  A comment that the end of the file leaves open stops the
    scanner with "comment not closed" at the position of the opening brace
    of the innermost comment that is still open there: the brace of the
    comment itself when every comment nested in it is closed, the brace of
    a nested comment when that one is left open too.  (Comments in which no
    closing brace has an opening brace right behind it.) *)
Theorem scanner_comment_not_closed (fuel : nat) (s : State) (token : Token)
    (p q : SourcePos) (text : list Z) :
  reads s (C "{" :: text) -> coherent s p ->
  Forall is_byte text -> separated text = true ->
  unclosed [p] (next_pos p (C "{")) text = Some q ->
  get_token (S fuel) s token = Fatal q "comment not closed" [].
Proof.
  intros Hr Hc Hb Hsep Hu.
  assert (Hch : ch s = C "{") by (destruct Hr; assumption).
  rewrite (get_token_on_brace fuel s token Hch).
  set (s0 := set_col s (column_number s)).
  assert (Hr0 : reads s0 (C "{" :: text)) by (apply reads_set_col; exact Hr).
  assert (Hc0 : coherent s0 p) by exact Hc.
  assert (Hrounds : rounds s0 = S (S (List.length text)))
    by (apply (reads_rounds s0 (C "{") text Hr0)).
  pose proof (skip_comment_level (List.length text) text (2 * rounds s0) s0 p
                (skip_comment_loop_levels (List.length text))
                (Nat.le_refl _) ltac:(lia) Hr0 Hc0 Hb Hsep) as Hlevel.
  destruct Hlevel as [[q' [He Hq']] | [s' [p' [text' Hin]]]].
  - rewrite He. cbn [bind]. specialize (Hq' []). rewrite Hu in Hq'.
    now injection Hq' as ->.
  - destruct Hin as [_ [_ [_ [_ [_ [_ [_ Hu']]]]]]].
    specialize (Hu' []). rewrite Hu, unclosed_nothing in Hu'. discriminate.
Qed.

Lemma scanner_comment_not_closed_witness :
  get_token 1 (scanner_on "{ {a} b") no_token
  = Fatal (mkPos 1 1) "comment not closed" [] /\
  get_token 1 (scanner_on "{ {") no_token
  = Fatal (mkPos 1 3) "comment not closed" [].
Proof.
  split.
  - apply (scanner_comment_not_closed 0 (scanner_on "{ {a} b") no_token
             (mkPos 1 1) (mkPos 1 1) [32; 123; 97; 125; 32; 98]).
    + split; reflexivity.
    + repeat split.
    + repeat constructor; unfold is_byte; lia.
    + reflexivity.
    + reflexivity.
  - apply (scanner_comment_not_closed 0 (scanner_on "{ {") no_token
             (mkPos 1 1) (mkPos 1 3) [32; 123]).
    + split; reflexivity.
    + repeat split.
    + repeat constructor; unfold is_byte; lia.
    + reflexivity.
    + reflexivity.
Defined.

(** C8 (counterexample).  The file holds an opening brace in column 1, a
    blank, and an opening brace in column 3: the error is reported in
    column 3, at the inner brace. *)
Lemma scanner_comment_reports_inner_brace :
  ch (scanner_on "{ {") = C "{" /\
  mkPos (line (position (scanner_on "{ {"))) (column_number (scanner_on "{ {"))
  = mkPos 1 1 /\
  get_token 1 (scanner_on "{ {") no_token
  = Fatal (mkPos 1 3) "comment not closed" [].
Proof. split; [| split]; reflexivity. Qed.

End Comments.

(** ** The compiler as a whole *)

Section Compiler.

Import Tok Scanner Parser Spec.

(** a token other than the expected one ends the run through
    [abort_compile], with status 0 *)
Lemma expect_mismatch (c : Compiler) (ty : TokenType) :
  type (token c) <> ty -> expect ty c = Exit 0.
Proof.
  intros H. unfold expect, bindM, tok_type. simpl.
  unfold eqb. destruct (TokenType_eq_dec (type (token c)) ty);
    [contradiction | reflexivity].
Qed.

(** C1 (the code departs from the claim).  For a source that starts with
    [begin], the first token is not [source]; [expect] calls
    [abort_compile], whose first statement is [exit(0)]: the run ends at
    this syntax error with exit status 0. *)
Theorem syntax_error_exits_with_status_zero :
  main (file_of_string headless_source) = Exit 0 /\
  is_success (main (file_of_string headless_source)) = true.
Proof. split; vm_compute; reflexivity. Qed.

(** C2 (the code departs from the claim).  The source declares [b] boolean
    and assigns the number 1 to it.  [parse_assign] compares no types and
    nothing calls [check_types]: the parse runs to the end, the store is
    emitted, and [main] returns [EXIT_SUCCESS]. *)
Theorem ill_typed_assignment_is_accepted :
  verdict (main (file_of_string ill_typed_source))
  = Ret (EXIT_SUCCESS,
         [init_code_generation; set_class_name "P";
          init_subroutine_codegen "main" (idprop TYPE_NONE 0 1 []);
          gen_2 JVM_LDC 1; gen_2 JVM_ISTORE 0; gen_1 JVM_RETURN;
          close_subroutine_codegen 2]).
Proof. vm_compute. reflexivity. Qed.

End Compiler.


(* ========================================================================= *)
(** * Further properties *)

(** ** The hash table *)

Section TableUse.

Import HashTable SymbolTable Spec.

Variables K V : Type.

(** X1.  A table that [ht_init] has just made has 31 empty buckets and no
    entry, whatever the load factor and the two functions are; a search finds
    nothing in it, for every key whose hash is an index of the table *)
Theorem ht_init_empty (lf : Q) (h : K -> Z -> Z) (c : K -> K -> Z) :
  exists ht,
    @ht_init K V lf h c = Ret ht /\
    size ht = 31 /\ HashTable.table ht = repeat [] 31 /\
    num_entries ht = 0 /\ idx ht = INITIAL_DELTA_INDEX + 1 /\
    forall k : K,
      ht_search ht k =
      if (0 <=? CInt.to_int (h k 31)) && (CInt.to_int (h k 31) <? 31)
      then Ret (@None V) else Undefined "bucket index outside the table".
Proof.
  exists (mkHashTab (repeat [] 31) 31 0 lf 5 h c).
  split; [reflexivity |]. repeat split.
  intros k. unfold ht_search, bucket. cbn [size hash HashTable.table].
  rewrite repeat_length.
  change (Z.of_nat 31) with 31.
  destruct ((0 <=? CInt.to_int (h k 31)) && (CInt.to_int (h k 31) <? 31))
    eqn:Hin; [| reflexivity].
  apply andb_true_iff in Hin. destruct Hin as [H0 H1].
  apply Z.leb_le in H0. apply Z.ltb_lt in H1.
  destruct (nth_error (repeat (@nil (HTentry K V)) 31)
              (Z.to_nat (CInt.to_int (h k 31)))) as [b |] eqn:E.
  - apply nth_error_In, repeat_spec in E. subst b. reflexivity.
  - apply nth_error_None in E. rewrite repeat_length in E. lia.
Qed.


(** [ht_insert] when the load stays within the factor: the entry is linked
    behind the last one of its chain, and the count goes up by one *)
Lemma ht_insert_within_load (ht : HashTab K V) (k : K) (v : V) :
  hashes_inside ht k -> within_load ht = true ->
  exists c,
    nth_error (HashTable.table ht)
              (Z.to_nat (CInt.to_int (hash ht k (size ht)))) = Some c /\
    ht_insert ht k v =
    Ret (EXIT_SUCCESS,
         set_num_entries
           (set_table ht
              (firstn (Z.to_nat (CInt.to_int (hash ht k (size ht))))
                      (HashTable.table ht)
               ++ (c ++ [mkEntry k v])
                  :: skipn (S (Z.to_nat (CInt.to_int (hash ht k (size ht)))))
                           (HashTable.table ht)))
           (CInt.to_unsigned (num_entries ht + 1))).
Proof.
  intros Hin Hload. unfold hashes_inside in Hin. unfold within_load in Hload.
  destruct (bucket_append_Ret K V (HashTable.table ht)
              (CInt.to_int (hash ht k (size ht))) (mkEntry k v) Hin)
    as [c [Hn Ha]].
  exists c. split; [exact Hn |].
  unfold ht_insert. rewrite Ha. cbn [bind set_table set_num_entries
    num_entries max_loadfactor size].
  rewrite Hload. reflexivity.
Qed.

(** X2.  A search after an insertion that leaves the table its size: the key
    that went in is found, with the value an older entry for it holds when
    there is one, since the new entry stands last in the chain *)
Theorem ht_insert_then_search (ht : HashTab K V) (k : K) (v : V) :
  hashes_inside ht k -> within_load ht = true -> cmp ht k k = 0 ->
  exists ht' old,
    ht_insert ht k v = Ret (EXIT_SUCCESS, ht') /\
    ht_search ht k = Ret old /\
    ht_search ht' k =
    Ret (Some (match old with Some o => o | None => v end)).
Proof.
  intros Hin Hload Hkk.
  destruct (ht_insert_within_load ht k v Hin Hload) as [c [Hn Hi]].
  destruct (bucket_in_range K V (HashTable.table ht)
              (CInt.to_int (hash ht k (size ht))) Hin) as [c' [Hn' Hb]].
  assert (c' = c) by congruence. subst c'.
  eexists. exists (chain_search (cmp ht) k c).
  split; [exact Hi |]. split.
  - unfold ht_search. rewrite Hb. reflexivity.
  - unfold ht_search, bucket.
    cbn [set_num_entries set_table HashTable.table size hash cmp].
    rewrite (length_replace _ _ _ c _ Hn).
    unfold hashes_inside in Hin.
    destruct (Z.leb_spec 0 (CInt.to_int (hash ht k (size ht)))); [| lia].
    destruct (Z.ltb_spec (CInt.to_int (hash ht k (size ht)))
                (Z.of_nat (List.length (HashTable.table ht)))); [| lia].
    cbn [andb].
    rewrite (nth_error_replace _ _ _
               (Z.to_nat (CInt.to_int (hash ht k (size ht)))) c _ Hn).
    rewrite Nat.eqb_refl. cbn [bind]. f_equal.
    rewrite chain_search_app.
    destruct (chain_search (cmp ht) k c); [reflexivity |].
    cbn [chain_search key value]. rewrite Hkk. reflexivity.
Qed.

(** X3.  Such an insertion changes the answer of no search for a key that the
    comparison function tells from the one that went in *)
Theorem ht_insert_keeps_other_keys (ht : HashTab K V) (k k' : K) (v : V) :
  hashes_inside ht k -> within_load ht = true -> cmp ht k' k <> 0 ->
  exists ht',
    ht_insert ht k v = Ret (EXIT_SUCCESS, ht') /\
    ht_search ht' k' = ht_search ht k'.
Proof.
  intros Hin Hload Hne.
  destruct (ht_insert_within_load ht k v Hin Hload) as [c [Hn Hi]].
  eexists. split; [exact Hi |].
  unfold ht_search, bucket.
  cbn [set_num_entries set_table HashTable.table size hash cmp].
  rewrite (length_replace _ _ _ c _ Hn).
  destruct ((0 <=? CInt.to_int (hash ht k' (size ht)))
            && (CInt.to_int (hash ht k' (size ht))
                <? Z.of_nat (List.length (HashTable.table ht))));
    [| reflexivity].
  rewrite (nth_error_replace _ _ _
             (Z.to_nat (CInt.to_int (hash ht k' (size ht)))) c _ Hn).
  destruct (Nat.eqb_spec (Z.to_nat (CInt.to_int (hash ht k' (size ht))))
              (Z.to_nat (CInt.to_int (hash ht k (size ht))))) as [E | E];
    [| reflexivity].
  rewrite E, Hn. cbn [bind]. f_equal.
  rewrite chain_search_app.
  destruct (chain_search (cmp ht) k' c); [reflexivity |].
  cbn [chain_search key value].
  destruct (Z.eqb_spec (cmp ht k' k) 0); [contradiction | reflexivity].
Qed.

End TableUse.

Section TableUseExamples.

Import HashTable SymbolTable Spec.

Lemma ht_insert_then_search_witness :
  exists ht' old,
    ht_insert one_entry_table "f" variable_prop = Ret (EXIT_SUCCESS, ht') /\
    ht_search one_entry_table "f" = Ret old /\
    ht_search ht' "f" =
    Ret (Some (match old with Some o => o | None => variable_prop end)).
Proof.
  apply (ht_insert_then_search string IDprop one_entry_table "f" variable_prop).
  - unfold hashes_inside. vm_compute. split; [discriminate | reflexivity].
  - reflexivity.
  - reflexivity.
Defined.

Lemma ht_insert_keeps_other_keys_witness :
  exists ht',
    ht_insert one_entry_table "v" variable_prop = Ret (EXIT_SUCCESS, ht') /\
    ht_search ht' "f" = ht_search one_entry_table "f".
Proof.
  apply (ht_insert_keeps_other_keys string IDprop one_entry_table "v" "f"
           variable_prop).
  - unfold hashes_inside. vm_compute. split; [discriminate | reflexivity].
  - reflexivity.
  - vm_compute. discriminate.
Defined.

End TableUseExamples.

(** ** The tables of the symbol table *)

Section TableInvariant.

Import HashTable SymbolTable Spec.

Lemma matching_app (id : string) (l1 l2 : list (HTentry string IDprop)) :
  matching id (l1 ++ l2) = matching id l1 ++ matching id l2.
Proof. apply filter_app. Qed.

Lemma matching_none (id : string) (l : list (HTentry string IDprop)) :
  (forall e, In e l -> key e <> id) -> matching id l = [].
Proof.
  induction l as [| e l IH]; intros H; [reflexivity |].
  unfold matching in *. cbn [filter].
  destruct (Z.eqb_spec (key_strcmp id (key e)) 0) as [E | E].
  - apply strcmp_eq in E. exfalso. apply (H e); [now left | now symmetry].
  - apply IH. intros e' He'. apply H. now right.
Qed.

(** a search along a chain returns the first of the matching entries *)
Lemma chain_search_matching (id : string) (l : list (HTentry string IDprop)) :
  chain_search key_strcmp id l
  = option_map (@value string IDprop) (hd_error (matching id l)).
Proof.
  induction l as [| e l IH]; [reflexivity |].
  unfold matching in *. cbn [chain_search filter].
  destruct (key_strcmp id (key e) =? 0); [reflexivity | exact IH].
Qed.

Lemma split_at (A : Type) (t : list A) (k : nat) (c : A) :
  nth_error t k = Some c ->
  exists l1 l2, t = l1 ++ c :: l2 /\ firstn k t = l1 /\ skipn (S k) t = l2 /\
                List.length l1 = k.
Proof.
  intros H. destruct (nth_error_split t k H) as [l1 [l2 [Ht Hl]]].
  exists l1, l2. subst t. split; [reflexivity |].
  split; [| split; [| exact Hl]].
  - rewrite <- Hl. rewrite firstn_app, Nat.sub_diag, firstn_all. cbn [firstn].
    now rewrite app_nil_r.
  - rewrite <- Hl.
    replace (l1 ++ c :: l2) with ((l1 ++ [c]) ++ l2)
      by (rewrite <- app_assoc; reflexivity).
    rewrite skipn_app.
    rewrite (skipn_all2 (l1 ++ [c]))
      by (rewrite length_app; cbn [List.length]; lia).
    replace (S (List.length l1) - List.length (l1 ++ [c]))%nat with 0%nat
      by (rewrite length_app; cbn [List.length]; lia).
    reflexivity.
Qed.

Lemma nth_error_past (A : Type) (l1 l2 : list A) (c : A) (j : nat) :
  nth_error (l1 ++ c :: l2) (S (List.length l1) + j) = nth_error l2 j.
Proof. induction l1 as [| b l1 IH]; [reflexivity | exact IH]. Qed.

(** linking [p] into the bucket of its hash puts it behind every entry of
    the same key *)
Lemma bucket_append_matching (t t' : list (list (HTentry string IDprop)))
    (size : Z) (p : HTentry string IDprop) (id : string) :
  31 <= size <= CInt.INT_MAX ->
  Z.of_nat (List.length t) = size ->
  placed t size = true ->
  bucket_append t (shift_hash (key p) size) p = Ret t' ->
  matching id (List.concat t') = matching id (List.concat t) ++ matching id [p]
  /\ List.length (List.concat t') = S (List.length (List.concat t)).
Proof.
  intros Hs Hl Hp Ha.
  assert (Hb : 0 <= shift_hash (key p) size < size - 1).
  { apply shift_hash_bound. unfold CInt.INT_MAX, CInt.UINT_MOD in *. lia. }
  destruct (bucket_append_Ret string IDprop t (shift_hash (key p) size) p)
    as [c [Hn Ha']]; [lia |].
  assert (t' = firstn (Z.to_nat (shift_hash (key p) size)) t
               ++ (c ++ [p])
                  :: skipn (S (Z.to_nat (shift_hash (key p) size))) t)
    as -> by congruence.
  destruct (split_at _ t _ c Hn) as [l1 [l2 [Ht [Hf [Hk Hlen]]]]].
  rewrite Hf, Hk. rewrite Ht at 1 2.
  rewrite !concat_app, !concat_cons, !matching_app, !length_app.
  split; [| simpl; lia].
  rewrite <- !app_assoc. f_equal. f_equal.
  assert (Hone : matching id [p]
                 = if key_strcmp id (key p) =? 0 then [p] else [])
    by reflexivity.
  rewrite Hone.
  destruct (Z.eqb_spec (key_strcmp id (key p)) 0) as [E | E];
    [| now rewrite app_nil_r].
  apply strcmp_eq in E.
  rewrite (matching_none id (List.concat l2)); [reflexivity |].
  intros e He Hke. apply in_concat_nth in He. destruct He as [j [c' [Hj Hec]]].
  pose proof (placed_spec t size Hp (S (List.length l1) + j)%nat c' e) as Hpl.
  rewrite Ht in Hpl at 1. rewrite nth_error_past in Hpl.
  specialize (Hpl Hj Hec). rewrite Hke, E in Hpl.
  rewrite to_int_small in Hpl by lia. lia.
Qed.

Lemma relocate_matching (size : Z) (c : list (HTentry string IDprop))
    (t t' : list (list (HTentry string IDprop))) (id : string) :
  31 <= size <= CInt.INT_MAX ->
  Z.of_nat (List.length t) = size ->
  placed t size = true ->
  relocate shift_hash size c t = Ret t' ->
  matching id (List.concat t') = matching id (List.concat t) ++ matching id c
  /\ List.length (List.concat t')
     = (List.length (List.concat t) + List.length c)%nat.
Proof.
  intros Hs. revert t.
  induction c as [| this rest IH]; intros t Hl Hp Hr; cbn [relocate] in Hr.
  - injection Hr as <-. rewrite app_nil_r. split; [reflexivity | simpl; lia].
  - destruct (bucket_append_wf t size this Hs Hl Hp)
      as [t1 [Ha [Hl1 [Hp1 _]]]].
    rewrite Ha in Hr. cbn [bind] in Hr.
    destruct (bucket_append_matching t t1 size this id Hs Hl Hp Ha)
      as [Hm1 Hc1].
    destruct (IH t1 Hl1 Hp1 Hr) as [Hm Hc].
    rewrite Hm, Hm1, Hc, Hc1. split; [| simpl; lia].
    rewrite <- app_assoc. rewrite <- matching_app. reflexivity.
Qed.

Lemma relocate_all_matching (size : Z)
    (old t t' : list (list (HTentry string IDprop))) (id : string) :
  31 <= size <= CInt.INT_MAX ->
  Z.of_nat (List.length t) = size ->
  placed t size = true ->
  relocate_all shift_hash size old t = Ret t' ->
  matching id (List.concat t')
  = matching id (List.concat t) ++ matching id (List.concat old)
  /\ List.length (List.concat t')
     = (List.length (List.concat t) + List.length (List.concat old))%nat.
Proof.
  intros Hs. revert t.
  induction old as [| c rest IH]; intros t Hl Hp Hr; cbn [relocate_all] in Hr.
  - injection Hr as <-. rewrite app_nil_r. split; [reflexivity | simpl; lia].
  - destruct (relocate_wf size c t Hs Hl Hp) as [t1 [Ha [Hl1 [Hp1 _]]]].
    rewrite Ha in Hr. cbn [bind] in Hr.
    destruct (relocate_matching size c t t1 id Hs Hl Hp Ha) as [Hm1 Hc1].
    destruct (IH t1 Hl1 Hp1 Hr) as [Hm Hc].
    rewrite Hm, Hm1, Hc, Hc1. cbn [List.concat].
    rewrite matching_app, length_app. split; [| lia].
    rewrite <- app_assoc. reflexivity.
Qed.

Lemma concat_repeat_nil (A : Type) (n : nat) :
  List.concat (repeat (@nil A) n) = [].
Proof. induction n as [| n IH]; [reflexivity | exact IH]. Qed.

(** X4.  The relinking loop of [rehash], run on a table of the symbol table
    and an array of [n] empty buckets: every entry is moved to the bucket of
    its hash for the size [n], none is lost or made twice, and with the new
    array and size in place every search gives what it gave before *)
Theorem rehash_loop_keeps_searches (ht : Table) (n : Z) :
  wf ht -> 31 <= n <= CInt.INT_MAX ->
  exists t',
    relocate_all (hash ht) n (HashTable.table ht) (repeat [] (Z.to_nat n))
    = Ret t' /\
    wf (set_size (set_table ht t') n) /\
    List.length (List.concat t') = List.length (ht_entries ht) /\
    forall id, ht_search (set_size (set_table ht t') n) id = ht_search ht id.
Proof.
  intros Hwf Hn. pose proof Hwf as [Hh Hc Hl Hs Hx Hp].
  rewrite Hh.
  destruct (relocate_all_wf n (HashTable.table ht) (repeat [] (Z.to_nat n)) Hn)
    as [t' [Hr [Hl' [Hp' _]]]].
  { rewrite repeat_length. lia. }
  { apply placed_repeat. }
  exists t'. split; [exact Hr |].
  assert (Hwf' : wf (set_size (set_table ht t') n)).
  { constructor; cbn [set_size set_table hash cmp HashTable.table size idx];
      auto. }
  split; [exact Hwf' |].
  assert (Hall : forall id,
             matching id (List.concat t') = matching id (ht_entries ht)
             /\ List.length (List.concat t') = List.length (ht_entries ht)).
  { intros id.
    destruct (relocate_all_matching n (HashTable.table ht)
                (repeat [] (Z.to_nat n)) t' id Hn) as [Hm Hlen]; auto.
    { rewrite repeat_length. lia. }
    { apply placed_repeat. }
    rewrite concat_repeat_nil in Hm, Hlen. exact (conj Hm Hlen). }
  split; [exact (proj2 (Hall "")) |].
  intros id. rewrite (ht_search_lookup _ id Hwf'), (ht_search_lookup ht id Hwf).
  f_equal. unfold lookup. rewrite !chain_search_matching.
  unfold ht_entries at 1. cbn [set_size set_table HashTable.table].
  now rewrite (proj1 (Hall id)).
Qed.

Lemma rehash_loop_keeps_searches_witness :
  exists t',
    relocate_all shift_hash 61 (HashTable.table outer_table) (repeat [] 61)
    = Ret t' /\
    wf (set_size (set_table outer_table t') 61) /\
    List.length (List.concat t') = 2%nat /\
    forall id, ht_search (set_size (set_table outer_table t') 61) id
               = ht_search outer_table id.
Proof.
  apply (rehash_loop_keeps_searches outer_table 61 wf_outer_table).
  unfold CInt.INT_MAX. lia.
Defined.

(** [ht_insert] on a table of the symbol table, when the load stays within
    the factor *)
Lemma ht_insert_room (ht : Table) (k : string) (v : IDprop) :
  wf ht -> within_load ht = true ->
  exists ht',
    ht_insert ht k v = Ret (EXIT_SUCCESS, ht') /\
    wf ht' /\ size ht' = size ht /\ idx ht' = idx ht /\
    max_loadfactor ht' = max_loadfactor ht /\
    num_entries ht' = CInt.to_unsigned (num_entries ht + 1) /\
    (forall id, matching id (ht_entries ht')
                = matching id (ht_entries ht) ++ matching id [mkEntry k v]) /\
    List.length (ht_entries ht') = S (List.length (ht_entries ht)).
Proof.
  intros Hwf Hload.
  pose proof (hash_index ht k Hwf) as [Hk Hr]. cbn zeta in Hk, Hr.
  pose proof Hwf as [Hh Hc Hl Hs Hx Hp].
  assert (Hin : hashes_inside ht k) by (unfold hashes_inside; lia).
  destruct (ht_insert_within_load string IDprop ht k v Hin Hload)
    as [c [Hn Hi]].
  destruct (bucket_append_wf (HashTable.table ht) (size ht) (mkEntry k v)
              Hs Hl Hp) as [t1 [Ha [Hl1 [Hp1 _]]]].
  assert (Hm : forall id,
             matching id (List.concat t1)
             = matching id (List.concat (HashTable.table ht))
               ++ matching id [mkEntry k v]
             /\ List.length (List.concat t1)
                = S (List.length (List.concat (HashTable.table ht)))).
  { intros id.
    exact (bucket_append_matching (HashTable.table ht) t1 (size ht)
             (mkEntry k v) id Hs Hl Hp Ha). }
  cbn [key] in Ha. rewrite <- Hk in Ha.
  destruct (bucket_append_Ret string IDprop (HashTable.table ht)
              (CInt.to_int (hash ht k (size ht))) (mkEntry k v))
    as [c' [Hn' Ha']]; [exact Hin |].
  assert (c' = c) by congruence. subst c'.
  assert (Ht1 : firstn (Z.to_nat (CInt.to_int (hash ht k (size ht))))
                       (HashTable.table ht)
                ++ (c ++ [mkEntry k v])
                   :: skipn (S (Z.to_nat (CInt.to_int (hash ht k (size ht)))))
                            (HashTable.table ht) = t1) by congruence.
  rewrite Ht1 in Hi.
  eexists. split; [exact Hi |].
  split; [| repeat split].
  - constructor; cbn [set_num_entries set_table hash cmp HashTable.table size
                      idx]; auto.
  - intros id. unfold ht_entries.
    cbn [set_num_entries set_table HashTable.table]. exact (proj1 (Hm id)).
  - unfold ht_entries. cbn [set_num_entries set_table HashTable.table].
    exact (proj2 (Hm "")).
Qed.

(** what a table of the symbol table holds for a name after such an
    insertion *)
Lemma lookup_after_insert (ht ht' : Table) (k : string) (v : IDprop) :
  (forall id, matching id (ht_entries ht')
              = matching id (ht_entries ht) ++ matching id [mkEntry k v]) ->
  forall id,
    lookup id ht' =
    match lookup id ht with
    | Some o => Some o
    | None => if key_strcmp id k =? 0 then Some v else None
    end.
Proof.
  intros Hm id. unfold lookup. rewrite !chain_search_matching, Hm.
  destruct (matching id (ht_entries ht)) as [| e l]; [| reflexivity].
  cbn [app hd_error option_map]. unfold matching. cbn [filter key].
  destruct (key_strcmp id k =? 0); reflexivity.
Qed.

(** X5.  An insertion that leaves the table its size keeps what [ht_init] set
    up: every entry in the bucket of its hash, as many buckets as the size
    says, and [num_entries] the number of entries *)
Theorem ht_insert_keeps_invariant (ht : Table) (k : string) (v : IDprop) :
  wf ht -> counted ht -> within_load ht = true ->
  exists ht',
    ht_insert ht k v = Ret (EXIT_SUCCESS, ht') /\
    wf ht' /\ counted ht' /\ size ht' = size ht /\
    List.length (ht_entries ht') = S (List.length (ht_entries ht)).
Proof.
  intros Hwf Hcnt Hload.
  destruct (ht_insert_room ht k v Hwf Hload)
    as [ht' [Hi [Hwf' [Hs [_ [_ [Hne [_ Hlen]]]]]]]].
  exists ht'. split; [exact Hi |]. split; [exact Hwf' |].
  split; [| split; [exact Hs | exact Hlen]].
  unfold counted in *. rewrite Hne, Hlen, Hcnt. unfold CInt.to_unsigned.
  rewrite Zplus_mod_idemp_l. f_equal. lia.
Qed.

Lemma ht_insert_keeps_invariant_witness :
  exists ht',
    ht_insert one_entry_table "v" variable_prop = Ret (EXIT_SUCCESS, ht') /\
    wf ht' /\ counted ht' /\ size ht' = 31 /\
    List.length (ht_entries ht') = 2%nat.
Proof.
  apply (ht_insert_keeps_invariant one_entry_table "v" variable_prop).
  - exact wf_one_entry_table.
  - reflexivity.
  - reflexivity.
Defined.

(** X6.  [shift_hash] reduces modulo the size less one, so no key goes to the
    last bucket of a table: that bucket stays empty *)
Theorem last_bucket_stays_empty (ht : Table) :
  wf ht ->
  nth_error (HashTable.table ht) (Z.to_nat (size ht - 1)) = Some [].
Proof.
  intros [Hh Hc Hl Hs Hx Hp].
  destruct (nth_error (HashTable.table ht) (Z.to_nat (size ht - 1)))
    as [c |] eqn:E.
  - destruct c as [| e c]; [reflexivity |]. exfalso.
    pose proof (placed_spec _ _ Hp _ _ e E (or_introl eq_refl)) as Hpl.
    assert (Hb : 0 <= shift_hash (key e) (size ht) < size ht - 1).
    { apply shift_hash_bound. unfold CInt.INT_MAX, CInt.UINT_MOD in *. lia. }
    rewrite to_int_small in Hpl by lia. lia.
  - apply nth_error_None in E. lia.
Qed.

Lemma last_bucket_stays_empty_witness :
  nth_error (HashTable.table outer_table) 30 = Some [].
Proof. exact (last_bucket_stays_empty outer_table wf_outer_table). Defined.

End TableInvariant.

(** ** The sizes of the bucket array *)

Section Sizes.

Import HashTable SymbolTable Spec.

Variables K V : Type.

(** X7.  [getsize] advances the index into [delta] and returns the prime that
    [delta] places below the power of two of the new index, more than the
    power of two before it, so the table about doubles; [delta] ends at index
    31, and with the index there [getsize] reads outside the array *)
Theorem getsize_next_prime (ht : HashTab K V) :
  (INITIAL_DELTA_INDEX <= idx ht <= 29 ->
   exists n,
     getsize ht = Ret (n, set_idx ht (idx ht + 1)) /\
     n = 2 ^ (idx ht + 1) - nth (Z.to_nat (idx ht + 1)) delta 0 /\
     2 ^ idx ht < n < 2 ^ (idx ht + 1)) /\
  (31 <= idx ht -> getsize ht = Undefined "index outside delta").
Proof.
  split.
  - intros Hi. unfold INITIAL_DELTA_INDEX in Hi.
    destruct ht as [t sz ne lf i h c]. cbn [idx] in *.
    assert (Hin : In i (map Z.of_nat (seq 4 26))).
    { apply in_map_iff. exists (Z.to_nat i). split; [lia |].
      apply in_seq. lia. }
    cbn [seq map] in Hin.
    repeat (destruct Hin as [<- | Hin];
            [eexists; split; [reflexivity |];
             split; [reflexivity | split; reflexivity] |]).
    destruct Hin.
  - intros Hi. unfold getsize.
    destruct (nth_error delta (Z.to_nat (idx ht + 1))) as [d |] eqn:E;
      [| reflexivity].
    assert (Hlt : (Z.to_nat (idx ht + 1) < List.length delta)%nat)
      by (apply nth_error_Some; congruence).
    simpl in Hlt. lia.
Qed.

End Sizes.

Section SizesExamples.

Import HashTable SymbolTable Spec.

Lemma getsize_next_prime_witness :
  (exists n,
     getsize empty_table = Ret (n, set_idx empty_table 6) /\
     n = 61 /\ 32 < n < 64) /\
  getsize (set_idx empty_table 31) = Undefined "index outside delta".
Proof.
  split.
  - apply (proj1 (getsize_next_prime string IDprop empty_table)).
    unfold INITIAL_DELTA_INDEX. simpl. lia.
  - apply (proj2 (getsize_next_prime string IDprop (set_idx empty_table 31))).
    simpl. lia.
Defined.

End SizesExamples.

(** ** The symbol table *)

Section Names.

Import HashTable SymbolTable Spec.

(** X8.  A name that has been inserted is found: [find_name] returns [TRUE]
    for it and hands out the properties the entry was made with, those of the
    caller or, when the saved table holds the name as a non-callable, the ones
    of that entry *)
Theorem insert_name_then_find_name (st : SymTab) (inner : Table)
    (id : string) (prop : IDprop) :
  SymbolTable.table st = Some inner -> wf inner ->
  within_load inner = true ->
  (forall outer, saved_table st = Some outer -> wf outer) ->
  visible id st = false ->
  exists st',
    insert_name st id prop = Ret (true, st') /\
    forall q, find_name st' id q = Ret (true, Some (inserted st id prop)).
Proof.
  intros Ht Hwf Hload Ho Hv.
  assert (Hnone : lookup id inner = None).
  { unfold visible in Hv. rewrite Ht in Hv.
    destruct (lookup id inner); [discriminate | reflexivity]. }
  assert (Hf : find_name st id (Some prop)
               = Ret (false, Some (inserted st id prop))).
  { unfold find_name, inserted. rewrite Ht.
    rewrite (ht_search_lookup inner id Hwf), Hnone. cbn [bind].
    unfold visible in Hv. rewrite Ht, Hnone in Hv.
    destruct (saved_table st) as [outer |] eqn:Hs; [| reflexivity].
    rewrite (ht_search_lookup outer id (Ho outer eq_refl)). cbn [bind].
    destruct (lookup id outer) as [p |]; [| reflexivity].
    rewrite Hv. reflexivity. }
  destruct (ht_insert_room inner id (inserted st id prop) Hwf Hload)
    as [inner' [Hi [Hwf' [_ [_ [_ [_ [Hm _]]]]]]]].
  eexists. split.
  - unfold insert_name. rewrite Hf. cbn [bind fst snd negb].
    rewrite Ht, Hi. cbn [bind fst snd]. reflexivity.
  - intros q. unfold find_name. cbn [SymbolTable.table].
    rewrite (ht_search_lookup inner' id Hwf').
    rewrite (lookup_after_insert inner inner' id (inserted st id prop) Hm id).
    rewrite Hnone. unfold key_strcmp. rewrite strcmp_refl. reflexivity.
Qed.

Lemma insert_name_then_find_name_witness :
  exists st',
    insert_name nested_state "v" callable_prop = Ret (true, st') /\
    forall q, find_name st' "v" q = Ret (true, Some variable_prop).
Proof.
  apply (insert_name_then_find_name nested_state empty_table "v" callable_prop
           eq_refl wf_empty_table eq_refl).
  - intros outer H. injection H as <-. exact wf_outer_table.
  - reflexivity.
Defined.

(** X9.  Whenever a call of [insert_name] returns, with [TRUE] or with
    [FALSE], [find_name] answers for every other name what it answered before
    the call; and the call does return when the name is visible, and when
    the new entry leaves the table within its load factor *)
Theorem insert_name_keeps_other_names (st : SymTab) (inner : Table)
    (id id' : string) (prop : IDprop) :
  SymbolTable.table st = Some inner -> wf inner ->
  (forall outer, saved_table st = Some outer -> wf outer) ->
  id' <> id ->
  (visible id st || within_load inner = true ->
   exists b st', insert_name st id prop = Ret (b, st')) /\
  (forall b st',
     insert_name st id prop = Ret (b, st') ->
     forall q, find_name st' id' q = find_name st id' q).
Proof.
  intros Ht Hwf Ho Hne.
  destruct (find_name_found st inner id prop Ht Hwf Ho) as [p Hf].
  unfold insert_name. rewrite Hf. cbn [bind fst snd].
  destruct (visible id st); cbn [negb orb].
  - split; [intros _; now exists false, st |].
    intros b st' H. injection H as _ <-. reflexivity.
  - rewrite Ht. destruct (within_load inner) eqn:Hload.
    + destruct (ht_insert_room inner id p Hwf Hload)
        as [inner' [Hi [Hwf' [_ [_ [_ [_ [Hm _]]]]]]]].
      rewrite Hi. cbn [bind fst snd].
      split; [intros _; eexists; eexists; reflexivity |].
      intros b st' H.
      assert (st' = mkSymTab (Some inner') (saved_table st) (curr_offset st))
        as -> by (destruct (EXIT_SUCCESS =? 0); congruence).
      intros q. unfold find_name. cbn [SymbolTable.table saved_table].
      rewrite Ht.
      rewrite (ht_search_lookup inner' id' Hwf'),
              (ht_search_lookup inner id' Hwf).
      rewrite (lookup_after_insert inner inner' id p Hm id').
      destruct (lookup id' inner); [reflexivity |].
      destruct (Z.eqb_spec (key_strcmp id' id) 0) as [E | E]; [| reflexivity].
      apply strcmp_eq in E. contradiction.
    + destruct (ht_insert_past_load inner id p Hwf Hload) as [why Hi].
      rewrite Hi. cbn [bind].
      split; [discriminate | intros b st' H; discriminate H].
Qed.

Lemma insert_name_keeps_other_names_witness :
  (exists b st',
     insert_name opened_state "v" variable_prop = Ret (b, st') /\
     forall q, find_name st' "f" q = find_name opened_state "f" q) /\
  (exists b st',
     insert_name crowded_state "a" callable_prop = Ret (b, st') /\
     forall q, find_name st' "b" q = find_name crowded_state "b" q).
Proof.
  split.
  - destruct (insert_name_keeps_other_names opened_state one_entry_table
                "v" "f" variable_prop eq_refl wf_one_entry_table
                ltac:(intros outer H; discriminate H)
                ltac:(discriminate)) as [Hret Hkeep].
    destruct (Hret eq_refl) as [b [st' H]].
    exists b, st'. split; [exact H | exact (Hkeep b st' H)].
  - destruct (insert_name_keeps_other_names crowded_state crowded_table
                "a" "b" callable_prop eq_refl wf_crowded_table
                ltac:(intros outer H; discriminate H)
                ltac:(discriminate)) as [Hret Hkeep].
    destruct (Hret eq_refl) as [b [st' H]].
    exists b, st'. split; [exact H | exact (Hkeep b st' H)].
Defined.

(** X10.  [open_subroutine] does not look the name up: it links an entry for
    it into the current table and returns [TRUE] also when the table holds the
    name already; the older entry stays first in its chain, so [find_name]
    goes on returning the properties of the older entry *)
Theorem open_subroutine_never_fails (st : SymTab) (t : Table) (id : string)
    (prop : IDprop) :
  SymbolTable.table st = Some t -> wf t -> within_load t = true ->
  exists st',
    open_subroutine st id prop = Ret (true, st') /\
    saved_table st' = saved_table st /\
    forall q,
      find_name st' id q
      = Ret (true, Some (match lookup id t with
                         | Some older => older
                         | None => prop
                         end)).
Proof.
  intros Ht Hwf Hload.
  destruct (ht_insert_room t id prop Hwf Hload)
    as [t' [Hi [Hwf' [_ [_ [_ [_ [Hm _]]]]]]]].
  eexists. split; [| split].
  - unfold open_subroutine. rewrite Ht, Hi. cbn [bind fst snd].
    unfold EXIT_SUCCESS. change (0 =? 0) with true. cbn iota. reflexivity.
  - reflexivity.
  - intros q. unfold find_name. cbn [SymbolTable.table].
    rewrite (ht_search_lookup t' id Hwf'). cbn [bind].
    rewrite (lookup_after_insert t t' id prop Hm id).
    unfold key_strcmp. rewrite strcmp_refl.
    destruct (lookup id t); reflexivity.
Qed.

Lemma open_subroutine_never_fails_witness :
  exists st',
    open_subroutine (mkSymTab (Some one_entry_table) None 1) "f" variable_prop
    = Ret (true, st') /\
    saved_table st' = None /\
    forall q, find_name st' "f" q = Ret (true, Some callable_prop).
Proof.
  apply (open_subroutine_never_fails
           (mkSymTab (Some one_entry_table) None 1) one_entry_table "f"
           variable_prop eq_refl wf_one_entry_table).
  reflexivity.
Defined.

(** no call of the interface writes [saved_table] or [curr_offset] *)
Lemma call_keeps_statics (st st' : SymTab) (c : Call) :
  call st c = Ret st' ->
  saved_table st' = saved_table st /\ curr_offset st' = curr_offset st.
Proof.
  destruct c as [id prop | | id prop | id]; cbn [call]; intros H.
  - apply bind_Ret in H. destruct H as [[b st1] [H1 H]].
    injection H as <-. cbn [snd].
    unfold open_subroutine in H1.
    destruct (SymbolTable.table st) as [t |]; [| discriminate].
    apply bind_Ret in H1. destruct H1 as [[r t'] [_ H1]]. cbn [fst snd] in H1.
    destruct (r =? 0); injection H1 as _ <-; split; reflexivity.
  - unfold close_subroutine in H.
    destruct (SymbolTable.table st); [| discriminate].
    injection H as <-. split; reflexivity.
  - apply bind_Ret in H. destruct H as [[b st1] [H1 H]].
    injection H as <-. cbn [snd].
    unfold insert_name in H1.
    apply bind_Ret in H1. destruct H1 as [[found p] [_ H1]].
    cbn [fst snd] in H1.
    destruct found; cbn [negb] in H1.
    + injection H1 as _ <-. split; reflexivity.
    + destruct (SymbolTable.table st) as [t |]; [| discriminate].
      destruct p as [p |]; [| discriminate].
      apply bind_Ret in H1. destruct H1 as [[r t'] [_ H1]].
      cbn [fst snd] in H1.
      destruct (r =? 0); injection H1 as _ <-; split; reflexivity.
  - apply bind_Ret in H. destruct H as [r [_ H]]. injection H as <-.
    split; reflexivity.
Qed.

Lemma calls_keep_statics (cs : list Call) (st st' : SymTab) :
  calls st cs = Ret st' ->
  saved_table st' = saved_table st /\ curr_offset st' = curr_offset st.
Proof.
  revert st. induction cs as [| c cs IH]; intros st H; cbn [calls] in H.
  - injection H as <-. split; reflexivity.
  - apply bind_Ret in H. destruct H as [st1 [H1 H]].
    destruct (call_keeps_statics st st1 c H1) as [Hs Hc].
    destruct (IH st1 H) as [Hs' Hc']. split; congruence.
Qed.

Lemma session_start (cs : list Call) :
  session cs = calls (mkSymTab (Some empty_table) None 1) cs.
Proof. reflexivity. Qed.

(** X11.  Whatever calls follow [init_symbol_table], no table is ever saved
    and the offset stays at one: the unit never has an outer scope, and
    [get_variables_width] returns 1 *)
Theorem session_never_nests (cs : list Call) (st : SymTab) :
  session cs = Ret st ->
  saved_table st = None /\ get_variables_width st = 1.
Proof.
  rewrite session_start. intros H.
  destruct (calls_keep_statics cs _ st H) as [Hs Hc].
  unfold get_variables_width. rewrite Hs, Hc. split; reflexivity.
Qed.

Lemma session_never_nests_witness :
  exists st,
    session [CallOpen "f" callable_prop; CallInsert "v" variable_prop;
             CallFind "f"] = Ret st /\
    saved_table st = None /\ get_variables_width st = 1.
Proof.
  eexists. split; [reflexivity |].
  apply (session_never_nests
           [CallOpen "f" callable_prop; CallInsert "v" variable_prop;
            CallFind "f"]).
  reflexivity.
Defined.

Lemma calls_app (cs1 cs2 : list Call) (st : SymTab) :
  calls st (cs1 ++ cs2) = (st1 <- calls st cs1 ;; calls st1 cs2)%outcome.
Proof.
  revert st. induction cs1 as [| c cs1 IH]; intros st; cbn [calls app bind].
  - reflexivity.
  - destruct (call st c) as [st1 | | | |]; cbn [bind]; auto.
Qed.

(** X12.  Once [close_subroutine] has returned the unit has no table: whatever
    was called before it, every call of the interface after it goes through a
    null pointer *)
Theorem session_after_close (cs : list Call) (st : SymTab) :
  session (cs ++ [CallClose]) = Ret st ->
  SymbolTable.table st = None /\
  forall c, exists why, call st c = Undefined why.
Proof.
  rewrite session_start, calls_app. intros H.
  apply bind_Ret in H. destruct H as [st1 [H1 H]].
  destruct (calls_keep_statics cs _ st1 H1) as [Hs _]. cbn in Hs.
  cbn [calls call bind] in H. apply bind_Ret in H. destruct H as [st2 [H2 H]].
  injection H as <-. unfold close_subroutine in H2.
  destruct (SymbolTable.table st1); [| discriminate].
  injection H2 as <-. rewrite Hs. cbn [SymbolTable.table].
  split; [reflexivity |].
  intros [id prop | | id prop | id]; eexists; reflexivity.
Qed.

Lemma session_after_close_witness :
  exists st,
    session ([CallOpen "f" callable_prop] ++ [CallClose]) = Ret st /\
    SymbolTable.table st = None /\
    forall c, exists why, call st c = Undefined why.
Proof.
  eexists. split; [reflexivity |].
  apply (session_after_close [CallOpen "f" callable_prop]). reflexivity.
Defined.

End Names.

(** ** The scanner: positions, white space, the end of the file *)

Section Walking.

Import Tok Scanner Spec.

Lemma advance_S (n : nat) (s : State) :
  advance (S n) s = advance n (next_char s).
Proof. unfold advance. apply Nat.iter_succ_r. Qed.

(** the scanner behind a part of the text it reads *)
Lemma advance_reads (pre : list Z) :
  forall (s : State) (p : SourcePos) (c : Z) (rest : list Z),
    reads s (pre ++ c :: rest) -> coherent s p ->
    Forall is_byte (pre ++ c :: rest) ->
    reads (advance (List.length pre) s) (c :: rest) /\
    coherent (advance (List.length pre) s) (pos_after p pre).
Proof.
  induction pre as [| a pre IH]; intros s p c rest Hr Hc Hb.
  - split; assumption.
  - cbn [List.length]. rewrite advance_S.
    cbn [app] in Hr, Hb.
    destruct (next_char_step s p a (pre ++ c :: rest) Hr Hc Hb) as [Hr1 Hc1].
    apply (IH (next_char s) (next_pos p a) c rest Hr1).
    + apply Hc1. destruct pre; discriminate.
    + exact (Forall_inv_tail Hb).
Qed.

(** X13.  [init_scanner] and [next_char] keep the line and the column of the
    character the scanner is on: lines and columns count from 1, and the
    character behind a line feed is in column 1 of the next line *)
Theorem next_char_tracks_position (pre : list Z) (c : Z) (rest : list Z) :
  Forall is_byte (pre ++ c :: rest) ->
  reads (advance (List.length pre) (init_scanner (pre ++ c :: rest)))
        (c :: rest) /\
  coherent (advance (List.length pre) (init_scanner (pre ++ c :: rest)))
           (pos_after (mkPos 1 1) pre).
Proof.
  intros Hb.
  assert (Hinit : reads (init_scanner (pre ++ c :: rest)) (pre ++ c :: rest)
                  /\ coherent (init_scanner (pre ++ c :: rest)) (mkPos 1 1)).
  { destruct pre as [| a pre]; cbn [app] in *;
      apply init_scanner_coherent;
      [exact (Forall_inv Hb) | exact (Forall_inv_tail Hb)
      | exact (Forall_inv Hb) | exact (Forall_inv_tail Hb)]. }
  destruct Hinit as [Hr Hc].
  exact (advance_reads pre _ (mkPos 1 1) c rest Hr Hc Hb).
Qed.

Lemma next_char_tracks_position_witness :
  reads (advance 4 (scanner_on "ab
cd")) [100] /\
  coherent (advance 4 (scanner_on "ab
cd")) (mkPos 2 2).
Proof.
  apply (next_char_tracks_position [97; 98; 10; 99] 100 []).
  repeat constructor; unfold is_byte; lia.
Defined.

Lemma ch_set_col (s : State) (n : Z) : ch (set_col s n) = ch s.
Proof. reflexivity. Qed.

Lemma isspace_EOF : isspace EOF = false.
Proof. reflexivity. Qed.

(** the loop of [get_token] over white space leaves the scanner on the
    first character that is none *)
Lemma skip_space_run (ws : list Z) :
  forall (rest : list Z) (fuel : nat) (s : State),
    Forall (fun c => isspace c = true) ws ->
    Forall is_byte (ws ++ rest) -> stops isspace rest ->
    reads s (ws ++ rest) -> (List.length ws < fuel)%nat ->
    skip_space fuel s = Ret (advance (List.length ws) s) /\
    reads (advance (List.length ws) s) rest.
Proof.
  induction ws as [| a ws IH]; intros rest fuel s Hws Hb Hst Hr Hfuel.
  - destruct fuel as [| fuel]; [simpl in Hfuel; lia |].
    cbn [skip_space app List.length] in *.
    rewrite (stops_ch isspace s rest isspace_EOF Hr Hst).
    split; [reflexivity | exact Hr].
  - destruct fuel as [| fuel]; [simpl in Hfuel; lia |].
    cbn [List.length]. rewrite advance_S. cbn [skip_space app] in *.
    assert (Hch : ch s = a) by (destruct Hr; assumption).
    rewrite Hch, (Forall_inv Hws).
    apply (IH rest fuel (next_char s)).
    + exact (Forall_inv_tail Hws).
    + exact (Forall_inv_tail Hb).
    + exact Hst.
    + apply (next_char_reads s a (ws ++ rest) Hr (Forall_inv Hb)
               (Forall_inv_tail Hb)).
    + simpl in Hfuel. lia.
Qed.

Lemma rounds_covers (s : State) (ws rest : list Z) :
  reads s (ws ++ rest) -> (List.length ws < rounds s)%nat.
Proof.
  intros Hr. unfold rounds.
  destruct (ws ++ rest) as [| c t] eqn:E.
  - destruct ws; [simpl; lia | discriminate].
  - destruct Hr as [_ ->].
    assert (Hl : List.length (ws ++ rest) = S (List.length t)) by now rewrite E.
    rewrite length_app in Hl. lia.
Qed.

(** X14.  White space before a token changes nothing but the position: the
    call returns what a call made behind the white space returns *)
Theorem get_token_skips_space (fuel : nat) (s : State) (token : Token)
    (ws rest : list Z) :
  Forall (fun c => isspace c = true) ws ->
  Forall is_byte (ws ++ rest) -> stops isspace rest ->
  reads s (ws ++ rest) ->
  reads (advance (List.length ws) s) rest /\
  get_token (S fuel) s token
  = get_token (S fuel) (advance (List.length ws) s) token.
Proof.
  intros Hws Hb Hst Hr.
  destruct (skip_space_run ws rest (rounds s) s Hws Hb Hst Hr
              (rounds_covers s ws rest Hr)) as [Hskip Hr'].
  split; [exact Hr' |].
  assert (Hnone : skip_space (rounds (advance (List.length ws) s))
                             (advance (List.length ws) s)
                  = Ret (advance (List.length ws) s)).
  { apply skip_space_none.
    apply (stops_ch isspace _ rest isspace_EOF Hr' Hst). }
  cbn [get_token]. rewrite Hskip, Hnone. reflexivity.
Qed.

Lemma get_token_skips_space_witness :
  reads (advance 2 (scanner_on "  7")) [55] /\
  get_token 1 (scanner_on "  7") no_token
  = get_token 1 (advance 2 (scanner_on "  7")) no_token.
Proof.
  apply (get_token_skips_space 0 (scanner_on "  7") no_token [32; 32] [55]).
  - repeat constructor.
  - repeat constructor; unfold is_byte; lia.
  - reflexivity.
  - split; reflexivity.
Defined.

(** X15.  When nothing but white space is left of the file the token is
    [TOKEN_EOF], and the scanner is at the end, where every further call
    returns [TOKEN_EOF] again *)
Theorem get_token_end_of_file (fuel : nat) (s : State) (token : Token)
    (ws : list Z) :
  Forall (fun c => isspace c = true) ws -> Forall is_byte ws ->
  reads s ws ->
  exists s',
    get_token (S fuel) s token = Ret (set_type token TOKEN_EOF, s') /\
    reads s' [] /\
    forall (fuel' : nat) (token' : Token),
      get_token (S fuel') s' token' = Ret (set_type token' TOKEN_EOF, s').
Proof.
  intros Hws Hb Hr.
  rewrite <- (app_nil_r ws) in Hr, Hb.
  destruct (skip_space_run ws [] (rounds s) s Hws Hb I Hr
              (rounds_covers s ws [] Hr)) as [Hskip Hr'].
  set (s1 := advance (List.length ws) s) in *.
  assert (Hch : ch s1 = EOF) by (destruct Hr'; assumption).
  exists (set_col s1 (column_number s1)).
  split; [| split].
  - cbn [get_token]. rewrite Hskip. cbn [bind]. rewrite Hch.
    change (EOF =? NEWLINE) with false. cbn iota.
    change (isascii EOF) with false. change (EOF =? EOF) with true.
    cbn [negb andb bind]. cbn [set_col ch]. rewrite Hch.
    change (EOF =? EOF) with true. cbn [negb]. reflexivity.
  - apply reads_set_col. exact Hr'.
  - intros fuel' token'. cbn [get_token].
    rewrite skip_space_none by (cbn [set_col ch]; rewrite Hch; reflexivity).
    cbn [bind]. rewrite !ch_set_col, Hch.
    change (EOF =? NEWLINE) with false. cbn iota.
    rewrite !ch_set_col, Hch.
    change (isascii EOF) with false. change (EOF =? EOF) with true.
    cbn [negb andb bind]. reflexivity.
Qed.

Lemma get_token_end_of_file_witness :
  exists s',
    get_token 1 (scanner_on "
 ") no_token = Ret (set_type no_token TOKEN_EOF, s') /\
    reads s' [] /\
    forall (fuel' : nat) (token' : Token),
      get_token (S fuel') s' token' = Ret (set_type token' TOKEN_EOF, s').
Proof.
  apply (get_token_end_of_file 0 (scanner_on "
 ") no_token [10; 32]).
  - repeat constructor.
  - repeat constructor; unfold is_byte; lia.
  - split; reflexivity.
Defined.

End Walking.

(** ** The scanner: operators and characters without a token *)

(** [get_token] up to the dispatch, on a character [H] gives the code of *)
Ltac at_character s H :=
  let Hsp := fresh "Hsp" in
  let H1 := fresh "Hnl" in
  let H2 := fresh "Hasc" in
  assert (Hsp : Scanner.isspace (Scanner.ch s) = false)
    by (rewrite H; reflexivity);
  cbn [Scanner.get_token]; rewrite (skip_space_none s Hsp); cbn [bind];
  assert (H1 : (Scanner.ch s =? Scanner.NEWLINE) = false)
    by (rewrite H; reflexivity);
  rewrite H1;
  assert (H2 : Scanner.isascii (Scanner.ch s) = true)
    by (rewrite H; reflexivity);
  rewrite H2; cbn [negb andb bind]; simpl Scanner.ch; rewrite H.

Section Characters.

Import Tok Scanner Spec.

Lemma get_token_on_less (fuel : nat) (s : State) (token : Token) :
  ch s = C "<" ->
  get_token (S fuel) s token =
  let s1 := next_char (set_col s (column_number s)) in
  if ch s1 =? C "=" then
    Ret (set_type token TOKEN_LESS_EQUAL,
         set_col (next_char s1) (col (position (next_char s1)) - 1))
  else if ch s1 =? C ">" then
    Ret (set_type token TOKEN_NOT_EQUAL,
         set_col (next_char s1) (col (position (next_char s1)) - 1))
  else Ret (set_type token TOKEN_LESS_THAN, s1).
Proof. intros H. at_character s H. reflexivity. Qed.

Lemma get_token_on_greater (fuel : nat) (s : State) (token : Token) :
  ch s = C ">" ->
  get_token (S fuel) s token =
  let s1 := next_char (set_col s (column_number s)) in
  if ch s1 =? C "=" then
    Ret (set_type token TOKEN_GREATER_EQUAL,
         set_col (next_char s1) (col (position (next_char s1)) - 1))
  else Ret (set_type token TOKEN_GREATER_THAN, s1).
Proof. intros H. at_character s H. reflexivity. Qed.

Lemma get_token_on_colon (fuel : nat) (s : State) (token : Token) :
  ch s = C ":" ->
  get_token (S fuel) s token =
  let s1 := next_char (set_col s (column_number s)) in
  if ch s1 =? C "=" then
    Ret (set_type token TOKEN_GETS,
         set_col (next_char s1) (col (position (next_char s1)) - 1))
  else illegal_character s1 (C ":").
Proof. intros H. at_character s H. reflexivity. Qed.

(** the scanner behind the first character of an operator *)
Lemma behind_first (s : State) (c : Z) (text : list Z) :
  reads s (c :: text) -> is_byte c -> Forall is_byte text ->
  reads (next_char (set_col s (column_number s))) text.
Proof.
  intros Hr Hc Hb.
  apply (next_char_reads _ c text); [apply reads_set_col; exact Hr | | ];
    assumption.
Qed.

(** X16.  The operators of two characters are taken whole: [<=], [<>], [>=]
    and [:=] are one token each, and [<] and [>] are tokens of their own only
    before another character; the scanner goes on behind the operator. A colon
    that no [=] follows stops the scanner with "illegal character" *)
Theorem get_token_longest_operator (fuel : nat) (s : State) (token : Token)
    (rest : list Z) :
  Forall is_byte rest ->
  (reads s (C "<" :: C "=" :: rest) ->
   exists s', get_token (S fuel) s token
              = Ret (set_type token TOKEN_LESS_EQUAL, s') /\ reads s' rest) /\
  (reads s (C "<" :: C ">" :: rest) ->
   exists s', get_token (S fuel) s token
              = Ret (set_type token TOKEN_NOT_EQUAL, s') /\ reads s' rest) /\
  (reads s (C ">" :: C "=" :: rest) ->
   exists s', get_token (S fuel) s token
              = Ret (set_type token TOKEN_GREATER_EQUAL, s')
              /\ reads s' rest) /\
  (reads s (C ":" :: C "=" :: rest) ->
   exists s', get_token (S fuel) s token
              = Ret (set_type token TOKEN_GETS, s') /\ reads s' rest) /\
  (reads s (C "<" :: rest) ->
   stops (fun c => (c =? C "=") || (c =? C ">")) rest ->
   exists s', get_token (S fuel) s token
              = Ret (set_type token TOKEN_LESS_THAN, s') /\ reads s' rest) /\
  (reads s (C ">" :: rest) -> stops (fun c => c =? C "=") rest ->
   exists s', get_token (S fuel) s token
              = Ret (set_type token TOKEN_GREATER_THAN, s') /\ reads s' rest) /\
  (reads s (C ":" :: rest) -> stops (fun c => c =? C "=") rest ->
   exists p, get_token (S fuel) s token
             = Fatal p "illegal character '%c' (ASCII #%d)" [C ":"; C ":"]).
Proof.
  intros Hb.
  assert (Hb2 : forall c, Forall is_byte (C c :: rest))
    by (intros c; constructor; [apply C_is_byte | exact Hb]).
  repeat split.
  - intros Hr. rewrite (get_token_on_less fuel s token (proj1 Hr)).
    pose proof (behind_first s _ _ Hr (C_is_byte "<") (Hb2 "="%char)) as Hr1.
    cbv zeta. rewrite (proj1 Hr1). change (C "=" =? C "=") with true.
    cbn iota. eexists. split; [reflexivity |].
    apply reads_set_col.
    apply (next_char_reads _ _ _ Hr1 (C_is_byte "=") Hb).
  - intros Hr. rewrite (get_token_on_less fuel s token (proj1 Hr)).
    pose proof (behind_first s _ _ Hr (C_is_byte "<") (Hb2 ">"%char)) as Hr1.
    cbv zeta. rewrite (proj1 Hr1). change (C ">" =? C "=") with false.
    change (C ">" =? C ">") with true.
    cbn iota. eexists. split; [reflexivity |].
    apply reads_set_col.
    apply (next_char_reads _ _ _ Hr1 (C_is_byte ">") Hb).
  - intros Hr. rewrite (get_token_on_greater fuel s token (proj1 Hr)).
    pose proof (behind_first s _ _ Hr (C_is_byte ">") (Hb2 "="%char)) as Hr1.
    cbv zeta. rewrite (proj1 Hr1). change (C "=" =? C "=") with true.
    cbn iota. eexists. split; [reflexivity |].
    apply reads_set_col.
    apply (next_char_reads _ _ _ Hr1 (C_is_byte "=") Hb).
  - intros Hr. rewrite (get_token_on_colon fuel s token (proj1 Hr)).
    pose proof (behind_first s _ _ Hr (C_is_byte ":") (Hb2 "="%char)) as Hr1.
    cbv zeta. rewrite (proj1 Hr1). change (C "=" =? C "=") with true.
    cbn iota. eexists. split; [reflexivity |].
    apply reads_set_col.
    apply (next_char_reads _ _ _ Hr1 (C_is_byte "=") Hb).
  - intros Hr Hst. rewrite (get_token_on_less fuel s token (proj1 Hr)).
    pose proof (behind_first s _ _ Hr (C_is_byte "<") Hb) as Hr1.
    cbv zeta.
    assert (Hno : (ch (next_char (set_col s (column_number s))) =? C "=")
                  || (ch (next_char (set_col s (column_number s))) =? C ">")
                  = false)
      by (apply (stops_ch (fun c => (c =? C "=") || (c =? C ">")) _ rest
                   eq_refl Hr1 Hst)).
    apply orb_false_iff in Hno. destruct Hno as [-> ->].
    eexists. split; [reflexivity | exact Hr1].
  - intros Hr Hst. rewrite (get_token_on_greater fuel s token (proj1 Hr)).
    pose proof (behind_first s _ _ Hr (C_is_byte ">") Hb) as Hr1.
    cbv zeta.
    rewrite (stops_ch (fun c => c =? C "=") _ rest eq_refl Hr1 Hst).
    eexists. split; [reflexivity | exact Hr1].
  - intros Hr Hst. rewrite (get_token_on_colon fuel s token (proj1 Hr)).
    pose proof (behind_first s _ _ Hr (C_is_byte ":") Hb) as Hr1.
    cbv zeta.
    rewrite (stops_ch (fun c => c =? C "=") _ rest eq_refl Hr1 Hst).
    eexists. reflexivity.
Qed.

Lemma get_token_longest_operator_witness :
  (exists s', get_token 1 (scanner_on "<=1") no_token
              = Ret (set_type no_token TOKEN_LESS_EQUAL, s')
              /\ reads s' [49]) /\
  (exists s', get_token 1 (scanner_on "<1") no_token
              = Ret (set_type no_token TOKEN_LESS_THAN, s')
              /\ reads s' [49]) /\
  (exists p, get_token 1 (scanner_on ":1") no_token
             = Fatal p "illegal character '%c' (ASCII #%d)" [58; 58]).
Proof.
  assert (Hb : Forall is_byte [49])
    by (repeat constructor; unfold is_byte; lia).
  split; [| split].
  - apply (proj1 (get_token_longest_operator 0 (scanner_on "<=1") no_token
                    [49] Hb)).
    split; reflexivity.
  - apply (proj1 (proj2 (proj2 (proj2 (proj2
             (get_token_longest_operator 0 (scanner_on "<1") no_token
                [49] Hb)))))).
    + split; reflexivity.
    + reflexivity.
  - apply (proj2 (proj2 (proj2 (proj2 (proj2 (proj2
             (get_token_longest_operator 0 (scanner_on ":1") no_token
                [49] Hb))))))).
    + split; reflexivity.
    + reflexivity.
Defined.

(** X17.  A character of the ASCII set that [get_token] has no case for, such
    as [?], [^] or a control character: the call returns with the token as it
    was and the scanner still on the character, so every further call does the
    same *)
Theorem get_token_stays_on_unknown (fuel : nat) (s : State) (token : Token) :
  isascii (ch s) = true -> has_case (ch s) = false ->
  get_token (S fuel) s token = Ret (token, set_col s (column_number s)) /\
  get_token (S fuel) (set_col s (column_number s)) token
  = Ret (token, set_col s (column_number s)).
Proof.
  intros Hasc Hno.
  assert (Hgen : forall t, ch t = ch s ->
            get_token (S fuel) t token
            = Ret (token, set_col t (column_number t))).
  { intros t Ht. rewrite <- Ht in Hasc, Hno.
    unfold has_case, illegal in Hno. cbn [existsb] in Hno.
    repeat match goal with
           | H : (_ || _) = false |- _ =>
               apply orb_false_iff in H; destruct H
           end.
    assert (Hsp : isspace (ch t) = false) by assumption.
    cbn [get_token]. rewrite (skip_space_none t Hsp). cbn [bind].
    assert (Hnl : (ch t =? NEWLINE) = false).
    { destruct (Z.eqb_spec (ch t) NEWLINE) as [E | E]; [| reflexivity].
      rewrite E in Hsp. discriminate. }
    clear Hsp.
    rewrite Hnl, Hasc. cbn [negb andb bind]. rewrite !ch_set_col.
    assert (Heof : (ch t =? EOF) = false).
    { destruct (Z.eqb_spec (ch t) EOF) as [E | E]; [| reflexivity].
      rewrite E in Hasc. discriminate. }
    rewrite Heof. cbn [negb].
    repeat match goal with
           | H : _ = false |- _ => rewrite H; clear H
           end.
    reflexivity. }
  split; [apply Hgen; reflexivity |].
  exact (Hgen (set_col s (column_number s)) eq_refl).
Qed.

Lemma get_token_stays_on_unknown_witness :
  get_token 1 (scanner_on "?") no_token
  = Ret (no_token, set_col (scanner_on "?") 1) /\
  get_token 1 (set_col (scanner_on "?") 1) no_token
  = Ret (no_token, set_col (scanner_on "?") 1).
Proof.
  apply (get_token_stays_on_unknown 0 (scanner_on "?") no_token);
    reflexivity.
Defined.

(** X18.  A byte outside the ASCII set, and each of the characters the
    [switch] lists as illegal, stops the scanner with "illegal character",
    reported in the line and the column of the character *)
Theorem get_token_illegal_character (fuel : nat) (s : State) (token : Token) :
  illegal (ch s) = true \/ 128 <= ch s <= 255 ->
  get_token (S fuel) s token
  = Fatal (mkPos (line (position s)) (column_number s))
          "illegal character '%c' (ASCII #%d)" [ch s; ch s].
Proof.
  intros [H | H].
  - unfold illegal in H. cbn [existsb] in H.
    repeat (apply orb_true_iff in H; destruct H as [H | H]);
      try discriminate;
      apply Z.eqb_eq in H; at_character s H; reflexivity.
  - assert (Hsp : isspace (ch s) = false) by compare_chars.
    cbn [get_token]. rewrite (skip_space_none s Hsp). cbn [bind].
    assert (H1 : (ch s =? NEWLINE) = false) by compare_chars.
    rewrite H1.
    assert (H2 : isascii (ch s) = false) by compare_chars.
    assert (H3 : (ch s =? EOF) = false) by compare_chars.
    rewrite H2, H3. reflexivity.
Qed.

Lemma get_token_illegal_character_witness :
  get_token 1 (scanner_on "}") no_token
  = Fatal (mkPos 1 1) "illegal character '%c' (ASCII #%d)" [125; 125] /\
  get_token 1 (init_scanner [200]) no_token
  = Fatal (mkPos 1 1) "illegal character '%c' (ASCII #%d)" [200; 200].
Proof.
  split.
  - apply (get_token_illegal_character 0 (scanner_on "}") no_token).
    left. reflexivity.
  - apply (get_token_illegal_character 0 (init_scanner [200]) no_token).
    right. simpl. lia.
Defined.

End Characters.

(** ** The scanner: long words and the edges of string literals *)

Section Edges.

Import Tok Scanner Spec.

(** the loop of [process_word] on a word that has more characters than an
    identifier may have *)
Lemma process_word_loop_too_long (l : list ascii) (rest : list Z) :
  Forall (fun a => is_word_char (C a) = true) l -> Forall is_byte rest ->
  forall (fuel : nat) (k i : Z) (acc : string) (s : State),
    (List.length l <= fuel)%nat ->
    reads s (map C l ++ rest) ->
    i <= MAX_ID_LENGTH < i + Z.of_nat (List.length l) ->
    process_word_loop fuel k i acc s
    = Fatal (mkPos (line (position (advance (Z.to_nat (MAX_ID_LENGTH - i)) s)))
                   k)
            "identifier too long" [].
Proof.
  intros Hl Hb.
  induction Hl as [| a l Ha Hl IH]; intros fuel k i acc s Hfuel Hr Hi.
  - simpl in Hi. lia.
  - destruct fuel as [| fuel]; [simpl in Hfuel; lia |].
    cbn [process_word_loop].
    assert (Hch : ch s = C a) by (destruct Hr; assumption).
    rewrite Hch, Ha.
    change (List.length (a :: l)) with (S (List.length l)) in Hi.
    destruct (Z.gtb_spec (i + 1) MAX_ID_LENGTH) as [Hgt | Hle].
    + replace (MAX_ID_LENGTH - i) with 0 by lia. reflexivity.
    + assert (Hr' : reads (next_char s) (map C l ++ rest)).
      { apply (next_char_reads s (C a) (map C l ++ rest) Hr (C_is_byte a)).
        apply Forall_app. split; [| exact Hb].
        apply Forall_map. apply Forall_forall. intros x _. apply C_is_byte. }
      rewrite (IH fuel k (i + 1) _ (next_char s)); [| simpl in Hfuel; lia
                                                    | exact Hr' | lia].
      replace (Z.to_nat (MAX_ID_LENGTH - i))
        with (S (Z.to_nat (MAX_ID_LENGTH - (i + 1)))) by lia.
      rewrite advance_S. reflexivity.
Qed.

(** X19.  A word of more than [MAX_ID_LENGTH] characters stops the scanner
    with "identifier too long", reported in the column the word starts in,
    whether or not it starts with a reserved word *)
Theorem scanner_identifier_too_long (fuel : nat) (s : State) (token : Token)
    (a : ascii) (tail : list ascii) (rest : list Z) :
  isalpha (C a) || (C a =? C "_") = true ->
  Forall (fun c => is_word_char (C c) = true) tail ->
  MAX_ID_LENGTH < Z.of_nat (List.length (a :: tail)) ->
  reads s (map C (a :: tail) ++ rest) -> Forall is_byte rest ->
  exists p,
    get_token (S fuel) s token = Fatal p "identifier too long" [] /\
    col p = column_number s.
Proof.
  intros Ha Htail Hlen Hr Hb.
  assert (Hch : ch s = C a) by (destruct Hr; assumption).
  rewrite (get_token_on_word fuel s token) by (rewrite Hch; exact Ha).
  unfold process_word.
  set (s0 := set_col s (column_number s)).
  assert (Hr0 : reads s0 (map C (a :: tail) ++ rest))
    by (apply reads_set_col; exact Hr).
  assert (Hword : Forall (fun c => is_word_char (C c) = true) (a :: tail)).
  { constructor; [| exact Htail].
    unfold is_word_char. apply orb_true_iff. left. exact Ha. }
  rewrite (process_word_loop_too_long (a :: tail) rest Hword Hb (rounds s0)
             (column_number s0) 0 "" s0).
  - cbn [bind]. eexists. split; [reflexivity | reflexivity].
  - unfold rounds. destruct Hr0 as [_ Hsrc]. rewrite Hsrc.
    cbn [List.length]. rewrite length_app, length_map. lia.
  - exact Hr0.
  - unfold MAX_ID_LENGTH in *. lia.
Qed.

Lemma scanner_identifier_too_long_witness :
  exists p,
    get_token 1 (scanner_on (String "w" long_tail)) no_token
    = Fatal p "identifier too long" [] /\
    col p = 1.
Proof.
  apply (scanner_identifier_too_long 0 (scanner_on (String "w" long_tail))
           no_token "w" (list_ascii_of_string long_tail) []).
  - reflexivity.
  - repeat constructor.
  - unfold MAX_ID_LENGTH. simpl. lia.
  - split; reflexivity.
  - constructor.
Defined.

(** one round of the loop of [process_string]: the characters of [i] are
    copied unchecked, and the checks are made on the character behind *)
Lemma process_string_loop_round (i : Item) (tail : list Z) (fuel : nat)
    (k count nstring : Z) (line : string) (s : State) :
  match i with
  | Plain c => C c <> DQUOTE /\ C c <> BACKSLASH /\ C c <> 0
  | Escape c => is_escape (C c) = true
  end ->
  Forall is_byte tail ->
  reads s (map C (raw_item i) ++ tail) ->
  Z.of_nat (String.length line) + Z.of_nat (List.length (raw_item i))
  < nstring ->
  exists s',
    reads s' tail /\
    process_string_loop (S fuel) k count nstring line s =
    if ch s' =? EOF then
      leprintf (position (set_col s' (k - 1))) "string not closed" []
    else if negb (isascii (ch s')) || (ch s' =? NEWLINE)
            || negb (isprint (ch s')) then
      leprintf (position (set_col s' (col (position s') + 1)))
               "non-printable character (ASCII #%d) in string" [ch s']
    else
      process_string_loop fuel k
        (if count + 1 >? 1023 then 0 else count + 1)
        (if count + 1 >? 1023 then nstring * 2 else nstring)
        (line ++ string_of_list_ascii (raw_item i))%string s'.
Proof.
  intros Hi Hb Hr Hroom. cbn [process_string_loop].
  destruct i as [c | c].
  - destruct Hi as [Hq [Hbs Hz]].
    change (Z.of_nat (List.length (raw_item (Plain c)))) with 1 in Hroom.
    cbn [raw_item map app] in Hr.
    assert (Hch : ch s = C c) by (destruct Hr; assumption).
    rewrite Hch.
    destruct (Z.eqb_spec (C c) DQUOTE) as [E | _]; [contradiction |].
    destruct (Z.eqb_spec (C c) BACKSLASH) as [E | _]; [contradiction |].
    cbn [bind]. rewrite int_to_char_C.
    rewrite strncat1_fits; [| exact Hz | lia]. cbn [bind].
    exists (next_char s). split.
    + apply (next_char_reads s (C c) tail Hr (C_is_byte c) Hb).
    + cbn [raw_item string_of_list_ascii].
      destruct (ch (next_char s) =? EOF); [reflexivity |].
      destruct (negb (isascii (ch (next_char s)))
                || (ch (next_char s) =? NEWLINE)
                || negb (isprint (ch (next_char s)))); [reflexivity |].
      destruct (count + 1 >? 1023); reflexivity.
  - change (Z.of_nat (List.length (raw_item (Escape c)))) with 2 in Hroom.
    cbn [raw_item map app] in Hr.
    assert (Hch : ch s = BACKSLASH) by (destruct Hr; assumption).
    rewrite Hch.
    change (BACKSLASH =? DQUOTE) with false.
    change (BACKSLASH =? BACKSLASH) with true. cbn iota.
    change (CInt.int_to_char BACKSLASH) with backslash.
    rewrite strncat1_fits; [| discriminate | lia]. cbn [bind].
    assert (Hr1 : reads (next_char s) (C c :: tail)).
    { apply (next_char_reads s BACKSLASH); auto.
      - unfold is_byte, BACKSLASH. lia.
      - constructor; [apply C_is_byte | exact Hb]. }
    assert (Hch1 : ch (next_char s) = C c) by (destruct Hr1; assumption).
    rewrite Hch1, Hi. cbn [negb bind]. rewrite int_to_char_C.
    rewrite strncat1_fits;
      [| revert Hi; compare_chars; intros; try discriminate; lia
       | rewrite length_append; simpl; lia].
    cbn [bind].
    exists (next_char (next_char s)). split.
    + apply (next_char_reads (next_char s) (C c) tail Hr1 (C_is_byte c) Hb).
    + assert (Happ : ((line ++ String backslash "") ++ String c "")%string
                     = (line ++ string_of_list_ascii (raw_item (Escape c)))
                       %string).
      { cbn [raw_item string_of_list_ascii]. apply append_char. }
      rewrite Happ.
      destruct (ch (next_char (next_char s)) =? EOF); [reflexivity |].
      destruct (negb (isascii (ch (next_char (next_char s))))
                || (ch (next_char (next_char s)) =? NEWLINE)
                || negb (isprint (ch (next_char (next_char s)))));
        [reflexivity |].
      destruct (count + 1 >? 1023); reflexivity.
Qed.

Lemma item_ok_round (i : Item) :
  item_ok i ->
  match i with
  | Plain c => C c <> DQUOTE /\ C c <> BACKSLASH /\ C c <> 0
  | Escape c => is_escape (C c) = true
  end.
Proof.
  destruct i as [c | c]; [| exact (fun H => H)].
  intros [Hp [Hq Hb]]. repeat split; auto.
  revert Hp. compare_chars; intros; try discriminate; lia.
Qed.

Lemma printable_next_item (i : Item) (tail : list Z) :
  item_ok i -> printable_next (map C (raw_item i) ++ tail).
Proof.
  destruct i as [c | c]; cbn [raw_item map app printable_next].
  - intros [Hp _]. exact Hp.
  - intros _. reflexivity.
Qed.

Lemma raw_snoc (body : list Item) (i : Item) :
  raw (body ++ [i]) = raw body ++ raw_item i.
Proof.
  unfold raw. rewrite flat_map_app. cbn [flat_map]. now rewrite app_nil_r.
Qed.

(** the loop of [process_string] up to the checks behind the last item of
    a literal *)
Lemma process_string_loop_last (body : list Item) (i : Item) (tail : list Z)
    (s1 : State) :
  Forall item_ok (body ++ [i]) -> Forall is_byte tail ->
  fits 1 MAX_INITIAL_STRING_LEN 0 (body ++ [i]) = true ->
  reads s1 (map C (raw (body ++ [i])) ++ tail) ->
  exists s' fuel count nstring line,
    reads s' tail /\
    process_string_loop (rounds s1) (column_number s1) 1
                        MAX_INITIAL_STRING_LEN "" s1 =
    if ch s' =? EOF then
      leprintf (position (set_col s' (column_number s1 - 1)))
               "string not closed" []
    else if negb (isascii (ch s')) || (ch s' =? NEWLINE)
            || negb (isprint (ch s')) then
      leprintf (position (set_col s' (col (position s') + 1)))
               "non-printable character (ASCII #%d) in string" [ch s']
    else
      process_string_loop fuel (column_number s1) count nstring line s'.
Proof.
  intros Hok Hb Hfits Hr.
  apply Forall_app in Hok. destruct Hok as [Hbody Hi].
  apply Forall_inv in Hi.
  rewrite raw_snoc, map_app, <- app_assoc in Hr.
  assert (Htail : Forall is_byte (map C (raw_item i) ++ tail)).
  { apply Forall_app. split; [| exact Hb].
    apply Forall_map, Forall_forall. intros x _. apply C_is_byte. }
  assert (Hf : exists f, rounds s1 = (List.length body + S f)%nat).
  { exists (rounds s1 - List.length body - 1)%nat.
    pose proof (length_body_raw body) as Hlb. unfold rounds.
    assert (Hsrc : (List.length (raw body) <= List.length (src_file s1))%nat).
    { destruct (map C (raw body) ++ map C (raw_item i) ++ tail)
        as [| d t] eqn:E.
      - destruct i; destruct (map C (raw body)); discriminate.
      - destruct Hr as [_ ->].
        assert (Hl : List.length
                       (map C (raw body) ++ map C (raw_item i) ++ tail)
                     = S (List.length t)) by (now rewrite E).
        rewrite !length_app, !length_map in Hl.
        destruct i; simpl in Hl; lia. }
    lia. }
  destruct Hf as [f Hf]. rewrite Hf.
  destruct (process_string_loop_items body [i] (map C (raw_item i) ++ tail)
              Hbody Htail (printable_next_item i tail Hi) (S f)
              (column_number s1) 1 MAX_INITIAL_STRING_LEN "" s1 Hr Hfits)
    as [count' [nstring' [s2 [Hf' [Hr2 He]]]]].
  rewrite He.
  cbn [fits] in Hf'. apply andb_true_iff in Hf'. destruct Hf' as [Hroom _].
  apply Z.ltb_lt in Hroom.
  destruct (process_string_loop_round i tail f (column_number s1) count'
              nstring' _ s2 (item_ok_round i Hi) Hb Hr2 Hroom)
    as [s' [Hr' Hround]].
  rewrite Hround. exists s'. do 4 eexists. split; [exact Hr' | reflexivity].
Qed.

(** X20.  A literal that the end of the file cuts off stops the scanner with
    "string not closed"; the column reported is the one before the character
    behind the opening quote *)
Theorem scanner_string_not_closed (fuel : nat) (s : State) (token : Token)
    (body : list Item) :
  Forall item_ok body ->
  fits 1 MAX_INITIAL_STRING_LEN 0 body = true ->
  reads s (DQUOTE :: map C (raw body)) ->
  exists p,
    get_token (S fuel) s token = Fatal p "string not closed" [] /\
    col p = column_number (next_char s) - 1.
Proof.
  intros Hok Hfits Hr.
  assert (Hch : ch s = DQUOTE) by (destruct Hr; assumption).
  rewrite (get_token_on_quote fuel s token Hch).
  set (s1 := next_char (set_col (set_col s (column_number s))
                                (column_number s))).
  assert (Hcol : column_number s1 = column_number (next_char s)).
  { unfold s1. destruct s as [src c0 cn pos lr]. unfold next_char, fgetc.
    cbn. destruct (c0 =? EOF); [reflexivity |].
    destruct src as [| d src]; cbn; [reflexivity |].
    destruct (d =? EOF); [reflexivity |].
    destruct (lr =? NEWLINE); cbn; destruct (d =? NEWLINE); reflexivity. }
  assert (Hr1 : reads s1 (map C (raw body))).
  { apply (next_char_reads _ DQUOTE).
    - do 2 apply reads_set_col. exact Hr.
    - unfold is_byte, DQUOTE. lia.
    - apply Forall_map, Forall_forall. intros x _. apply C_is_byte. }
  unfold process_string.
  destruct body as [| b0 body0].
  - (* nothing behind the quote *)
    cbn [raw flat_map map] in Hr1. destruct Hr1 as [Hc1 Hs1].
    unfold rounds. rewrite Hs1. cbn [List.length process_string_loop].
    rewrite Hc1. change (EOF =? DQUOTE) with false.
    change (EOF =? BACKSLASH) with false. cbn iota. cbn [bind].
    change (strncat1 MAX_INITIAL_STRING_LEN "" (CInt.int_to_char EOF))
      with (@Ret string (String (CInt.int_to_char EOF) "")).
    cbn [bind].
    assert (Hn : ch (next_char s1) = EOF).
    { destruct s1 as [src c0 cn pos lr]. cbn in Hc1. subst c0.
      reflexivity. }
    rewrite Hn. change (EOF =? EOF) with true. cbn iota. cbn [bind].
    eexists. split; [reflexivity |]. cbn. rewrite Hcol. reflexivity.
  - destruct (@exists_last _ (b0 :: body0)) as [body' [i E]];
      [discriminate |].
    rewrite E in Hok, Hfits, Hr1.
    rewrite <- (app_nil_r (map C (raw (body' ++ [i])))) in Hr1.
    destruct (process_string_loop_last body' i [] s1 Hok (Forall_nil _)
                Hfits Hr1)
      as [s' [f [count [nstring [line [Hr' He]]]]]].
    rewrite He. destruct Hr' as [Hc' _]. rewrite Hc'.
    change (EOF =? EOF) with true. cbn iota. cbn [bind].
    eexists. split; [reflexivity |]. cbn. rewrite Hcol. reflexivity.
Qed.

Lemma scanner_string_not_closed_witness :
  exists p,
    get_token 1 (init_scanner [34; 97; 92; 110]) no_token
    = Fatal p "string not closed" [] /\
    col p = 1.
Proof.
  apply (scanner_string_not_closed 0 (init_scanner [34; 97; 92; 110])
           no_token [Plain "a"; Escape "n"]).
  - repeat constructor; discriminate.
  - reflexivity.
  - split; reflexivity.
Defined.

(** X21.  Behind the first character of a literal, a character that is not
    printable, the line feed among them, stops the scanner with "non-printable
    character" and the code of the character *)
Theorem scanner_string_non_printable (fuel : nat) (s : State) (token : Token)
    (body : list Item) (i : Item) (x : Z) (rest : list Z) :
  Forall item_ok (body ++ [i]) ->
  fits 1 MAX_INITIAL_STRING_LEN 0 (body ++ [i]) = true ->
  is_byte x -> isprint x = false -> Forall is_byte rest ->
  reads s (DQUOTE :: map C (raw (body ++ [i])) ++ x :: rest) ->
  exists p,
    get_token (S fuel) s token
    = Fatal p "non-printable character (ASCII #%d) in string" [x].
Proof.
  intros Hok Hfits Hx Hnp Hb Hr.
  assert (Hch : ch s = DQUOTE) by (destruct Hr; assumption).
  rewrite (get_token_on_quote fuel s token Hch).
  set (s1 := next_char (set_col (set_col s (column_number s))
                                (column_number s))).
  assert (Htail : Forall is_byte (x :: rest)) by (constructor; assumption).
  assert (Hr1 : reads s1 (map C (raw (body ++ [i])) ++ x :: rest)).
  { apply (next_char_reads _ DQUOTE).
    - do 2 apply reads_set_col. exact Hr.
    - unfold is_byte, DQUOTE. lia.
    - apply raw_bytes. exact Htail. }
  unfold process_string.
  destruct (process_string_loop_last body i (x :: rest) s1 Hok Htail
              Hfits Hr1)
    as [s' [f [count [nstring [line [Hr' He]]]]]].
  rewrite He. destruct Hr' as [Hc' _]. rewrite Hc'.
  rewrite (byte_not_EOF x Hx), Hnp.
  rewrite orb_true_r. cbn [bind]. eexists. reflexivity.
Qed.

Lemma scanner_string_non_printable_witness :
  exists p,
    get_token 1 (init_scanner [34; 97; 10; 98; 34]) no_token
    = Fatal p "non-printable character (ASCII #%d) in string" [10].
Proof.
  apply (scanner_string_non_printable 0 (init_scanner [34; 97; 10; 98; 34])
           no_token [] (Plain "a") 10 [98; 34]).
  - repeat constructor; discriminate.
  - reflexivity.
  - unfold is_byte. lia.
  - reflexivity.
  - repeat constructor; unfold is_byte; lia.
  - split; reflexivity.
Defined.

(** X22.  The first character of a literal is copied without a check: a
    literal is accepted whatever that character is, a line feed, a control
    character or a byte outside the ASCII set included, as long as it is not
    the quote, the backslash or the zero byte *)
Theorem scanner_string_first_character (fuel : nat) (s : State)
    (token : Token) (a : ascii) (body : list Item) (rest : list Z) :
  C a <> DQUOTE -> C a <> BACKSLASH -> C a <> 0 ->
  Forall item_ok body -> Forall is_byte rest ->
  fits 2 MAX_INITIAL_STRING_LEN 1 body = true ->
  reads s (DQUOTE :: C a :: map C (raw body) ++ DQUOTE :: rest) ->
  exists s',
    get_token (S fuel) s token
    = Ret (set_str (set_type token TOKEN_STRING)
                   (String a (string_of_list_ascii (raw body))), s')
    /\ reads s' rest.
Proof.
  intros Hq Hbs Hz Hbody Hrest Hfits Hr.
  assert (Hch : ch s = DQUOTE) by (destruct Hr; assumption).
  rewrite (get_token_on_quote fuel s token Hch).
  set (s1 := next_char (set_col (set_col s (column_number s))
                                (column_number s))).
  assert (Htail : Forall is_byte (DQUOTE :: rest))
    by (constructor; [unfold is_byte, DQUOTE; lia | exact Hrest]).
  assert (Hbytes : Forall is_byte (map C (raw body) ++ DQUOTE :: rest))
    by (apply raw_bytes; exact Htail).
  assert (Hr1 : reads s1 (C a :: map C (raw body) ++ DQUOTE :: rest)).
  { apply (next_char_reads _ DQUOTE).
    - do 2 apply reads_set_col. exact Hr.
    - unfold is_byte, DQUOTE. lia.
    - constructor; [apply C_is_byte | exact Hbytes]. }
  unfold process_string.
  assert (Hf : exists f, rounds s1 = S (List.length body + S f)).
  { exists (rounds s1 - List.length body - 2)%nat.
    pose proof (length_body_raw body) as Hlb. unfold rounds.
    destruct Hr1 as [_ ->]. rewrite length_app, length_map.
    cbn [List.length]. lia. }
  destruct Hf as [f Hf]. rewrite Hf.
  destruct (process_string_loop_round (Plain a)
              (map C (raw body) ++ DQUOTE :: rest) (List.length body + S f)
              (column_number s1) 1 MAX_INITIAL_STRING_LEN "" s1
              (conj Hq (conj Hbs Hz)) Hbytes Hr1)
    as [s2 [Hr2 Hround]].
  { unfold MAX_INITIAL_STRING_LEN. simpl. lia. }
  rewrite Hround.
  assert (Hnext : printable_next (map C (raw body) ++ DQUOTE :: rest))
    by (apply printable_next_raw; [exact Hbody | reflexivity]).
  destruct (printable_next_checks s2 _ Hr2 Hnext) as [H1 H2].
  rewrite H1, H2. change (1 + 1 >? 1023) with false. cbn iota.
  change (1 + 1) with 2.
  rewrite <- (app_nil_r body) in Hfits.
  destruct (process_string_loop_items body [] (DQUOTE :: rest) Hbody Htail
              eq_refl (S f) (column_number s1) 2 MAX_INITIAL_STRING_LEN
              ("" ++ string_of_list_ascii (raw_item (Plain a)))%string
              s2 Hr2 Hfits)
    as [count' [nstring' [s' [_ [Hr' He]]]]].
  rewrite He. cbn [process_string_loop].
  destruct Hr' as [Hc' Hs'].
  rewrite Hc'. change (DQUOTE =? DQUOTE) with true. cbn iota. cbn [bind].
  eexists. split; [reflexivity |].
  apply reads_set_col. apply (next_char_reads s' DQUOTE).
  - split; assumption.
  - unfold is_byte, DQUOTE. lia.
  - exact Hrest.
Qed.

Lemma scanner_string_first_character_witness :
  exists s',
    get_token 1 (init_scanner [34; 10; 97; 34; 59]) no_token
    = Ret (set_str (set_type no_token TOKEN_STRING)
                   (String "010" (String "a" "")), s')
    /\ reads s' [59].
Proof.
  apply (scanner_string_first_character 0
           (init_scanner [34; 10; 97; 34; 59]) no_token "010" [Plain "a"]
           [59]).
  - discriminate.
  - discriminate.
  - discriminate.
  - repeat constructor; discriminate.
  - repeat constructor; unfold is_byte; lia.
  - reflexivity.
  - split; reflexivity.
Defined.

End Edges.

(** ** The scanner: comments that are closed *)

Section ClosedComments.

Import Tok Scanner Spec.

(** a text that closes the comments open in it, [k] of them and [d] more,
    closes the [k] innermost first *)
Lemma comment_rest_split (r : list Z) :
  forall (k d : nat) (x : list Z),
    comment_rest (k + S d) r = Some x ->
    exists i1 i2, r = i1 ++ i2 /\ comment_rest k i1 = Some [] /\
                  comment_rest d i2 = Some x.
Proof.
  induction r as [| c r IH]; intros k d x H; [discriminate |].
  cbn [comment_rest] in H.
  destruct (Z.eqb_spec c (C "}")) as [-> | Hnc].
  - destruct k as [| k]; cbn [Nat.add] in H.
    + exists [C "}"], r. repeat split. exact H.
    + destruct (IH k d x H) as [i1 [i2 [-> [H1 H2]]]].
      exists (C "}" :: i1), i2. repeat split; assumption.
  - destruct (Z.eqb_spec c (C "{")) as [-> | Hno].
    + destruct (IH (S k) d x H) as [i1 [i2 [-> [H1 H2]]]].
      exists (C "{" :: i1), i2. repeat split; assumption.
    + destruct (IH k d x H) as [i1 [i2 [-> [H1 H2]]]].
      exists (c :: i1), i2. repeat split; [| assumption].
      cbn [comment_rest].
      destruct (Z.eqb_spec c (C "}")); [contradiction |].
      destruct (Z.eqb_spec c (C "{")); [contradiction | assumption].
Qed.

(** a text that ends where its comment closes ends with a closing brace *)
Lemma comment_rest_last (i : list Z) :
  forall k, comment_rest k i = Some [] -> exists i', i = i' ++ [C "}"].
Proof.
  induction i as [| c i IH]; intros k H; [discriminate |].
  cbn [comment_rest] in H.
  destruct (Z.eqb_spec c (C "}")) as [-> | Hnc].
  - destruct k as [| k].
    + injection H as ->. exists []. reflexivity.
    + destruct (IH k H) as [i' ->]. exists (C "}" :: i'). reflexivity.
  - destruct (c =? C "{");
      [destruct (IH (S k) H) as [i' ->] | destruct (IH k H) as [i' ->]];
      exists (c :: i'); reflexivity.
Qed.

Lemma separated_two (c d : Z) (t : list Z) :
  separated (c :: d :: t)
  = negb ((c =? C "}") && (d =? C "{")) && separated (d :: t).
Proof. reflexivity. Qed.

Lemma separated_app (l1 l2 : list Z) :
  separated (l1 ++ l2) = true -> separated l1 = true /\ separated l2 = true.
Proof.
  induction l1 as [| c l1 IH]; intros H; [split; [reflexivity | exact H] |].
  pose proof (separated_tail c (l1 ++ l2) H) as Ht.
  destruct (IH Ht) as [H1 H2]. split; [| exact H2].
  destruct l1 as [| d l1]; [reflexivity |].
  cbn [app] in H. rewrite separated_two in H |- *.
  apply andb_true_iff in H. destruct H as [H _]. rewrite H, H1. reflexivity.
Qed.

Lemma separated_joint (l1 : list Z) (c : Z) (l2 : list Z) :
  separated (l1 ++ C "}" :: c :: l2) = true -> c <> C "{".
Proof.
  intros H. apply separated_app in H. destruct H as [_ H].
  apply separated_close in H. cbn [stops] in H. now apply Z.eqb_neq.
Qed.

Lemma comment_rest_nonempty (k : nat) (i x : list Z) :
  comment_rest k i = Some x -> i <> [].
Proof. destruct i; [discriminate | discriminate]. Qed.

(** the loop of [skip_comment] ends behind the brace that closes the
    comment *)
Lemma skip_comment_loop_closes (n : nat) :
  forall inside, (List.length inside <= n)%nat ->
  forall (fuel : nat) (s : State) (rest : list Z) (t1 t2 : Z),
    (2 * List.length inside + 1 <= fuel)%nat ->
    reads s (inside ++ rest) -> Forall is_byte (inside ++ rest) ->
    separated inside = true -> comment_rest 0 inside = Some [] ->
    exists s', skip_comment_loop fuel t1 t2 s = Ret s' /\ reads s' rest.
Proof.
  induction n as [| n IH];
    intros inside Hlen fuel s rest t1 t2 Hfuel Hr Hb Hsep Hcl.
  - destruct inside; [discriminate | simpl in Hlen; lia].
  - destruct inside as [| c r]; [discriminate |].
    destruct fuel as [| fuel]; [simpl in Hfuel; lia |].
    cbn [app] in Hr, Hb. cbn [List.length] in Hlen, Hfuel.
    assert (Hch : ch s = c) by (destruct Hr; assumption).
    pose proof (Forall_inv Hb) as Hbc.
    pose proof (Forall_inv_tail Hb) as Hbr.
    assert (Hr1 : reads (next_char s) (r ++ rest))
      by (apply (next_char_reads s c (r ++ rest) Hr Hbc Hbr)).
    pose proof (separated_tail c r Hsep) as Hsepr.
    cbn [comment_rest] in Hcl.
    cbn [skip_comment_loop]. rewrite Hch.
    destruct (Z.eqb_spec c (C "}")) as [-> | Hnc].
    + (* the closing brace *)
      injection Hcl as ->. exists (next_char s). split; [reflexivity |].
      exact Hr1.
    + destruct (Z.eqb_spec c (C "{")) as [-> | Hno].
      * (* a comment inside the comment *)
        destruct (comment_rest_split r 0 0 [] Hcl)
          as [i1 [i2 [-> [Hc1 Hc2]]]].
        rewrite length_app in Hlen, Hfuel.
        rewrite <- app_assoc in Hr1, Hbr.
        destruct (separated_app i1 i2 Hsepr) as [Hs1 Hs2].
        destruct fuel as [| fuel]; [lia |].
        cbn [skip_comment].
        assert (Hn1 : ch (next_char s) <> EOF).
        { destruct i1 as [| d i1]; [discriminate |].
          destruct Hr1 as [-> _].
          pose proof (Forall_inv Hbr) as Hd. unfold is_byte, EOF in *. lia. }
        apply Z.eqb_neq in Hn1. rewrite Hn1.
        destruct (IH i1 ltac:(lia) fuel (next_char s) (i2 ++ rest)
                    (column_number s) (line (position s))
                    ltac:(lia) Hr1 Hbr Hs1 Hc1) as [s1 [He1 Hrs1]].
        rewrite He1. cbn [bind].
        apply Forall_app in Hbr. destruct Hbr as [_ Hb2].
        destruct i2 as [| c2 r2]; [discriminate |].
        cbn [app] in Hrs1, Hb2. cbn [List.length] in Hlen, Hfuel.
        assert (Hch2 : ch s1 = c2) by (destruct Hrs1; assumption).
        assert (Hr2 : reads (next_char s1) (r2 ++ rest))
          by (apply (next_char_reads s1 c2 (r2 ++ rest) Hrs1
                       (Forall_inv Hb2) (Forall_inv_tail Hb2))).
        rewrite Hch2. cbn [comment_rest] in Hc2.
        destruct (Z.eqb_spec c2 (C "}")) as [-> | Hnc2].
        -- injection Hc2 as ->. exists (next_char s1).
           split; [reflexivity | exact Hr2].
        -- rewrite (byte_not_EOF c2 (Forall_inv Hb2)).
           assert (Hno2 : c2 <> C "{").
           { destruct (comment_rest_last i1 0 Hc1) as [i1' ->].
             rewrite <- app_assoc in Hsepr.
             apply (separated_joint i1' c2 r2 Hsepr). }
           destruct (Z.eqb_spec c2 (C "{")) as [E | _]; [contradiction |].
           apply (IH r2 ltac:(lia) (S fuel) (next_char s1) rest t1 t2
                    ltac:(lia) Hr2 (Forall_inv_tail Hb2)
                    (separated_tail c2 r2 Hs2) Hc2).
      * (* any other character *)
        cbn [bind]. rewrite Hch.
        destruct (Z.eqb_spec c (C "}")) as [E | _]; [contradiction |].
        rewrite (byte_not_EOF c Hbc).
        apply (IH r ltac:(lia) fuel (next_char s) rest t1 t2 ltac:(lia)
                 Hr1 Hbr Hsepr Hcl).
Qed.

(** X23.  A comment that is closed is skipped, the comments nested in it
    included: the call returns what a call made behind the closing brace
    returns. (Comments in which no closing brace has an opening brace right
    behind it.) *)
Theorem get_token_skips_comment (fuel : nat) (s : State) (token : Token)
    (inside rest : list Z) :
  reads s (C "{" :: inside ++ rest) -> Forall is_byte (inside ++ rest) ->
  separated inside = true -> comment_rest 0 inside = Some [] ->
  exists s',
    reads s' rest /\
    get_token (S fuel) s token = get_token fuel s' token.
Proof.
  intros Hr Hb Hsep Hcl.
  assert (Hch : ch s = C "{") by (destruct Hr; assumption).
  rewrite (get_token_on_brace fuel s token Hch).
  set (s0 := set_col s (column_number s)).
  assert (Hr0 : reads s0 (C "{" :: inside ++ rest))
    by (apply reads_set_col; exact Hr).
  assert (Hrounds : rounds s0 = S (S (List.length (inside ++ rest))))
    by (apply (reads_rounds s0 (C "{") _ Hr0)).
  rewrite Hrounds. rewrite length_app.
  assert (Hr1 : reads (next_char s0) (inside ++ rest))
    by (apply (next_char_reads s0 (C "{") _ Hr0 (C_is_byte "{") Hb)).
  replace (2 * S (S (List.length inside + List.length rest)))%nat
    with (S (S (S (S (2 * (List.length inside + List.length rest))))))%nat
    by lia.
  cbn [skip_comment].
  assert (Hn1 : ch (next_char s0) <> EOF).
  { destruct inside as [| d i]; [discriminate |].
    destruct Hr1 as [-> _].
    pose proof (Forall_inv Hb) as Hd. unfold is_byte, EOF in *. lia. }
  apply Z.eqb_neq in Hn1. rewrite Hn1.
  destruct (skip_comment_loop_closes (List.length inside) inside
              (Nat.le_refl _)
              (S (S (S (2 * (List.length inside + List.length rest)))))
              (next_char s0) rest (column_number s0) (line (position s0))
              ltac:(lia) Hr1 Hb Hsep Hcl) as [s' [He Hr']].
  rewrite He. cbn [bind]. exists s'. split; [exact Hr' | reflexivity].
Qed.

Lemma get_token_skips_comment_witness :
  exists s',
    reads s' [55] /\
    get_token 2 (scanner_on "{a{b}c}7") no_token = get_token 1 s' no_token.
Proof.
  apply (get_token_skips_comment 1 (scanner_on "{a{b}c}7") no_token
           [97; 123; 98; 125; 99; 125] [55]).
  - split; reflexivity.
  - repeat constructor; unfold is_byte; lia.
  - reflexivity.
  - reflexivity.
Defined.

End ClosedComments.

(** ** The parser *)

Section Keeping.

Import Tok Scanner Parser Spec.

Variable I : Compiler -> Prop.

Hypothesis I_stable : stable I.

Lemma keeps_ret (A : Type) (a : A) : keeps I (ret a).
Proof. intros c a' c' Hc H. injection H as _ <-. exact Hc. Qed.

Lemma keeps_bind (A B : Type) (m : M A) (k : A -> M B) :
  keeps I m -> (forall a, keeps I (k a)) -> keeps I (bindM m k).
Proof.
  intros Hm Hk c b c' Hc H. unfold bindM in H.
  apply bind_Ret in H. destruct H as [[a c1] [H1 H2]].
  exact (Hk a c1 b c' (Hm c a c1 Hc H1) H2).
Qed.

Lemma keeps_abort (A : Type) : keeps I (@abort_compile A).
Proof. intros c a c' _ H. discriminate. Qed.

Lemma keeps_out_of_fuel (A : Type) : keeps I (@out_of_fuel A).
Proof. intros c a c' _ H. discriminate. Qed.

Lemma keeps_undefined (A : Type) (why : string) : keeps I (@undefined A why).
Proof. intros c a c' _ H. discriminate. Qed.

Lemma keeps_emit (e : Emit) : keeps I (emit e).
Proof.
  intros c a c' Hc H. injection H as _ <-. now apply (stable_emit I_stable).
Qed.

Lemma keeps_tok : keeps I tok.
Proof. intros c a c' Hc H. injection H as _ <-. exact Hc. Qed.

Lemma keeps_tok_type : keeps I tok_type.
Proof. intros c a c' Hc H. injection H as _ <-. exact Hc. Qed.

Lemma keeps_get_return_type : keeps I get_return_type.
Proof. intros c a c' Hc H. injection H as _ <-. exact Hc. Qed.

Lemma keeps_get_counters : keeps I get_counters.
Proof. intros c a c' Hc H. injection H as _ <-. exact Hc. Qed.

Lemma keeps_get_off_counter : keeps I get_off_counter.
Proof. intros c a c' Hc H. injection H as _ <-. exact Hc. Qed.

Lemma keeps_get_position : keeps I get_position.
Proof. intros c a c' Hc H. injection H as _ <-. exact Hc. Qed.

Lemma keeps_set_return_type (t : ValType) : keeps I (set_return_type t).
Proof.
  intros c a c' Hc H. injection H as _ <-.
  now apply (stable_return_type I_stable).
Qed.

Lemma keeps_set_counters (n : Z) : keeps I (set_counters n).
Proof.
  intros c a c' Hc H. injection H as _ <-. now apply (stable_counters I_stable).
Qed.

Lemma keeps_set_off_counter (n : Z) : keeps I (set_off_counter n).
Proof.
  intros c a c' Hc H. injection H as _ <-.
  now apply (stable_off_counter I_stable).
Qed.

Lemma keeps_get_token : keeps I Parser.get_token.
Proof.
  intros c a c' Hc H. unfold Parser.get_token in H.
  apply bind_Ret in H. destruct H as [r [_ H]]. injection H as _ <-.
  now apply (stable_scanner I_stable).
Qed.

Lemma keeps_find_name (id : string) (p : option IDprop) :
  keeps I (Parser.find_name id p).
Proof.
  intros c a c' Hc H. unfold Parser.find_name in H.
  apply bind_Ret in H. destruct H as [r [_ H]]. injection H as _ <-.
  exact Hc.
Qed.

Lemma keeps_deref (A : Type) (p : option IDprop) (f : IDprop -> A) :
  keeps I (deref p f).
Proof.
  destruct p; [apply keeps_ret | apply keeps_undefined].
Qed.

Lemma keeps_assign_type (r : TypeRef) (t : ValType) :
  keeps I (assign_type r t).
Proof. destruct r; [apply keeps_set_return_type | apply keeps_ret]. Qed.


Ltac keep :=
  repeat first
    [ apply keeps_ret | apply keeps_abort | apply keeps_out_of_fuel
    | apply keeps_undefined | apply keeps_emit | apply keeps_tok
    | apply keeps_tok_type | apply keeps_get_return_type
    | apply keeps_get_counters | apply keeps_get_off_counter
    | apply keeps_get_position | apply keeps_set_return_type
    | apply keeps_set_counters | apply keeps_set_off_counter
    | apply keeps_get_token | apply keeps_find_name | apply keeps_deref
    | apply keeps_assign_type
    | apply (stable_insert_name I_stable)
    | apply (stable_open_subroutine I_stable)
    | apply (stable_close_subroutine I_stable)
    | match goal with
      | H : forall _, keeps _ _ |- keeps _ _ => apply H
      | H : forall _ _, keeps _ _ |- keeps _ _ => apply H
      | H : keeps _ _ |- keeps _ _ => exact H
      end
    | match goal with
      | |- keeps _ (if ?b then _ else _) => destruct b
      | |- keeps _ (match ?x with _ => _ end) => destruct x
      end
    | apply keeps_bind; [| intros ?] ].

Lemma keeps_expect (ty : TokenType) : keeps I (expect ty).
Proof. unfold expect. keep. Qed.

Lemma keeps_expect_id : keeps I expect_id.
Proof. unfold expect_id. keep. Qed.

Lemma keeps_gen_relational (t : TokenType) : keeps I (gen_relational t).
Proof. unfold gen_relational. keep. Qed.

Lemma keeps_gen_additive (n : Z) : keeps I (gen_additive n).
Proof. unfold gen_additive. keep. Qed.

Lemma keeps_gen_multiplicative (n : Z) : keeps I (gen_multiplicative n).
Proof. unfold gen_multiplicative. keep. Qed.

Lemma keeps_parse_type (r : TypeRef) : keeps I (parse_type r).
Proof.
  pose proof keeps_expect. unfold parse_type. keep.
Qed.

(** the routines for expressions *)
Lemma keeps_expressions (fuel : nat) :
  (forall t, keeps I (parse_expr fuel t)) /\
  (forall t, keeps I (parse_simple fuel t)) /\
  (forall n, keeps I (parse_simple_loop fuel n)) /\
  (forall t, keeps I (parse_term fuel t)) /\
  (forall n, keeps I (parse_term_loop fuel n)) /\
  (forall t, keeps I (parse_factor fuel t)) /\
  keeps I (parse_arguments fuel).
Proof.
  pose proof keeps_expect as Hexpect.
  pose proof keeps_expect_id as Hexpect_id.
  pose proof keeps_gen_relational as Hrel.
  pose proof keeps_gen_additive as Hadd.
  pose proof keeps_gen_multiplicative as Hmul.
  induction fuel as [| fuel [IHe [IHs [IHsl [IHt [IHtl [IHf IHa]]]]]]].
  - repeat split; intros; apply keeps_out_of_fuel.
  - repeat split; intros.
    + cbn [parse_expr]. keep.
    + cbn [parse_simple]. keep.
    + cbn [parse_simple_loop]. keep.
    + cbn [parse_term]. keep.
    + cbn [parse_term_loop]. keep.
    + cbn [parse_factor]. keep.
    + cbn [parse_arguments]. keep.
Qed.


Lemma keeps_parse_vardef_loop (fuel : nat) : keeps I (parse_vardef_loop fuel).
Proof.
  pose proof keeps_expect_id as Hexpect_id.
  induction fuel as [| fuel IH]; cbn [parse_vardef_loop]; keep.
Qed.

Lemma keeps_parse_vardef (fuel : nat) : keeps I (parse_vardef fuel).
Proof.
  pose proof keeps_expect as Hexpect.
  pose proof keeps_expect_id as Hexpect_id.
  pose proof keeps_parse_type as Htype.
  pose proof keeps_parse_vardef_loop as Hloop.
  unfold parse_vardef. keep.
Qed.

Lemma keeps_parse_assign (fuel : nat) : keeps I (parse_assign fuel).
Proof.
  pose proof keeps_expect as Hexpect.
  pose proof keeps_expect_id as Hexpect_id.
  destruct (keeps_expressions fuel) as [He [Hs _]].
  unfold parse_assign. keep.
Qed.

Lemma keeps_parse_call (fuel : nat) : keeps I (parse_call fuel).
Proof.
  pose proof keeps_expect as Hexpect.
  pose proof keeps_expect_id as Hexpect_id.
  destruct (keeps_expressions fuel) as [He [_ [_ [_ [_ [_ Ha]]]]]].
  unfold parse_call. keep.
Qed.

Lemma keeps_parse_input (fuel : nat) : keeps I (parse_input fuel).
Proof.
  pose proof keeps_expect as Hexpect.
  pose proof keeps_expect_id as Hexpect_id.
  destruct (keeps_expressions fuel) as [_ [Hs _]].
  unfold parse_input. keep.
Qed.

Lemma keeps_parse_leave (fuel : nat) : keeps I (parse_leave fuel).
Proof.
  pose proof keeps_expect as Hexpect.
  destruct (keeps_expressions fuel) as [He _].
  unfold parse_leave. keep.
Qed.

Lemma keeps_parse_output_loop (fuel : nat) : keeps I (parse_output_loop fuel).
Proof.
  induction fuel as [| fuel IH]; cbn [parse_output_loop]; [keep |].
  destruct (keeps_expressions fuel) as [He _]. keep.
Qed.

Lemma keeps_parse_output (fuel : nat) : keeps I (parse_output fuel).
Proof.
  pose proof keeps_expect as Hexpect.
  pose proof (keeps_parse_output_loop fuel) as Hloop.
  destruct (keeps_expressions fuel) as [He _].
  unfold parse_output. keep.
Qed.

(** the routines for statements *)
Lemma keeps_statements (fuel : nat) :
  keeps I (parse_statements fuel) /\
  keeps I (parse_statements_loop fuel) /\
  keeps I (parse_statement fuel) /\
  keeps I (parse_if fuel) /\
  keeps I (parse_while fuel) /\
  keeps I (parse_elsif_loop fuel).
Proof.
  pose proof keeps_expect as Hexpect.
  induction fuel as [| fuel [IHs [IHsl [IHst [IHi [IHw IHe]]]]]].
  - repeat split; apply keeps_out_of_fuel.
  - destruct (keeps_expressions fuel) as [He _].
    pose proof (keeps_parse_assign fuel) as Hassign.
    pose proof (keeps_parse_call fuel) as Hcall.
    pose proof (keeps_parse_input fuel) as Hinput.
    pose proof (keeps_parse_leave fuel) as Hleave.
    pose proof (keeps_parse_output fuel) as Houtput.
    repeat split.
    + cbn [parse_statements]. keep.
    + cbn [parse_statements_loop]. keep.
    + cbn [parse_statement]. keep.
    + cbn [parse_if]. keep.
    + cbn [parse_while]. keep.
    + cbn [parse_elsif_loop]. keep.
Qed.

Lemma keeps_parse_vardefs (fuel : nat) : keeps I (parse_vardefs fuel).
Proof.
  induction fuel as [| fuel IH]; cbn [parse_vardefs]; [keep |].
  pose proof (keeps_parse_vardef fuel) as Hvardef. keep.
Qed.

Lemma keeps_parse_body (fuel : nat) : keeps I (parse_body fuel).
Proof.
  pose proof keeps_expect as Hexpect.
  pose proof (keeps_parse_vardefs fuel) as Hvardefs.
  destruct (keeps_statements fuel) as [Hs _].
  unfold parse_body. keep.
Qed.

Lemma keeps_parse_params_loop (fuel : nat) (n : Z) (old : list Variable_s) :
  keeps I (parse_params_loop fuel n old).
Proof.
  pose proof keeps_expect_id as Hexpect_id.
  pose proof keeps_parse_type as Htype.
  revert n old.
  induction fuel as [| fuel IH]; intros n old; cbn [parse_params_loop]; keep.
Qed.

Lemma keeps_parse_to_loop (fuel : nat) : keeps I (parse_to_loop fuel).
Proof.
  pose proof keeps_parse_type as Htype.
  induction fuel as [| fuel IH]; cbn [parse_to_loop]; keep.
Qed.

Lemma keeps_parse_funcdef (fuel : nat) : keeps I (parse_funcdef fuel).
Proof.
  pose proof keeps_expect as Hexpect.
  pose proof keeps_expect_id as Hexpect_id.
  pose proof keeps_parse_type as Htype.
  pose proof (keeps_parse_params_loop fuel) as Hparams.
  pose proof (keeps_parse_to_loop fuel) as Hto.
  pose proof (keeps_parse_body fuel) as Hbody.
  unfold parse_funcdef. keep.
Qed.

Lemma keeps_parse_funcdefs (fuel : nat) : keeps I (parse_funcdefs fuel).
Proof.
  induction fuel as [| fuel IH]; cbn [parse_funcdefs]; [keep |].
  pose proof (keeps_parse_funcdef fuel) as Hfuncdef. keep.
Qed.

Lemma keeps_parse_source (fuel : nat) : keeps I (parse_source fuel).
Proof.
  pose proof keeps_expect as Hexpect.
  pose proof keeps_expect_id as Hexpect_id.
  pose proof (keeps_parse_funcdefs fuel) as Hfuncdefs.
  pose proof (keeps_parse_body fuel) as Hbody.
  unfold parse_source. keep.
Qed.


Lemma leads_bind (Q : Compiler -> Prop) (A B : Type) (m : M A)
    (k : A -> M B) :
  keeps I m -> (forall a, leads I Q (k a)) -> leads I Q (bindM m k).
Proof.
  intros Hm Hk c b c' Hc H. unfold bindM in H.
  apply bind_Ret in H. destruct H as [[a c1] [H1 H2]].
  exact (Hk a c1 b c' (Hm c a c1 Hc H1) H2).
Qed.

(** [parse_funcdef] ends with [close_subroutine] and a call of the
    emitter *)
Lemma leads_parse_funcdef (Q : Compiler -> Prop) (fuel : nat) :
  (forall e, leads I Q (bindM close_subroutine (fun _ => emit e))) ->
  leads I Q (parse_funcdef fuel).
Proof.
  intros Hend.
  pose proof keeps_expect as Hexpect.
  pose proof keeps_expect_id as Hexpect_id.
  pose proof keeps_parse_type as Htype.
  pose proof (keeps_parse_params_loop fuel) as Hparams.
  pose proof (keeps_parse_to_loop fuel) as Hto.
  pose proof (keeps_parse_body fuel) as Hbody.
  unfold parse_funcdef.
  do 10 (apply leads_bind; [solve [keep] | intros ?]).
  apply Hend.
Qed.

End Keeping.

Section Scoping.

Import Tok Scanner Parser Spec SymbolTable.

Lemma flat_lift (A : Type)
    (f : SymTab -> Outcome (A * SymTab)) :
  (forall st a st', f st = Ret (a, st') ->
     saved_table st' = saved_table st /\ curr_offset st' = curr_offset st) ->
  keeps flat (lift_symtab f).
Proof.
  intros Hf c a c' [Hs Ho] H. unfold lift_symtab in H.
  apply bind_Ret in H. destruct H as [[a' st'] [H1 H]].
  injection H as _ <-. destruct (Hf _ _ _ H1) as [Hs' Ho'].
  unfold flat. cbn [symtab]. split; congruence.
Qed.

Lemma flat_insert_name (id : string) (p : IDprop) :
  keeps flat (Parser.insert_name id p).
Proof.
  apply flat_lift. intros st a st' H.
  apply (call_keeps_statics st st' (CallInsert id p)).
  cbn [call]. rewrite H. reflexivity.
Qed.

Lemma flat_open_subroutine (id : string) (p : IDprop) :
  keeps flat (Parser.open_subroutine id p).
Proof.
  apply flat_lift. intros st a st' H.
  apply (call_keeps_statics st st' (CallOpen id p)).
  cbn [call]. rewrite H. reflexivity.
Qed.

Lemma flat_close_subroutine : keeps flat Parser.close_subroutine.
Proof.
  apply flat_lift. intros st a st' H.
  apply bind_Ret in H. destruct H as [st1 [H1 H]]. injection H as _ <-.
  apply (call_keeps_statics st st1 CallClose). exact H1.
Qed.

Lemma flat_stable : stable flat.
Proof.
  constructor; try (intros ? ? H; exact H); try (intros ? ? ? H; exact H).
  - exact flat_insert_name.
  - exact flat_open_subroutine.
  - exact flat_close_subroutine.
Qed.

(** X24.  A function definition that has been parsed leaves the unit of the
    symbol table without a table: [open_subroutine] has saved none, so
    [close_subroutine] makes the null pointer the current table, and the next
    search or insertion dereferences it *)
Theorem parse_funcdef_drops_table (fuel : nat) (c c' : Compiler) :
  flat c -> parse_funcdef fuel c = Ret (tt, c') ->
  SymbolTable.table (symtab c') = None /\ flat c' /\
  (forall id q, exists why, Parser.find_name id q c' = Undefined why) /\
  (forall id p, exists why, Parser.insert_name id p c' = Undefined why).
Proof.
  intros Hflat Hrun.
  assert (Hend : SymbolTable.table (symtab c') = None /\ flat c').
  { apply (leads_parse_funcdef flat flat_stable
             (fun c => SymbolTable.table (symtab c) = None /\ flat c)
             fuel) with (c := c) (a := tt); [| exact Hflat | exact Hrun].
    intros e c1 a c2 [Hs Ho] H. unfold bindM, Parser.close_subroutine,
      lift_symtab in H.
    apply bind_Ret in H. destruct H as [[u c3] [H1 H]].
    apply bind_Ret in H1. destruct H1 as [[u' st] [H1 H3]].
    injection H3 as _ <-. cbn [fst snd] in H.
    injection H as _ <-.
    apply bind_Ret in H1. destruct H1 as [st1 [H1 H3]].
    injection H3 as _ <-.
    unfold SymbolTable.close_subroutine in H1.
    destruct (SymbolTable.table (symtab c1)); [| discriminate].
    injection H1 as <-. unfold flat. cbn [symtab SymbolTable.table
      saved_table curr_offset]. rewrite Hs. repeat split. exact Ho. }
  destruct Hend as [Hnone Hflat'].
  split; [exact Hnone |]. split; [exact Hflat' |]. split.
  - intros id q. unfold Parser.find_name, SymbolTable.find_name.
    rewrite Hnone. eexists. reflexivity.
  - intros id p. unfold Parser.insert_name, lift_symtab,
      SymbolTable.insert_name, SymbolTable.find_name.
    rewrite Hnone. eexists. reflexivity.
Qed.

Lemma parse_funcdef_drops_table_witness :
  flat funcdef_start /\
  parse_funcdef 40 funcdef_start = Ret (tt, funcdef_end) /\
  SymbolTable.table (symtab funcdef_end) = None /\ flat funcdef_end /\
  (forall id q, exists why,
      Parser.find_name id q funcdef_end = Undefined why) /\
  (forall id p, exists why,
      Parser.insert_name id p funcdef_end = Undefined why).
Proof.
  split; [split; reflexivity |].
  split; [vm_compute; reflexivity |].
  apply (parse_funcdef_drops_table 40 funcdef_start funcdef_end).
  - split; reflexivity.
  - vm_compute. reflexivity.
Defined.

End Scoping.

(** ** The compiler as its routines make it *)

Section Compiling.

Import Tok Scanner Parser Spec SymbolTable.

Lemma initial_globals (text : list Z) (c : Compiler) :
  initial text = Ret c -> flat c /\ code c = [] /\ counters c = 0.
Proof.
  unfold initial. intros H. apply bind_Ret in H. destruct H as [st [H1 H]].
  injection H as <-. cbn [symtab code counters].
  assert (st = mkSymTab (Some empty_table) None 1)
    by (change init_symbol_table
         with (@Ret SymTab (mkSymTab (Some empty_table) None 1)) in H1;
        congruence).
  subst st. repeat split.
Qed.

(** X25.  Whatever the source is, a compilation that runs to the end returns
    [EXIT_SUCCESS] and has saved no table on the way: the parser works with
    one scope, and [get_variables_width] has stayed at 1 *)
Theorem compile_keeps_one_scope (text : list Z) (r : Z) (c : Compiler) :
  main text = Ret (r, c) ->
  r = EXIT_SUCCESS /\ saved_table (symtab c) = None /\
  get_variables_width (symtab c) = 1.
Proof.
  unfold main. intros H. apply bind_Ret in H. destruct H as [c0 [H0 H]].
  destruct (initial_globals text c0 H0) as [Hflat _].
  assert (Hkeep : keeps flat
            (bindM Parser.get_token
               (fun _ => bindM (parse_source (parse_fuel text))
                               (fun _ => ret EXIT_SUCCESS)))).
  { apply (keeps_bind flat); [apply (keeps_get_token flat flat_stable) |].
    intros _. apply (keeps_bind flat);
      [apply (keeps_parse_source flat flat_stable) |].
    intros _. apply keeps_ret. }
  destruct (Hkeep c0 r c Hflat H) as [Hs Ho].
  split; [| split; [exact Hs | exact Ho]].
  unfold bindM in H. apply bind_Ret in H. destruct H as [[u1 c1] [_ H]].
  apply bind_Ret in H. destruct H as [[u2 c2] [_ H]].
  injection H as <- _. reflexivity.
Qed.

Lemma compile_keeps_one_scope_witness :
  returns (main (file_of_string ill_typed_source)) = true /\
  saved_table (symtab (compiled ill_typed_source)) = None /\
  get_variables_width (symtab (compiled ill_typed_source)) = 1.
Proof.
  assert (Hret : returns (main (file_of_string ill_typed_source)) = true)
    by (vm_compute; reflexivity).
  split; [exact Hret |].
  unfold compiled.
  destruct (main (file_of_string ill_typed_source))
    as [[r c] | p f a | n | w |] eqn:E; try discriminate Hret.
  exact (proj2 (compile_keeps_one_scope (file_of_string ill_typed_source)
                  r c E)).
Defined.

Lemma starts_stable (l : list Emit) : stable (starts l).
Proof.
  assert (Hlift : forall (A : Type) (f : SymTab -> Outcome (A * SymTab)),
             keeps (starts l) (lift_symtab f)).
  { intros A f c a c' Hc H. unfold lift_symtab in H.
    apply bind_Ret in H. destruct H as [[a' st'] [_ H]].
    injection H as _ <-. exact Hc. }
  constructor; try (intros ? ? H; exact H); try (intros ? ? ? H; exact H).
  - intros c e [l' H]. exists (l' ++ [e]). cbn [code]. rewrite H.
    now rewrite app_assoc.
  - intros id p. apply Hlift.
  - intros id p. apply Hlift.
  - apply Hlift.
Qed.

Lemma initial_scanner (text : list Z) (c : Compiler) :
  initial text = Ret c ->
  scanner c = init_scanner text /\ token c = no_token.
Proof.
  unfold initial. intros H. apply bind_Ret in H. destruct H as [st [_ H]].
  injection H as <-. split; reflexivity.
Qed.

(** [get_token] of the parser hands the scanner and the token to the
    scanner and stores what comes back; the emitter is not called *)
Lemma get_token_scans (c c' : Compiler) (u : unit) :
  Parser.get_token c = Ret (u, c') ->
  Scanner.get_token (token_fuel (scanner c)) (scanner c) (token c)
  = Ret (token c', scanner c') /\ code c' = code c.
Proof.
  unfold Parser.get_token. intros H.
  apply bind_Ret in H. destruct H as [[t s] [H1 H]].
  injection H as _ <-. split; [exact H1 | reflexivity].
Qed.

Lemma expect_scans (ty : TokenType) (c c' : Compiler) (u : unit) :
  expect ty c = Ret (u, c') ->
  type (token c) = ty /\ Parser.get_token c = Ret (u, c').
Proof.
  unfold expect, bindM, tok_type. cbn [bind fst snd]. unfold eqb.
  destruct (TokenType_eq_dec (type (token c)) ty) as [E | E];
    [| discriminate].
  intros H. split; [exact E | exact H].
Qed.

Lemma expect_id_scans (c c' : Compiler) (id : string) :
  expect_id c = Ret (id, c') ->
  type (token c) = TOKEN_ID /\ id = lexeme (token c) /\ code c' = code c.
Proof.
  unfold expect_id, bindM, tok. cbn [bind fst snd]. unfold eqb.
  destruct (TokenType_eq_dec (type (token c)) TOKEN_ID) as [E | E];
    [| discriminate].
  intros H. apply bind_Ret in H. destruct H as [[u c1] [H1 H]].
  cbn [fst snd] in H. injection H as <- <-.
  split; [exact E |]. split; [reflexivity |].
  exact (proj2 (get_token_scans c c1 u H1)).
Qed.

(** a routine that returns has only added to the calls made to the emitter *)
Lemma keeps_emits (m : M unit) (c c' : Compiler) :
  keeps (starts (code c)) m -> m c = Ret (tt, c') ->
  exists l, emits m c c' l.
Proof.
  intros Hk H.
  destruct (Hk c tt c') as [l Hl]; [exists []; now rewrite app_nil_r | exact H |].
  exists l. split; [exact H | exact Hl].
Qed.

(** X26.  The calls a compilation that runs to the end has made to the
    emitter.  The first two tokens of the text are [source] and an
    identifier; [init_code_generation] and [set_class_name] with the lexeme of
    that identifier come first, then the calls of the run of
    [parse_funcdefs], then [init_subroutine_codegen] for [main], then the
    calls of the run of [parse_body], and last [gen_1(JVM_RETURN)] and
    [close_subroutine_codegen] with the counter of assignments plus one *)
Theorem compile_code_frame (text : list Z) (r : Z) (c : Compiler) :
  main text = Ret (r, c) ->
  exists (t1 t2 : Token) (c1 c2 c3 c4 : Compiler) (functions body : list Emit),
    first_tokens text = Ret (t1, t2) /\
    type t1 = TOKEN_SOURCE /\ type t2 = TOKEN_ID /\
    code c1 = [init_code_generation; set_class_name (lexeme t2)] /\
    emits (parse_funcdefs (parse_fuel text)) c1 c2 functions /\
    emits (emit (init_subroutine_codegen "main" (idprop TYPE_NONE 0 1 [])))
          c2 c3 [init_subroutine_codegen "main" (idprop TYPE_NONE 0 1 [])] /\
    emits (parse_body (parse_fuel text)) c3 c4 body /\
    code c =
    [init_code_generation; set_class_name (lexeme t2)] ++ functions ++
    [init_subroutine_codegen "main" (idprop TYPE_NONE 0 1 [])] ++ body ++
    [gen_1 JVM_RETURN; close_subroutine_codegen (counters c + 1)].
Proof.
  unfold main. intros H. apply bind_Ret in H. destruct H as [c0 [H0 H]].
  destruct (initial_globals text c0 H0) as [_ [Hcode0 _]].
  destruct (initial_scanner text c0 H0) as [Hsc0 Htk0].
  unfold bindM in H.
  apply bind_Ret in H. destruct H as [[u1 c1] [H1 H]]. cbn [fst snd] in H.
  apply bind_Ret in H. destruct H as [[u2 c2] [H2 H]]. cbn [fst snd] in H.
  injection H as _ <-.
  destruct (get_token_scans c0 c1 u1 H1) as [Hscan1 Hcode1].
  rewrite Hcode0 in Hcode1.
  unfold parse_source, bindM in H2.
  apply bind_Ret in H2. destruct H2 as [[u3 c3] [H3 H2]]. cbn [fst snd] in H2.
  apply bind_Ret in H2. destruct H2 as [[name c4] [H4 H2]].
  cbn [fst snd] in H2.
  destruct (expect_scans _ c1 c3 u3 H3) as [Hty1 Hget3].
  destruct (get_token_scans c1 c3 u3 Hget3) as [Hscan3 Hcode3].
  destruct (expect_id_scans c3 c4 name H4) as [Hty3 [Hname Hcode4]].
  apply bind_Ret in H2. destruct H2 as [[u5 c5] [H5 H2]]. cbn [fst snd] in H2.
  apply bind_Ret in H2. destruct H2 as [[u6 c6] [H6 H2]]. cbn [fst snd] in H2.
  apply bind_Ret in H2. destruct H2 as [[u7 c7] [H7 H2]]. cbn [fst snd] in H2.
  apply bind_Ret in H2. destruct H2 as [[u8 c8] [H8 H2]]. cbn [fst snd] in H2.
  apply bind_Ret in H2. destruct H2 as [[u9 c9] [H9 H2]]. cbn [fst snd] in H2.
  apply bind_Ret in H2. destruct H2 as [[u10 c10] [H10 H2]].
  cbn [fst snd] in H2.
  apply bind_Ret in H2. destruct H2 as [[n c11] [H11 H2]].
  cbn [fst snd] in H2.
  injection H5 as _ <-. injection H6 as _ <-.
  destruct u7, u8, u9.
  match type of H7 with
  | parse_funcdefs _ ?c = _ => set (c6 := c) in *
  end.
  assert (Hcode6 : code c6 = [init_code_generation; set_class_name name]).
  { subst c6. cbn [code]. rewrite Hcode4, Hcode3, Hcode1. reflexivity. }
  destruct (keeps_emits (parse_funcdefs (parse_fuel text)) c6 c7)
    as [functions Hf]; [| exact H7 |].
  { apply keeps_parse_funcdefs. apply starts_stable. }
  assert (He : emits (emit (init_subroutine_codegen "main"
                              (idprop TYPE_NONE 0 1 [])))
                     c7 c8 [init_subroutine_codegen "main"
                              (idprop TYPE_NONE 0 1 [])]).
  { split; [exact H8 |]. injection H8 as <-. reflexivity. }
  destruct (keeps_emits (parse_body (parse_fuel text)) c8 c9)
    as [body Hb]; [| exact H9 |].
  { apply keeps_parse_body. apply starts_stable. }
  exists (token c1), (token c3), c6, c7, c8, c9, functions, body.
  split.
  { unfold first_tokens. cbn zeta. rewrite <- Hsc0, <- Htk0, Hscan1.
    cbn [bind fst snd]. rewrite Hscan3. reflexivity. }
  split; [exact Hty1 |]. split; [exact Hty3 |].
  rewrite <- Hname.
  split; [exact Hcode6 |]. split; [exact Hf |]. split; [exact He |].
  split; [exact Hb |].
  injection H10 as _ <-. injection H11 as <- <-. injection H2 as _ <-.
  cbn [code counters].
  rewrite (proj2 Hb), (proj2 He), (proj2 Hf), Hcode6.
  rewrite <- !app_assoc. reflexivity.
Qed.

Lemma compile_code_frame_witness :
  returns (main (file_of_string framed_source)) = true /\
  code (compiled framed_source) =
  [init_code_generation; set_class_name "Q";
   init_subroutine_codegen "f" (idprop TYPE_CALLABLE 1 0 []);
   close_subroutine_codegen 0;
   init_subroutine_codegen "main" (idprop TYPE_NONE 0 1 []);
   gen_1 JVM_RETURN; close_subroutine_codegen 1] /\
  exists (t1 t2 : Token) (c1 c2 c3 c4 : Compiler) (functions body : list Emit),
    lexeme t2 = "Q" /\
    first_tokens (file_of_string framed_source) = Ret (t1, t2) /\
    type t1 = TOKEN_SOURCE /\ type t2 = TOKEN_ID /\
    code c1 = [init_code_generation; set_class_name (lexeme t2)] /\
    emits (parse_funcdefs (parse_fuel (file_of_string framed_source)))
          c1 c2 functions /\
    emits (emit (init_subroutine_codegen "main" (idprop TYPE_NONE 0 1 [])))
          c2 c3 [init_subroutine_codegen "main" (idprop TYPE_NONE 0 1 [])] /\
    emits (parse_body (parse_fuel (file_of_string framed_source)))
          c3 c4 body /\
    code (compiled framed_source) =
    [init_code_generation; set_class_name (lexeme t2)] ++ functions ++
    [init_subroutine_codegen "main" (idprop TYPE_NONE 0 1 [])] ++ body ++
    [gen_1 JVM_RETURN;
     close_subroutine_codegen (counters (compiled framed_source) + 1)].
Proof.
  assert (Hret : returns (main (file_of_string framed_source)) = true)
    by (vm_compute; reflexivity).
  split; [exact Hret |].
  split; [vm_compute; reflexivity |].
  unfold compiled.
  destruct (main (file_of_string framed_source))
    as [[r c] | p f a | n | w |] eqn:E; try discriminate Hret.
  destruct (compile_code_frame (file_of_string framed_source) r c E)
    as (t1 & t2 & c1 & c2 & c3 & c4 & functions & body & Hft & H).
  exists t1, t2, c1, c2, c3, c4, functions, body.
  split; [| split; [exact Hft | exact H]].
  assert (Hc : first_tokens (file_of_string framed_source)
               = Ret (mkToken TOKEN_SOURCE 0 "" "", mkToken TOKEN_ID 0 "Q" ""))
    by (vm_compute; reflexivity).
  rewrite Hc in Hft. injection Hft as _ <-. reflexivity.
Defined.

End Compiling.
